(** * Two-pass connected-component labelling (ConnectedComponent.cpp)

    A shallow embedding of [ConnectedComponent::apply] and its helpers
    ([getNeighbors], [disjointUnion], [disjointFind],
    [calculateBlobEccentricity], [calculateBlobCentroid]) together with the
    properties stated about them.

    Conventions of the embedding
    - [int] values are integers in [Z]; the only arithmetic that could leave
      the 32-bit range is [nextLabel++], whose wrap-around is written out
      ([int_wrap]).
    - loop counters [x], [y] and the sizes [rows], [cols] are natural numbers;
      comparisons that involve [cols - 1] are made in [Z], as in the source.
    - a [cv::Mat] is a header (type code, rows, cols) over one row-major
      buffer; a row pointer [ptr<int>(y)] is the offset [y * cols] into that
      buffer, so that writes through [curr_ptr] are seen through the matrix
      and through [prev_ptr].
    - a [std::vector<int>] is a [list Z]; an access outside the vector (and a
      read outside the pixel buffer) is undefined behaviour in C++ and is an
      explicit outcome [OutOfBounds] here.
    - the two [while] loops which follow parent pointers are run with fuel
      equal to the length of the parent vector plus one, which is enough
      whenever the chains have no cycle ([chase_enough_fuel]); running out of
      fuel is the outcome [Diverges].
    - [double] and [float] are the IEEE-754 binary64 and binary32 formats of
      the Standard Library's [SpecFloat]. *)

From Stdlib Require Import ZArith List Lia Bool.
From Stdlib Require Import Floats.SpecFloat.
From stdpp Require Import base tactics option numbers sorting sets list.

Local Open Scope Z_scope.
Set Warnings "-clear-no-such-hyp".

(** ** Machine integers *)

Definition int_min : Z := - 2 ^ 31.
Definition int_max : Z := 2 ^ 31 - 1.

Definition in_int (z : Z) : Prop := int_min <= z <= int_max.

Definition int_wrap (z : Z) : Z := (z + 2 ^ 31) mod 2 ^ 32 - 2 ^ 31.

(** ** Floating point: binary64 ([double]) and binary32 ([float]) *)

Module F64.
Definition prec : Z := 53.
Definition emax : Z := 1024.
Definition t := spec_float.
Definition of_Z (z : Z) : t := binary_normalize prec emax z 0 false.
Definition add : t -> t -> t := SFadd prec emax.
Definition sub : t -> t -> t := SFsub prec emax.
Definition mul : t -> t -> t := SFmul prec emax.
Definition div : t -> t -> t := SFdiv prec emax.
Definition sqrt : t -> t := SFsqrt prec emax.
Definition abs : t -> t := SFabs.
Definition eqb : t -> t -> bool := SFeqb.
Definition ltb : t -> t -> bool := SFltb.
(** [DBL_EPSILON] is [2^-52]. *)
Definition epsilon : t := binary_normalize prec emax 1 (-52) false.
End F64.

Module F32.
Definition prec : Z := 24.
Definition emax : Z := 128.
Definition t := spec_float.
(** Narrowing conversion from [double], round to nearest even. *)
Definition of_double (d : F64.t) : t :=
  match d with
  | S754_finite s m e => binary_round prec emax s m e
  | _ => d
  end.
Definition sqrt : t -> t := SFsqrt prec emax.
End F32.

(** ** Matrices *)

(** OpenCV type codes: depth + 8 * (channels - 1). *)
Definition CV_8UC1 : Z := 0.
Definition CV_32SC1 : Z := 4.

Record Mat := mkMat {
  mat_type : Z;
  mat_rows : nat;
  mat_cols : nat;
  mat_data : list Z
}.

(** The matrices the library can hand to [apply]: the buffer holds
    [rows * cols] elements, and an 8-bit matrix holds bytes. *)
Definition wf_mat (m : Mat) : Prop :=
  length (mat_data m) = (mat_rows m * mat_cols m)%nat ∧
  (mat_type m = CV_8UC1 → Forall (λ v, 0 <= v < 256) (mat_data m)).

(** [image.clone()] followed by [convertTo( result, CV_32SC1 )]: the values
    are kept, the element type becomes [int].  This is the library's
    behaviour on a matrix that has elements; for an empty source the library
    leaves the destination empty, and nothing below relies on the header of
    the result of an empty image. *)
Definition convertTo (m : Mat) (ty : Z) : Mat :=
  mkMat ty (mat_rows m) (mat_cols m) (mat_data m).

(** ** Outcomes and the object state *)

Inductive error :=
| PreconditionViolation   (* CV_Assert failed *)
| LabelCapacityExceeded   (* the std::runtime_error of pass 1 *)
| LengthError             (* std::vector constructed with a negative size *)
| OutOfBounds             (* undefined behaviour: index outside a buffer *)
| Diverges.               (* a parent chase that never reaches a root *)

Inductive outcome (A : Type) :=
| Ok (a : A)
| Throw (e : error).
Arguments Ok {A} a.
Arguments Throw {A} e.

Definition obind {A B} (o : outcome A) (f : A → outcome B) : outcome B :=
  match o with
  | Ok a => f a
  | Throw e => Throw e
  end.

#[global] Instance outcome_ret : MRet outcome := @Ok.
#[global] Instance outcome_bind : MBind outcome := λ A B f o, obind o f.

(** [cv::Point2f]. *)
Record Point2f := mkPoint2f { pt_x : F32.t; pt_y : F32.t }.

(** Modelled from the spec: the record type is declared in the header, which
    is not among the sources; its four fields are the ones [apply] assigns
    (spec section 3). *)
Record ComponentProperty := mkComponentProperty {
  labelID : Z;
  area : Z;
  eccentricity : F32.t;
  centroid : Point2f
}.

(** Modelled from the spec: the class declaration (ConnectedComponent.h) is
    not among the sources.  Its fields are the ones [apply] uses:
    [maxComponent] and [nextLabel] (an [int] counter, spec section 3 and 4.1)
    and the vector of property records. *)
Record ConnectedComponent := mkConnectedComponent {
  maxComponent : Z;
  nextLabel : Z;
  properties : list ComponentProperty
}.

(** A member function: it may read and update the object and may throw;
    the object survives a throw. *)
Definition M (A : Type) : Type :=
  ConnectedComponent → outcome A * ConnectedComponent.

Definition ret {A} (a : A) : M A := λ s, (Ok a, s).
Definition throw {A} (e : error) : M A := λ s, (Throw e, s).
Definition bind {A B} (m : M A) (f : A → M B) : M B :=
  λ s, match m s with
       | (Ok a, s') => f a s'
       | (Throw e, s') => (Throw e, s')
       end.
Definition lift {A} (o : outcome A) : M A := λ s, (o, s).

#[global] Instance M_ret : MRet M := @ret.
#[global] Instance M_bind : MBind M := λ A B f m, bind m f.

Definition get_nextLabel : M Z := λ s, (Ok (nextLabel s), s).
Definition set_nextLabel (v : Z) : M unit :=
  λ s, (Ok tt, mkConnectedComponent (maxComponent s) v (properties s)).
Definition get_maxComponent : M Z := λ s, (Ok (maxComponent s), s).
Definition get_properties : M (list ComponentProperty) := λ s, (Ok (properties s), s).
Definition set_properties (ps : list ComponentProperty) : M unit :=
  λ s, (Ok tt, mkConnectedComponent (maxComponent s) (nextLabel s) ps).

(** [for( int i = i0; i < i0 + n; i++ ) body], threading the locals [a]. *)
Fixpoint for_ {A} (n : nat) (i : nat) (body : nat → A → M A) (a : A) : M A :=
  match n with
  | O => ret a
  | S n' => a' ← body i a; for_ n' (S i) body a'
  end.

(** Range-based [for( int v : l ) body]. *)
Fixpoint foreach {A B} (l : list B) (body : B → A → M A) (a : A) : M A :=
  match l with
  | [] => ret a
  | v :: l' => a' ← body v a; foreach l' body a'
  end.

(** ** Buffers *)

(** [v[i]] for an [int] index. *)
Definition vec_at (v : list Z) (i : Z) : outcome Z :=
  if i <? 0 then Throw OutOfBounds
  else match v !! Z.to_nat i with
       | Some x => Ok x
       | None => Throw OutOfBounds
       end.

(** [v[i] = x]. *)
Definition vec_set (v : list Z) (i : Z) (x : Z) : outcome (list Z) :=
  if i <? 0 then Throw OutOfBounds
  else if decide (Z.to_nat i < length v)%nat then Ok (<[Z.to_nat i := x]> v)
       else Throw OutOfBounds.

(** [ptr[x]] where [ptr] is an offset into the pixel buffer. *)
Definition px_at (data : list Z) (ptr : nat) (x : nat) : outcome Z :=
  match data !! (ptr + x)%nat with
  | Some v => Ok v
  | None => Throw OutOfBounds
  end.

Definition px_set (data : list Z) (ptr : nat) (x : nat) (v : Z) : outcome (list Z) :=
  if decide (ptr + x < length data)%nat then Ok (<[(ptr + x)%nat := v]> data)
  else Throw OutOfBounds.

(** [result.ptr<int>(y)]. *)
Definition row_ptr (cols : nat) (y : nat) : nat := (y * cols)%nat.

(** ** Standard algorithms used by the source *)

(** [std::sort] on a vector of [int]. *)
Definition std_sort (l : list Z) : list Z := merge_sort Z.le l.

(** [std::unique_copy]: copies the range, keeping the first of every run of
    equal consecutive elements. *)
Fixpoint unique_copy (l : list Z) : list Z :=
  match l with
  | [] => []
  | a :: l' =>
      match l' with
      | [] => [a]
      | b :: _ => if decide (a = b) then unique_copy l' else a :: unique_copy l'
      end
  end.

(** [std::min_element( l.begin(), l.end() ) - l.begin()]: the index of the
    first smallest element ([0], which is [end], for the empty range). *)
Fixpoint min_element_from (best : nat) (bestv : Z) (i : nat) (l : list Z) : nat :=
  match l with
  | [] => best
  | v :: l' =>
      if v <? bestv then min_element_from i v (S i) l'
      else min_element_from best bestv (S i) l'
  end.

Definition min_element (l : list Z) : nat :=
  match l with
  | [] => O
  | v :: l' => min_element_from O v 1%nat l'
  end.

(** ** The disjoint-set helpers *)

(** [while( parent[a] > 0 ) a = parent[a];] *)
Fixpoint chase (fuel : nat) (parent : list Z) (a : Z) : outcome Z :=
  match fuel with
  | O => Throw Diverges
  | S fuel' =>
      p ← vec_at parent a;
      if p >? 0 then chase fuel' parent p else Ok a
  end.

Definition chase_fuel (parent : list Z) : nat := S (length parent).

Definition disjointUnion (a b : Z) (parent : list Z) : outcome (list Z) :=
  a ← chase (chase_fuel parent) parent a;
  b ← chase (chase_fuel parent) parent b;
  if decide (a ≠ b) then
    if a <? b then vec_set parent a b else vec_set parent b a
  else Ok parent.

(** Returns the compact label together with the updated [labels] vector
    (passed by reference in the source); [nextLabel] is the member field. *)
Definition disjointFind (a : Z) (parent : list Z) (labels : list Z) : M (Z * list Z) :=
  a ← lift (chase (chase_fuel parent) parent a);
  l ← lift (vec_at labels a);
  labels ← (if l =? 0 then
              n ← get_nextLabel;
              set_nextLabel (int_wrap (n + 1));;
              lift (vec_set labels a n)
            else ret labels);
  r ← lift (vec_at labels a);
  ret (r, labels).

(** ** Neighbours *)

(** The guarded reads of the source: [c && ptr[i] != 0] evaluates the read
    only when [c] holds. *)
Definition push_guarded (c : bool) (data : list Z) (ptr : nat) (i : nat)
    (neighbors : list Z) : outcome (list Z) :=
  if c then
    v ← px_at data ptr i;
    Ok (if negb (v =? 0) then neighbors ++ [v] else neighbors)
  else Ok neighbors.

Definition getNeighbors (data : list Z) (curr_ptr : nat) (prev_ptr : option nat)
    (x y cols : nat) : outcome (list Z) :=
  let neighbors : list Z := [] in
  neighbors ←
    match prev_ptr with
    | Some prev_ptr =>
        neighbors ← push_guarded true data prev_ptr x neighbors;
        neighbors ← push_guarded (Z.of_nat x >? 0) data prev_ptr (x - 1) neighbors;
        push_guarded (Z.of_nat x <? Z.of_nat cols - 1) data prev_ptr (x + 1) neighbors
    | None => Ok neighbors
    end;
  neighbors ← push_guarded (Z.of_nat x >? 0) data curr_ptr (x - 1) neighbors;
  Ok (match neighbors with
      | [] => []
      | _ => unique_copy (std_sort neighbors)
      end).

(** ** First pass: provisional labels *)

(** The body of the inner loop.  The locals that change are the pixel buffer
    of [result] and the vector [linked]. *)
Definition pass1_pixel (cols : nat) (curr_ptr : nat) (prev_ptr : option nat)
    (y x : nat) (st : list Z * list Z) : M (list Z * list Z) :=
  let '(data, linked) := st in
  v ← lift (px_at data curr_ptr x);
  if negb (v =? 0) then
    neighbors ← lift (getNeighbors data curr_ptr prev_ptr x y cols);
    if decide (neighbors = []) then
      n ← get_nextLabel;
      data ← lift (px_set data curr_ptr x n);
      set_nextLabel (int_wrap (n + 1));;
      n ← get_nextLabel;
      mc ← get_maxComponent;
      if n >=? mc then throw LabelCapacityExceeded
      else mret (data, linked)
    else
      let min_index := min_element neighbors in
      m ← lift (vec_at neighbors (Z.of_nat min_index));
      data ← lift (px_set data curr_ptr x m);
      linked ← foreach neighbors
                 (λ neighbor linked,
                    a ← lift (px_at data curr_ptr x);
                    lift (disjointUnion a neighbor linked))
                 linked;
      mret (data, linked)
  else mret st.

(** The body of the outer loop; the third local is [prev_ptr]. *)
Definition pass1_row (cols : nat) (y : nat) (st : list Z * list Z * option nat)
    : M (list Z * list Z * option nat) :=
  let '(data, linked, prev_ptr) := st in
  let curr_ptr := row_ptr cols y in
  st' ← for_ cols 0 (pass1_pixel cols curr_ptr prev_ptr y) (data, linked);
  mret (st'.1, st'.2, Some curr_ptr).

Definition pass1 (rows cols : nat) (data linked : list Z) : M (list Z * list Z) :=
  st ← for_ rows 0 (pass1_row cols) (data, linked, None);
  mret (st.1.1, st.1.2).

(** ** Second pass: resolution and compaction *)

Definition pass2_pixel (linked : list Z) (curr_ptr : nat) (x : nat)
    (st : list Z * list Z * list Z) : M (list Z * list Z * list Z) :=
  let '(data, labels_set, temp) := st in
  v ← lift (px_at data curr_ptr x);
  if negb (v =? 0) then
    r ← disjointFind v linked labels_set;
    data ← lift (px_set data curr_ptr x r.1);
    v' ← lift (px_at data curr_ptr x);
    mret (data, r.2, temp ++ [v'])
  else mret st.

Definition pass2_row (cols : nat) (linked : list Z) (y : nat)
    (st : list Z * list Z * list Z) : M (list Z * list Z * list Z) :=
  let curr_ptr := row_ptr cols y in
  for_ cols 0 (pass2_pixel linked curr_ptr) st.

Definition pass2 (rows cols : nat) (linked : list Z) (data labels_set : list Z)
    : M (list Z * list Z * list Z) :=
  for_ rows 0 (pass2_row cols linked) (data, labels_set, []).

(** ** Image moments (external collaborator) *)

(** Modelled from the spec: [cv::Moments] and [cv::moments] belong to the
    image library, not to this repository (spec section 6).  The record
    holds the raw moments up to order two and the central and normalized
    central moments of order two. *)
Record Moments := mkMoments {
  m00 : F64.t; m10 : F64.t; m01 : F64.t;
  m20 : F64.t; m11 : F64.t; m02 : F64.t;
  mu20 : F64.t; mu11 : F64.t; mu02 : F64.t;
  nu20 : F64.t; nu11 : F64.t; nu02 : F64.t
}.

(** Modelled from the spec: the raw moment [m_pq] is the sum of
    [x^p * y^q * I(x,y)] over the pixels ([x] the column, [y] the row). *)
Definition raw_moment (m : Mat) (p q : nat) : Z :=
  foldr Z.add 0
    (y ← seq 0 (mat_rows m);
     x ← seq 0 (mat_cols m);
     [Z.of_nat x ^ Z.of_nat p * Z.of_nat y ^ Z.of_nat q
      * default 0 (mat_data m !! (row_ptr (mat_cols m) y + x)%nat)]).

(** Modelled from the spec: [cv::moments( blob )].  The raw moments are
    accumulated exactly and then held in [double]s; the centroid, the central
    moments and the normalized central moments are derived from them in
    [double] arithmetic, the centroid being taken as the origin when the
    zeroth moment is not above [DBL_EPSILON]. *)
Definition cv_moments (blob : Mat) : Moments :=
  let r p q := F64.of_Z (raw_moment blob p q) in
  let has_mass := F64.ltb F64.epsilon (F64.abs (r 0 0)%nat) in
  let inv_m00 := if has_mass then F64.div (F64.of_Z 1) (r 0 0)%nat else F64.of_Z 0 in
  let cx := if has_mass then F64.mul (r 1 0)%nat inv_m00 else F64.of_Z 0 in
  let cy := if has_mass then F64.mul (r 0 1)%nat inv_m00 else F64.of_Z 0 in
  let c20 := F64.sub (r 2 0)%nat (F64.mul (r 1 0)%nat cx) in
  let c11 := F64.sub (r 1 1)%nat (F64.mul (r 1 0)%nat cy) in
  let c02 := F64.sub (r 0 2)%nat (F64.mul (r 0 1)%nat cy) in
  let s2 := F64.mul inv_m00 inv_m00 in
  mkMoments (r 0 0)%nat (r 1 0)%nat (r 0 1)%nat (r 2 0)%nat (r 1 1)%nat (r 0 2)%nat
            c20 c11 c02
            (F64.mul c20 s2) (F64.mul c11 s2) (F64.mul c02 s2).

(** [result == v]: the 8-bit mask with 255 where the element equals [v]. *)
Definition mat_eq_scalar (m : Mat) (v : Z) : Mat :=
  mkMat CV_8UC1 (mat_rows m) (mat_cols m)
        ((λ e, if decide (e = v) then 255 else 0) <$> mat_data m).

Definition countNonZero (m : Mat) : Z :=
  Z.of_nat (length (filter (λ e, e ≠ 0) (mat_data m))).

(** ** Blob properties *)

Definition eig_val_1 (moment : Moments) : F64.t :=
  let left_comp := F64.div (F64.add (nu20 moment) (nu02 moment)) (F64.of_Z 2) in
  let right_comp :=
    F64.div
      (F64.sqrt
         (F64.add
            (F64.mul (F64.mul (F64.of_Z 4) (nu11 moment)) (nu11 moment))
            (F64.mul (F64.sub (nu20 moment) (nu02 moment))
                     (F64.sub (nu20 moment) (nu02 moment)))))
      (F64.of_Z 2) in
  F64.add left_comp right_comp.

Definition eig_val_2 (moment : Moments) : F64.t :=
  let left_comp := F64.div (F64.add (nu20 moment) (nu02 moment)) (F64.of_Z 2) in
  let right_comp :=
    F64.div
      (F64.sqrt
         (F64.add
            (F64.mul (F64.mul (F64.of_Z 4) (nu11 moment)) (nu11 moment))
            (F64.mul (F64.sub (nu20 moment) (nu02 moment))
                     (F64.sub (nu20 moment) (nu02 moment)))))
      (F64.of_Z 2) in
  F64.sub left_comp right_comp.

Definition calculateBlobEccentricity (moment : Moments) : F32.t :=
  F32.sqrt
    (F32.of_double
       (F64.sub (F64.of_Z 1) (F64.div (eig_val_2 moment) (eig_val_1 moment)))).

Definition calculateBlobCentroid (moment : Moments) : Point2f :=
  mkPoint2f (F32.of_double (F64.div (m10 moment) (m00 moment)))
            (F32.of_double (F64.div (m01 moment) (m00 moment))).

(** A value-initialised record, as [std::vector::resize] creates them. *)
Definition ComponentProperty_zero : ComponentProperty :=
  mkComponentProperty 0 0 (S754_zero false)
                      (mkPoint2f (S754_zero false) (S754_zero false)).

(** [properties[i].field = ...]. *)
Definition update_property (i : nat) (f : ComponentProperty → ComponentProperty)
    : M unit :=
  ps ← get_properties;
  match ps !! i with
  | Some p => set_properties (<[i := f p]> ps)
  | None => throw OutOfBounds
  end.

Definition property_step (result : Mat) (labels : list Z) (i : nat) (_ : unit)
    : M unit :=
  l ← lift (vec_at labels (Z.of_nat i));
  let blob := mat_eq_scalar result l in
  let moment := cv_moments blob in
  l ← lift (vec_at labels (Z.of_nat i));
  update_property i (λ p, mkComponentProperty l (area p) (eccentricity p) (centroid p));;
  update_property i (λ p, mkComponentProperty (labelID p) (countNonZero blob)
                            (eccentricity p) (centroid p));;
  update_property i (λ p, mkComponentProperty (labelID p) (area p)
                            (calculateBlobEccentricity moment) (centroid p));;
  update_property i (λ p, mkComponentProperty (labelID p) (area p)
                            (eccentricity p) (calculateBlobCentroid moment)).

(** ** [ConnectedComponent::apply] *)

(** [std::vector<int> v( n )] for an [int] n: zero-filled; a negative [n]
    converts to a size beyond [max_size()]. *)
Definition vector_new (n : Z) : M (list Z) :=
  if n <? 0 then throw LengthError else mret (replicate (Z.to_nat n) 0).

Definition apply (image : Mat) : M Mat :=
  if decide (mat_type image = CV_8UC1) then
    let result := convertTo image CV_32SC1 in
    set_nextLabel 1;;
    mc ← get_maxComponent;
    linked ← vector_new mc;
    st1 ← pass1 (mat_rows result) (mat_cols result) (mat_data result) linked;
    set_nextLabel 1;;
    mc ← get_maxComponent;
    labels_set ← vector_new mc;
    st2 ← pass2 (mat_rows result) (mat_cols result) st1.2 st1.1 labels_set;
    let result := mkMat CV_32SC1 (mat_rows result) (mat_cols result) st2.1.1 in
    let temp := st2.2 in
    let labels := if decide (temp = []) then [] else unique_copy (std_sort temp) in
    ps ← get_properties;
    set_properties (resize (length labels) ComponentProperty_zero ps);;
    for_ (length labels) 0 (property_step result labels) tt;;
    mret result
  else throw PreconditionViolation.

(** [new ConnectedComponent( max_component )]. *)
Definition ConnectedComponent_new (max_component : Z) : ConnectedComponent :=
  mkConnectedComponent max_component 0 [].

Definition getComponentsCount : M Z :=
  ps ← get_properties; mret (Z.of_nat (length ps)).

Definition getComponentsProperties : M (list ComponentProperty) := get_properties.


(** * Reasoning about member functions *)

(** [wp m s Q E]: running [m] from the object state [s] either returns a
    value satisfying [Q] or throws an error satisfying [E]. *)
Definition wp {A} (m : M A) (s : ConnectedComponent)
    (Q : A → ConnectedComponent → Prop)
    (E : error → ConnectedComponent → Prop) : Prop :=
  match m s with
  | (Ok a, s') => Q a s'
  | (Throw e, s') => E e s'
  end.

Lemma wp_bind {A B} (m : M A) (f : A → M B) s Q E :
  wp m s (λ a s', wp (f a) s' Q E) E → wp (m ≫= f) s Q E.
Proof.
  unfold wp, mbind, M_bind, bind. destruct (m s) as [[a|e] s']; auto.
Qed.

Lemma wp_ret {A} (a : A) s (Q : A → ConnectedComponent → Prop) E :
  Q a s → wp (mret a) s Q E.
Proof. auto. Qed.

Lemma wp_throw {A} e s (Q : A → ConnectedComponent → Prop)
    (E : error → ConnectedComponent → Prop) :
  E e s → wp (throw e) s Q E.
Proof. auto. Qed.

Lemma wp_lift {A} (o : outcome A) s (Q : A → ConnectedComponent → Prop)
    (E : error → ConnectedComponent → Prop) :
  match o with Ok a => Q a s | Throw e => E e s end → wp (lift o) s Q E.
Proof. unfold wp, lift. destruct o; auto. Qed.

Lemma wp_mono {A} (m : M A) s (Q Q' : A → ConnectedComponent → Prop)
    (E E' : error → ConnectedComponent → Prop) :
  wp m s Q E → (∀ a s', Q a s' → Q' a s') → (∀ e s', E e s' → E' e s') →
  wp m s Q' E'.
Proof. unfold wp. destruct (m s) as [[a|e] s']; auto. Qed.

Lemma wp_ok {A} (m : M A) s Q E a s' : wp m s Q E → m s = (Ok a, s') → Q a s'.
Proof. unfold wp. intros H Hm. by rewrite Hm in H. Qed.

Lemma wp_err {A} (m : M A) s Q E e s' : wp m s Q E → m s = (Throw e, s') → E e s'.
Proof. unfold wp. intros H Hm. by rewrite Hm in H. Qed.

(** The invariant rule for counted loops. *)
Lemma wp_for {A} (Inv : nat → A → ConnectedComponent → Prop) E
    (body : nat → A → M A) n : ∀ i a s,
  Inv i a s →
  (∀ j b t, (i ≤ j < i + n)%nat → Inv j b t → wp (body j b) t (Inv (S j)) E) →
  wp (for_ n i body a) s (Inv (i + n)%nat) E.
Proof.
  induction n as [|n IH]; intros i a s Hi Hstep; simpl.
  - apply wp_ret. by replace (i + 0)%nat with i by lia.
  - apply wp_bind. eapply wp_mono; [apply (Hstep i); [lia|done] | | done].
    intros b t Hb. simpl. replace (i + S n)%nat with (S i + n)%nat by lia.
    apply IH; [done|]. intros j c u Hj. apply Hstep. lia.
Qed.

(** The invariant rule for range-based loops: the invariant is indexed by the
    elements already visited. *)
Lemma wp_foreach {A B} (Inv : list B → A → ConnectedComponent → Prop) E
    (body : B → A → M A) l : ∀ seen a s,
  Inv seen a s →
  (∀ pre v b t, (∃ post, seen ++ l = pre ++ v :: post) → v ∈ l → Inv pre b t →
     wp (body v b) t (Inv (pre ++ [v])) E) →
  wp (foreach l body a) s (Inv (seen ++ l)) E.
Proof.
  induction l as [|v l IH]; intros seen a s Hi Hstep; simpl.
  - apply wp_ret. by rewrite app_nil_r.
  - apply wp_bind. eapply wp_mono; [apply (Hstep seen v)| |done].
    + by exists l.
    + left.
    + done.
    + intros b t Hb. simpl. replace (seen ++ v :: l) with ((seen ++ [v]) ++ l)
        by by rewrite <-app_assoc.
      apply IH; [done|]. intros pre w c u [post Hpost] Hw. apply Hstep.
      * exists post. by rewrite <-Hpost, <-app_assoc.
      * by right.
Qed.

(** * The standard algorithms *)

Lemma std_sort_perm l : std_sort l ≡ₚ l.
Proof. apply merge_sort_Permutation. Qed.

Lemma std_sort_sorted l : StronglySorted Z.le (std_sort l).
Proof. apply StronglySorted_merge_sort; apply _. Qed.

Lemma elem_of_std_sort l v : v ∈ std_sort l ↔ v ∈ l.
Proof. by rewrite std_sort_perm. Qed.

Lemma unique_copy_cons2 a b l :
  unique_copy (a :: b :: l)
  = if decide (a = b) then unique_copy (b :: l) else a :: unique_copy (b :: l).
Proof. done. Qed.

Lemma elem_of_unique_copy l v : v ∈ unique_copy l ↔ v ∈ l.
Proof.
  induction l as [|a [|b l] IH]; [done|done|].
  rewrite unique_copy_cons2.
  destruct (decide (a = b)) as [->|Hne].
  - rewrite IH, !elem_of_cons. tauto.
  - rewrite elem_of_cons, IH, !elem_of_cons. tauto.
Qed.

Lemma unique_copy_NoDup l : StronglySorted Z.le l → NoDup (unique_copy l).
Proof.
  induction l as [|a [|b l] IH]; intros Hs.
  - constructor.
  - apply NoDup_singleton.
  - rewrite unique_copy_cons2.
    inversion Hs as [|? ? Hs' Ha]; subst.
    destruct (decide (a = b)) as [->|Hne]; [by apply IH|].
    constructor; [|by apply IH].
    rewrite elem_of_unique_copy. intros Hin.
    inversion Hs' as [|? ? _ Hb]; subst.
    apply Forall_cons_1 in Ha as [Hab _].
    apply elem_of_cons in Hin as [->|Hin]; [done|].
    rewrite Forall_forall in Hb. specialize (Hb _ Hin). lia.
Qed.

Lemma unique_copy_sorted l :
  StronglySorted Z.le l → StronglySorted Z.le (unique_copy l).
Proof.
  induction l as [|a [|b l] IH]; intros Hs; [done|done|].
  rewrite unique_copy_cons2.
  inversion Hs as [|? ? Hs' Ha]; subst.
  destruct (decide (a = b)) as [->|Hne]; [by apply IH|].
  constructor; [by apply IH|].
  apply Forall_forall. intros v Hv. rewrite elem_of_unique_copy in Hv.
  rewrite Forall_forall in Ha. by apply Ha.
Qed.

Lemma min_element_from_spec l : ∀ pre best bestv,
  pre !! best = Some bestv →
  (∀ v, v ∈ pre → bestv <= v) →
  ∃ m, (pre ++ l) !! min_element_from best bestv (length pre) l = Some m
       ∧ m ∈ pre ++ l ∧ ∀ v, v ∈ pre ++ l → m <= v.
Proof.
  induction l as [|w l IH]; intros pre best bestv Hb Hmin; simpl.
  - exists bestv. rewrite app_nil_r. split; [done|]. split; [|done].
    by eapply list_elem_of_lookup_2.
  - replace (pre ++ w :: l) with ((pre ++ [w]) ++ l) by by rewrite <-app_assoc.
    replace (S (length pre)) with (length (pre ++ [w]))
      by (rewrite length_app; simpl; lia).
    destruct (w <? bestv) eqn:Hlt.
    + apply Z.ltb_lt in Hlt. apply IH.
      * rewrite lookup_app_r by lia. by replace (length pre - length pre)%nat with O by lia.
      * intros v [Hv| ->%list_elem_of_singleton]%elem_of_app; [|lia].
        specialize (Hmin _ Hv). lia.
    + apply Z.ltb_ge in Hlt. apply IH.
      * rewrite lookup_app_l; [done|]. by eapply lookup_lt_Some.
      * intros v [Hv| ->%list_elem_of_singleton]%elem_of_app; [by apply Hmin|done].
Qed.

Lemma min_element_spec l :
  l ≠ [] →
  ∃ m, l !! min_element l = Some m ∧ m ∈ l ∧ ∀ v, v ∈ l → m <= v.
Proof.
  destruct l as [|w l]; [done|]. intros _.
  apply (min_element_from_spec l [w] O w); [done|].
  by intros v ->%list_elem_of_singleton.
Qed.

(** * Buffers *)

Lemma vec_at_Ok v i x : vec_at v i = Ok x ↔ 0 <= i ∧ v !! Z.to_nat i = Some x.
Proof.
  unfold vec_at. destruct (Z.ltb_spec i 0).
  - split; [done|lia].
  - destruct (v !! Z.to_nat i) eqn:E; split; try done.
    + intros [= ->]. done.
    + intros [_ [= ->]]. done.
    + by intros [_ ?].
Qed.

Lemma vec_at_lt v i x : vec_at v i = Ok x → 0 <= i < Z.of_nat (length v).
Proof.
  intros [Hi Hl%lookup_lt_Some]%vec_at_Ok. lia.
Qed.

Lemma vec_at_is_Ok v i :
  0 <= i < Z.of_nat (length v) → ∃ x, vec_at v i = Ok x.
Proof.
  intros Hi. destruct (lookup_lt_is_Some_2 v (Z.to_nat i)) as [x Hx]; [lia|].
  exists x. apply vec_at_Ok. split; [lia|done].
Qed.

Lemma vec_set_Ok v i x v' :
  vec_set v i x = Ok v' ↔
  0 <= i < Z.of_nat (length v) ∧ v' = <[Z.to_nat i := x]> v.
Proof.
  unfold vec_set. destruct (Z.ltb_spec i 0); [split; [done|lia]|].
  destruct (decide _); split; try done.
  - intros [= <-]. split; [lia|done].
  - intros [_ ->]. done.
  - intros [? _]. lia.
Qed.

Lemma vec_at_insert v i x j :
  0 <= i < Z.of_nat (length v) →
  vec_at (<[Z.to_nat i := x]> v) j = if decide (j = i) then Ok x else vec_at v j.
Proof.
  intros Hi. unfold vec_at. destruct (decide (j = i)) as [->|Hne].
  - destruct (Z.ltb_spec i 0); [lia|].
    rewrite list_lookup_insert_eq by lia. done.
  - destruct (Z.ltb_spec j 0); [done|].
    rewrite list_lookup_insert_ne by lia. done.
Qed.

Lemma vec_at_replicate n i x :
  vec_at (replicate n 0) i = Ok x → x = 0.
Proof.
  intros [_ H]%vec_at_Ok. apply lookup_replicate in H as [-> _]. done.
Qed.

Lemma px_at_Ok data ptr x v :
  px_at data ptr x = Ok v ↔ data !! (ptr + x)%nat = Some v.
Proof.
  unfold px_at. destruct (data !! _); split; congruence.
Qed.

Lemma px_set_Ok data ptr x v data' :
  px_set data ptr x v = Ok data' ↔
  (ptr + x < length data)%nat ∧ data' = <[(ptr + x)%nat := v]> data.
Proof.
  unfold px_set. destruct (decide _); split; try done.
  - intros [= <-]. done.
  - intros [_ ->]. done.
  - intros [? _]. lia.
Qed.

(** * The disjoint-set forest *)

(** [reaches parent a r]: the loop [while( parent[a] > 0 ) a = parent[a]]
    started at [a] stops at [r]. *)
Inductive reaches (parent : list Z) : Z → Z → Prop :=
| reaches_root a p :
    vec_at parent a = Ok p → p <= 0 → reaches parent a a
| reaches_step a p r :
    vec_at parent a = Ok p → 0 < p → reaches parent p r → reaches parent a r.

(** Two labels are equivalent when their chases stop at the same root. *)
Definition same_class (parent : list Z) (a b : Z) : Prop :=
  ∃ r, reaches parent a r ∧ reaches parent b r.

(** The shape of the parent vector while [n] is the next unused label: an
    entry is zero or points to a larger label below [n]. *)
Definition forest (n : Z) (parent : list Z) : Prop :=
  ∀ a p, vec_at parent a = Ok p → p = 0 ∨ (a < p ∧ p < n).

Lemma reaches_fun parent a r r' :
  reaches parent a r → reaches parent a r' → r = r'.
Proof.
  intros H. revert r'. induction H as [a p Hp Hle|a p r Hp Hlt _ IH]; intros r' H'.
  - inversion H' as [|? p' ? Hp' Hlt']; subst; [done|]. rewrite Hp in Hp'.
    injection Hp' as <-. lia.
  - inversion H' as [? p' Hp' Hle'|? p' ? Hp' Hlt' Hr']; subst.
    + rewrite Hp in Hp'. injection Hp' as <-. lia.
    + rewrite Hp in Hp'. injection Hp' as <-. by apply IH.
Qed.

Lemma reaches_is_root parent a r :
  reaches parent a r → ∃ p, vec_at parent r = Ok p ∧ p <= 0.
Proof. induction 1; eauto. Qed.

Lemma reaches_root_eq parent r p r' :
  vec_at parent r = Ok p → p <= 0 → reaches parent r r' → r' = r.
Proof.
  intros Hp Hle H. symmetry. eapply reaches_fun; [|done]. by eapply reaches_root.
Qed.

Lemma chase_reaches fuel : ∀ parent a r,
  chase fuel parent a = Ok r → reaches parent a r.
Proof.
  induction fuel as [|fuel IH]; intros parent a r; simpl; [done|].
  unfold mbind, outcome_bind, obind.
  destruct (vec_at parent a) as [p|] eqn:Hp; [|done].
  destruct (Z.gtb_spec p 0) as [Hlt|Hle].
  - intros H. eapply reaches_step; [done|lia|]. by apply IH.
  - intros [= <-]. by eapply reaches_root.
Qed.

(** Enough fuel gives the root; the fuel needed is the length of the path. *)
Lemma reaches_chase parent a r :
  reaches parent a r →
  ∃ n, ∀ fuel, (n ≤ fuel)%nat → chase fuel parent a = Ok r.
Proof.
  induction 1 as [a p Hp Hle|a p r Hp Hlt _ [n IH]].
  - exists 1%nat. intros [|fuel] Hf; [lia|]. simpl.
    unfold mbind, outcome_bind, obind. rewrite Hp.
    destruct (Z.gtb_spec p 0); [lia|done].
  - exists (S n). intros [|fuel] Hf; [lia|]. simpl.
    unfold mbind, outcome_bind, obind. rewrite Hp.
    destruct (Z.gtb_spec p 0); [|lia]. apply IH. lia.
Qed.

Lemma forest_mono n n' parent : forest n parent → n <= n' → forest n' parent.
Proof. intros H Hle a p Hp. destruct (H a p Hp); [by left|right; lia]. Qed.

Lemma forest_replicate n k : forest n (replicate k 0).
Proof. intros a p Hp. left. by eapply vec_at_replicate. Qed.

Lemma forest_root_ge n parent a :
  forest n parent → n <= a → 0 <= a < Z.of_nat (length parent) →
  vec_at parent a = Ok 0.
Proof.
  intros Hf Hn Ha. destruct (vec_at_is_Ok parent a) as [p Hp]; [lia|].
  destruct (Hf a p Hp) as [->|?]; [done|lia].
Qed.

(** In a forest every chase terminates, within [n - a] steps, at a root that
    is at least the starting label. *)
Lemma chase_total n parent fuel : ∀ a,
  forest n parent → n <= Z.of_nat (length parent) →
  0 <= a < Z.of_nat (length parent) →
  n - a <= Z.of_nat fuel → (1 ≤ fuel)%nat →
  ∃ r, chase fuel parent a = Ok r ∧ a <= r ∧ (r < n ∨ r = a) ∧ reaches parent a r.
Proof.
  induction fuel as [|fuel IH]; intros a Hf Hn Ha Hfuel H1; [lia|].
  simpl. unfold mbind, outcome_bind, obind.
  destruct (vec_at_is_Ok parent a) as [p Hp]; [done|]. rewrite Hp.
  destruct (Hf a p Hp) as [->|[Hap Hpn]].
  - exists a. simpl. split; [done|]. split; [lia|]. split; [by right|].
    by eapply reaches_root.
  - destruct (Z.gtb_spec p 0); [|lia].
    assert (0 <= p < Z.of_nat (length parent)) as Hp' by lia.
    assert (n - p <= Z.of_nat fuel) as Hfuel' by lia.
    assert (1 ≤ fuel)%nat as H1' by lia.
    destruct (IH p Hf Hn Hp' Hfuel' H1') as (r & Hr & Hle & Hlt & Hreach).
    exists r. split; [done|]. split; [lia|]. split; [left; lia|].
    by eapply reaches_step.
Qed.

Lemma chase_fuel_total n parent a :
  forest n parent → n <= Z.of_nat (length parent) →
  0 <= a < Z.of_nat (length parent) →
  ∃ r, chase (chase_fuel parent) parent a = Ok r
       ∧ a <= r ∧ (r < n ∨ r = a) ∧ reaches parent a r.
Proof.
  intros Hf Hn Ha. apply (chase_total n); try done; unfold chase_fuel; lia.
Qed.

Lemma forest_reaches n parent a :
  forest n parent → n <= Z.of_nat (length parent) →
  0 <= a < Z.of_nat (length parent) →
  ∃ r, reaches parent a r ∧ a <= r ∧ (r < n ∨ r = a).
Proof.
  intros Hf Hn Ha.
  destruct (chase_fuel_total n parent a) as (r & _ & ? & ? & ?); eauto.
Qed.

Lemma reaches_bound n parent a r :
  forest n parent → reaches parent a r → a <= r ∧ (r < n ∨ r = a).
Proof.
  intros Hf. induction 1 as [a p Hp Hle|a p r Hp Hlt _ IH]; [lia|].
  destruct (Hf a p Hp) as [->|[Hap Hpn]]; lia.
Qed.

Lemma same_class_sym parent a b : same_class parent a b → same_class parent b a.
Proof. intros (r & ? & ?). by exists r. Qed.

Lemma same_class_trans parent a b c :
  same_class parent a b → same_class parent b c → same_class parent a c.
Proof.
  intros (r & Ha & Hb) (r' & Hb' & Hc).
  rewrite <-(reaches_fun _ _ _ _ Hb Hb') in Hc. by exists r.
Qed.

(** ** Union *)

(** Linking a root [ra] below another root [rb] sends the chases that stopped
    at [ra] on to [rb] and leaves the others alone. *)
Lemma reaches_link parent ra rb pa pb c r' :
  vec_at parent ra = Ok pa → pa <= 0 →
  vec_at parent rb = Ok pb → pb <= 0 →
  ra ≠ rb → 0 < rb →
  reaches (<[Z.to_nat ra := rb]> parent) c r' ↔
  ∃ r, reaches parent c r ∧ r' = if decide (r = ra) then rb else r.
Proof.
  intros Hpa Hla Hpb Hlb Hne Hrb.
  pose proof (vec_at_lt _ _ _ Hpa) as Hra.
  assert (reaches (<[Z.to_nat ra := rb]> parent) rb rb) as Hrb'.
  { eapply reaches_root; [|exact Hlb]. rewrite vec_at_insert by done.
    destruct (decide (rb = ra)); [congruence|done]. }
  split.
  - induction 1 as [a p Hp Hle|a p r Hp Hlt Hr IH].
    + rewrite vec_at_insert in Hp by done.
      destruct (decide (a = ra)) as [->|Hna]; [injection Hp as <-; lia|].
      exists a. split; [by eapply reaches_root|].
      destruct (decide (a = ra)); [done|done].
    + rewrite vec_at_insert in Hp by done.
      destruct (decide (a = ra)) as [->|Hna].
      * injection Hp as <-. exists ra. split; [by eapply reaches_root|].
        destruct (decide (ra = ra)); [|done].
        eapply reaches_fun; [exact Hr|exact Hrb'].
      * destruct IH as (r0 & Hr0 & ->). exists r0. split; [|done].
        by eapply reaches_step.
  - intros (r & Hr & ->).
    induction Hr as [a p Hp Hle|a p r Hp Hlt Hr IH].
    + destruct (decide (a = ra)) as [->|Hna].
      * eapply reaches_step; [|exact Hrb|exact Hrb'].
        rewrite vec_at_insert by done. destruct (decide (ra = ra)); done.
      * eapply reaches_root; [|exact Hle]. rewrite vec_at_insert by done.
        destruct (decide (a = ra)); done.
    + eapply reaches_step; [|exact Hlt|exact IH].
      rewrite vec_at_insert by done.
      destruct (decide (a = ra)) as [->|Hna]; [|done].
      rewrite Hpa in Hp. injection Hp as <-. lia.
Qed.

Lemma forest_link n parent ra rb :
  forest n parent → 0 <= ra < Z.of_nat (length parent) → ra < rb → rb < n →
  forest n (<[Z.to_nat ra := rb]> parent).
Proof.
  intros Hf Hra Hlt Hn a p Hp. rewrite vec_at_insert in Hp by done.
  destruct (decide (a = ra)) as [->|Hna]; [|by apply Hf].
  injection Hp as <-. right. lia.
Qed.

(** What [disjointUnion] does in a forest: both chases succeed, and when the
    two roots differ the smaller root is linked below the larger one. *)
Lemma disjointUnion_spec n parent a b :
  forest n parent → n <= Z.of_nat (length parent) →
  1 <= a < n → 1 <= b < n →
  ∃ ra rb,
    reaches parent a ra ∧ reaches parent b rb ∧ a <= ra < n ∧ b <= rb < n ∧
    disjointUnion a b parent
    = Ok (if decide (ra = rb) then parent
          else <[Z.to_nat (Z.min ra rb) := Z.max ra rb]> parent).
Proof.
  intros Hf Hn Ha Hb.
  destruct (chase_fuel_total n parent a Hf Hn) as (ra & Hca & Hra & Hra' & Hreach_a); [lia|].
  destruct (chase_fuel_total n parent b Hf Hn) as (rb & Hcb & Hrb & Hrb' & Hreach_b); [lia|].
  exists ra, rb. repeat split; try done; try lia.
  unfold disjointUnion, mbind, outcome_bind, obind. rewrite Hca, Hcb.
  destruct (decide (ra ≠ rb)) as [Hne|Heq].
  - destruct (decide (ra = rb)) as [|_]; [done|].
    destruct (Z.ltb_spec ra rb).
    + rewrite Z.min_l, Z.max_r by lia. apply vec_set_Ok. split; [lia|done].
    + rewrite Z.min_r, Z.max_l by lia. apply vec_set_Ok. split; [lia|done].
  - destruct (decide (ra = rb)) as [|Hne]; [done|]. by destruct Heq.
Qed.

Section union_classes.
Context (n : Z) (parent parent' : list Z) (a b : Z).
Hypothesis Hforest : forest n parent.
Hypothesis Hlen : n <= Z.of_nat (length parent).
Hypothesis Ha : 1 <= a < n.
Hypothesis Hb : 1 <= b < n.
Hypothesis Hunion : disjointUnion a b parent = Ok parent'.

Lemma disjointUnion_cases :
    ∃ ra rb, reaches parent a ra ∧ reaches parent b rb ∧
      a <= ra < n ∧ b <= rb < n ∧
      ((ra = rb ∧ parent' = parent) ∨
       (ra ≠ rb ∧ ∃ lo hi pl ph,
          ((lo = ra ∧ hi = rb) ∨ (lo = rb ∧ hi = ra)) ∧ lo < hi ∧
          vec_at parent lo = Ok pl ∧ pl <= 0 ∧
          vec_at parent hi = Ok ph ∧ ph <= 0 ∧
          parent' = <[Z.to_nat lo := hi]> parent)).
  Proof.
    destruct (disjointUnion_spec n parent a b) as (ra & rb & Hra & Hrb & Hba & Hbb & Heq);
      try done.
    rewrite Hunion in Heq. injection Heq as ->.
    exists ra, rb. repeat split; try done; try lia.
    destruct (decide (ra = rb)) as [->|Hne]; [by left|right].
    split; [done|].
    destruct (reaches_is_root _ _ _ Hra) as (pa & Hpa & Hla).
    destruct (reaches_is_root _ _ _ Hrb) as (pb & Hpb & Hlb).
    destruct (Z.lt_ge_cases ra rb).
    - exists ra, rb, pa, pb. rewrite Z.min_l, Z.max_r by lia.
      repeat split; try done; by left.
    - exists rb, ra, pb, pa. rewrite Z.min_r, Z.max_l by lia.
      repeat split; try done; try lia; by right.
  Qed.

Lemma disjointUnion_length : length parent' = length parent.
  Proof.
    destruct disjointUnion_cases as (ra & rb & _ & _ & _ & _ & [[_ ->]|[_ H]]); [done|].
    destruct H as (lo & hi & pl & ph & _ & _ & _ & _ & _ & _ & ->).
    apply length_insert.
  Qed.

Lemma disjointUnion_forest : forest n parent'.
  Proof.
    destruct disjointUnion_cases
      as (ra & rb & _ & _ & Hra & Hrb & [[_ ->]|[_ H]]); [done|].
    destruct H as (lo & hi & pl & ph & Hcase & Hlt & Hpl & _ & _ & _ & ->).
    apply forest_link; try done.
    - by eapply vec_at_lt.
    - destruct Hcase as [[-> ->]|[-> ->]]; lia.
  Qed.

Lemma disjointUnion_keeps c d : same_class parent c d → same_class parent' c d.
  Proof.
    intros (r & Hc & Hd).
    destruct disjointUnion_cases
      as (ra & rb & _ & _ & Hra & Hrb & [[_ ->]|[_ H]]); [by exists r|].
    destruct H as (lo & hi & pl & ph & Hcase & Hlt & Hpl & Hll & Hph & Hlh & ->).
    assert (0 < hi) by (destruct Hcase as [[-> ->]|[-> ->]]; lia).
    exists (if decide (r = lo) then hi else r).
    split; eapply reaches_link; eauto; lia.
  Qed.

Lemma disjointUnion_joins : same_class parent' a b.
  Proof.
    destruct disjointUnion_cases
      as (ra & rb & Har & Hbr & Hra & Hrb & [[-> ->]|[Hne H]]); [by exists rb|].
    destruct H as (lo & hi & pl & ph & Hcase & Hlt & Hpl & Hll & Hph & Hlh & ->).
    assert (0 < hi) by (destruct Hcase as [[-> ->]|[-> ->]]; lia).
    exists hi. split.
    - eapply reaches_link; [exact Hpl|exact Hll|exact Hph|exact Hlh|lia|done|].
      exists ra. split; [done|].
      destruct Hcase as [[-> ->]|[-> ->]]; destruct (decide _); congruence.
    - eapply reaches_link; [exact Hpl|exact Hll|exact Hph|exact Hlh|lia|done|].
      exists rb. split; [done|].
      destruct Hcase as [[-> ->]|[-> ->]]; destruct (decide _); congruence.
  Qed.

Lemma disjointUnion_only c d :
    same_class parent' c d →
    same_class parent c d
    ∨ (same_class parent c a ∧ same_class parent d b)
    ∨ (same_class parent c b ∧ same_class parent d a).
  Proof.
    intros (r & Hc & Hd).
    destruct disjointUnion_cases
      as (ra & rb & Har & Hbr & Hra & Hrb & [[_ ->]|[Hne H]]); [left; by exists r|].
    destruct H as (lo & hi & pl & ph & Hcase & Hlt & Hpl & Hll & Hph & Hlh & ->).
    assert (0 < hi) by (destruct Hcase as [[-> ->]|[-> ->]]; lia).
    eapply reaches_link in Hc as (rc & Hc & Hrc); [|exact Hpl|exact Hll|exact Hph|exact Hlh|lia|done].
    eapply reaches_link in Hd as (rd & Hd & Hrd); [|exact Hpl|exact Hll|exact Hph|exact Hlh|lia|done].
    destruct (decide (rc = rd)) as [->|Hcd]; [left; by exists rd|right].
    assert ((rc = lo ∧ rd = hi) ∨ (rc = hi ∧ rd = lo)) as Hsw.
    { destruct (decide (rc = lo)), (decide (rd = lo)); subst; try congruence; auto. }
    destruct Hcase as [[-> ->]|[-> ->]], Hsw as [[-> ->]|[-> ->]].
    - left. split; [by exists ra|by exists rb].
    - right. split; [by exists rb|by exists ra].
    - right. split; [by exists rb|by exists ra].
    - left. split; [by exists ra|by exists rb].
  Qed.
End union_classes.

(** * Pixels, 8-adjacency and connected components *)

(** A pixel is (row, column). *)
Definition pixel : Type := nat * nat.

Definition idx (cols : nat) (p : pixel) : nat := (row_ptr cols p.1 + p.2)%nat.

Definition in_image (rows cols : nat) (p : pixel) : Prop :=
  (p.1 < rows)%nat ∧ (p.2 < cols)%nat.

(** The value of the matrix at a pixel. *)
Definition mat_at (m : Mat) (p : pixel) : option Z :=
  mat_data m !! idx (mat_cols m) p.

Definition foreground (img : Mat) (p : pixel) : Prop :=
  in_image (mat_rows img) (mat_cols img) p ∧ ∃ v, mat_at img p = Some v ∧ v ≠ 0.

Definition adj8 (p q : pixel) : Prop :=
  p ≠ q ∧ (p.1 ≤ q.1 + 1 ∧ q.1 ≤ p.1 + 1 ∧ p.2 ≤ q.2 + 1 ∧ q.2 ≤ p.2 + 1)%nat.

(** Two foreground pixels are connected when a chain of 8-adjacent
    foreground pixels joins them; the classes of this relation are the
    maximal 8-connected components. *)
Inductive connected (img : Mat) : pixel → pixel → Prop :=
| connected_refl p : foreground img p → connected img p p
| connected_step p q r :
    foreground img p → foreground img q → adj8 p q → connected img q r →
    connected img p r.

(** The neighbours of a pixel that a raster scan has visited before it:
    up, up-left, up-right and left, inside the image. *)
Definition visited_neighbors (cols : nat) (p : pixel) : list pixel :=
  match p.1 with
  | S y' =>
      [(y', p.2)]
      ++ (if bool_decide (0 < p.2)%nat then [(y', (p.2 - 1)%nat)] else [])
      ++ (if bool_decide (p.2 + 1 < cols)%nat then [(y', (p.2 + 1)%nat)] else [])
  | O => []
  end
  ++ (if bool_decide (0 < p.2)%nat then [(p.1, (p.2 - 1)%nat)] else []).

(** [prev_ptr] when the outer loop is at row [y]. *)
Definition prev_ptr_at (cols : nat) (y : nat) : option nat :=
  match y with
  | O => None
  | S y' => Some (row_ptr cols y')
  end.

Lemma adj8_sym p q : adj8 p q → adj8 q p.
Proof. intros [Hne H]. split; [congruence|lia]. Qed.

Lemma connected_fg_l img p q : connected img p q → foreground img p.
Proof. by destruct 1. Qed.

Lemma connected_fg_r img p q : connected img p q → foreground img q.
Proof. induction 1; auto. Qed.

Lemma connected_trans img p q r :
  connected img p q → connected img q r → connected img p r.
Proof.
  induction 1 as [|p q' q Hp Hq' Hadj _ IH]; [done|].
  intros Hr. eapply connected_step; eauto.
Qed.

Lemma connected_adj img p q :
  foreground img p → foreground img q → adj8 p q → connected img p q.
Proof. intros. eapply connected_step; eauto. by apply connected_refl. Qed.

Lemma connected_sym img p q : connected img p q → connected img q p.
Proof.
  induction 1 as [|p q' q Hp Hq' Hadj _ IH]; [by apply connected_refl|].
  eapply connected_trans; [exact IH|].
  apply connected_adj; [done|done|by apply adj8_sym].
Qed.

Lemma idx_lt rows cols p :
  in_image rows cols p → (idx cols p < rows * cols)%nat.
Proof. destruct p as [y x]. unfold in_image, idx, row_ptr. simpl. nia. Qed.

Lemma idx_inj cols p q :
  (p.2 < cols)%nat → (q.2 < cols)%nat → idx cols p = idx cols q → p = q.
Proof.
  destruct p as [y x], q as [y' x']. unfold idx, row_ptr. simpl. intros Hx Hx' H.
  assert (y = y') by nia. subst. f_equal. lia.
Qed.

Lemma idx_before cols p q :
  (p.2 < cols)%nat → (q.2 < cols)%nat →
  (idx cols q < idx cols p)%nat ↔ (q.1 < p.1 ∨ (q.1 = p.1 ∧ q.2 < p.2))%nat.
Proof.
  destruct p as [y x], q as [y' x']. unfold idx, row_ptr. simpl. intros Hx Hx'.
  split; [|nia]. intros H.
  destruct (decide (y' < y)%nat); [by left|right].
  assert (y' = y) by nia. subst. lia.
Qed.

Lemma visited_neighbors_cases cols y x q :
  q ∈ visited_neighbors cols (y, x) ↔
  (∃ y0, y = S y0 ∧
     (q = (y0, x) ∨ ((0 < x)%nat ∧ q = (y0, (x - 1)%nat))
      ∨ ((x + 1 < cols)%nat ∧ q = (y0, (x + 1)%nat))))
  ∨ ((0 < x)%nat ∧ q = (y, (x - 1)%nat)).
Proof.
  unfold visited_neighbors. cbn [fst snd].
  destruct y as [|y0]; repeat case_bool_decide;
    rewrite ?elem_of_app, ?elem_of_cons, ?elem_of_nil; naive_solver.
Qed.

(** The visited neighbours are the 8-adjacent pixels that precede the pixel
    in raster order. *)
Lemma elem_of_visited_neighbors cols p q :
  (p.2 < cols)%nat →
  q ∈ visited_neighbors cols p ↔
  (q.2 < cols)%nat ∧ adj8 p q ∧ (idx cols q < idx cols p)%nat.
Proof.
  intros Hp. destruct p as [y x], q as [y' x']. cbn [fst snd] in Hp.
  rewrite visited_neighbors_cases. split.
  - intros Hin.
    assert ((y' < y ∨ (y' = y ∧ x' < x)) ∧ x' < cols ∧ adj8 (y, x) (y', x'))%nat
      as (Hord & Hx' & Hadj).
    { unfold adj8. cbn [fst snd].
      destruct Hin as [(y0 & -> & [Hq|[[? Hq]|[? Hq]]])|[? Hq]];
        injection Hq as -> ->; (repeat split; try lia; intros [=]; lia). }
    split; [done|]. split; [done|]. by apply idx_before.
  - intros (Hx' & [Hne Hadj] & Hlt). cbn [fst snd] in *.
    apply idx_before in Hlt; [|done|done]. cbn [fst snd] in Hlt.
    destruct Hlt as [Hlt|[-> Hlt]].
    + left. destruct y as [|y0]; [lia|]. exists y0. split; [done|].
      assert (y' = y0) as -> by lia.
      assert (x' = x ∨ (0 < x ∧ x' = x - 1) ∨ (x + 1 < cols ∧ x' = x + 1))%nat
        as [->|[[? ->]|[? ->]]] by lia; auto.
    + right.
      assert (x' + 1 = x ∨ x' = x)%nat as [|] by lia; [|by subst].
      split; [lia|]. f_equal. lia.
Qed.

Lemma visited_neighbors_in_image rows cols p q :
  in_image rows cols p → q ∈ visited_neighbors cols p → in_image rows cols q.
Proof.
  intros [Hy Hx] Hq. apply elem_of_visited_neighbors in Hq as (Hq & _ & Hlt); [|done].
  split; [|done]. apply idx_before in Hlt; [lia|done|done].
Qed.

(** ** What [getNeighbors] returns *)

Lemma push_guarded_spec c data ptr i acc :
  (c = true → (ptr + i < length data)%nat) →
  ∃ acc', push_guarded c data ptr i acc = Ok acc' ∧
    ∀ v, v ∈ acc' ↔ v ∈ acc ∨ (c = true ∧ v ≠ 0 ∧ data !! (ptr + i)%nat = Some v).
Proof.
  intros Hc. unfold push_guarded. destruct c.
  - destruct (lookup_lt_is_Some_2 data (ptr + i)%nat) as [w Hw]; [by apply Hc|].
    unfold mbind, outcome_bind, obind.
    assert (px_at data ptr i = Ok w) as -> by by apply px_at_Ok.
    eexists. split; [done|]. intros v.
    destruct (Z.eqb_spec w 0) as [->|Hw0]; simpl.
    + split; [by left|]. intros [?|(_ & ? & ?)]; [done|congruence].
    + rewrite elem_of_app, list_elem_of_singleton. split.
      * intros [?| ->]; [by left|by right].
      * intros [?|(_ & _ & ?)]; [by left|right; congruence].
  - eexists. split; [done|]. intros v. split; [by left|].
    by intros [?|(? & _)].
Qed.

Lemma getNeighbors_spec data rows cols y x :
  length data = (rows * cols)%nat → (y < rows)%nat → (x < cols)%nat →
  ∃ ns, getNeighbors data (row_ptr cols y) (prev_ptr_at cols y) x y cols = Ok ns ∧
    (∀ v, v ∈ ns ↔
       v ≠ 0 ∧ ∃ q, q ∈ visited_neighbors cols (y, x) ∧ data !! idx cols q = Some v) ∧
    StronglySorted Z.le ns ∧ NoDup ns.
Proof.
  intros Hlen Hy Hx.
  assert (∃ raw,
    (raw ← match prev_ptr_at cols y with
       | Some prev_ptr =>
           neighbors ← push_guarded true data prev_ptr x [];
           neighbors ← push_guarded (Z.of_nat x >? 0) data prev_ptr (x - 1) neighbors;
           push_guarded (Z.of_nat x <? Z.of_nat cols - 1) data prev_ptr (x + 1) neighbors
       | None => Ok []
       end;
     push_guarded (Z.of_nat x >? 0) data (row_ptr cols y) (x - 1) raw) = Ok raw ∧
    ∀ v, v ∈ raw ↔
      v ≠ 0 ∧ ∃ q, q ∈ visited_neighbors cols (y, x) ∧ data !! idx cols q = Some v)
    as (raw & Hraw & Hmem).
  { setoid_rewrite visited_neighbors_cases. unfold idx. cbn [fst snd].
    assert ((Z.of_nat x >? 0) = bool_decide (0 < x)%nat) as ->.
    { case_bool_decide; destruct (Z.gtb_spec (Z.of_nat x) 0); lia. }
    assert ((Z.of_nat x <? Z.of_nat cols - 1) = bool_decide (x + 1 < cols)%nat) as ->.
    { case_bool_decide; destruct (Z.ltb_spec (Z.of_nat x) (Z.of_nat cols - 1)); lia. }
    destruct y as [|y0]; cbn [prev_ptr_at].
    - destruct (push_guarded_spec (bool_decide (0 < x)%nat) data (row_ptr cols 0)
                  (x - 1) []) as (r & Hr & Hm).
      { intros _. unfold row_ptr. nia. }
      exists r. unfold mbind, outcome_bind, obind. split; [done|].
      intros v. rewrite Hm, elem_of_nil, bool_decide_eq_true. split.
      + intros [[]|(? & Hv & Hd)]. split; [done|].
        exists (O, (x - 1)%nat). split; [by right|done].
      + intros (Hv & q & [(y0 & ? & _)|[? ->]] & Hd); [done|]. right. done.
    - destruct (push_guarded_spec true data (row_ptr cols y0) x [])
        as (r1 & Hr1 & Hm1).
      { intros _. unfold row_ptr. nia. }
      destruct (push_guarded_spec (bool_decide (0 < x)%nat) data (row_ptr cols y0)
                  (x - 1) r1) as (r2 & Hr2 & Hm2).
      { intros _. unfold row_ptr. nia. }
      destruct (push_guarded_spec (bool_decide (x + 1 < cols)%nat) data
                  (row_ptr cols y0) (x + 1) r2) as (r3 & Hr3 & Hm3).
      { intros ?%bool_decide_eq_true_1. unfold row_ptr. nia. }
      destruct (push_guarded_spec (bool_decide (0 < x)%nat) data
                  (row_ptr cols (S y0)) (x - 1) r3) as (r4 & Hr4 & Hm4).
      { intros _. unfold row_ptr. nia. }
      exists r4. unfold mbind, outcome_bind, obind.
      rewrite Hr1. cbn beta iota. rewrite Hr2. cbn beta iota.
      rewrite Hr3. cbn beta iota.
      split; [done|].
      intros v. rewrite Hm4, Hm3, Hm2, Hm1, elem_of_nil, !bool_decide_eq_true.
      split.
      + intros [[[[[]|(_ & Hv & Hd)]|(Hc & Hv & Hd)]|(Hc & Hv & Hd)]|(Hc & Hv & Hd)];
          (split; [done|]).
        * exists (y0, x). split; [|done]. left. exists y0. auto.
        * exists (y0, (x - 1)%nat). split; [|done]. left. exists y0. auto.
        * exists (y0, (x + 1)%nat). split; [|done]. left. exists y0. auto.
        * exists (S y0, (x - 1)%nat). split; [|done]. right. auto.
      + intros (Hv & q & Hin & Hd).
        destruct Hin as [(y1 & [= <-] & [->|[[? ->]|[? ->]]])|[? ->]];
          cbn [fst snd] in Hd; auto 10.
  }
  unfold getNeighbors. cbn zeta.
  unfold mbind, outcome_bind, obind in Hraw |- *.
  destruct (match prev_ptr_at cols y with Some _ => _ | None => _ end) as [r0|];
    [|done].
  cbn beta iota in Hraw |- *. rewrite Hraw.
  eexists. split; [done|].
  destruct raw as [|w raw].
  - split; [exact Hmem|]. split; constructor.
  - split; [|split].
    + intros v. rewrite elem_of_unique_copy, elem_of_std_sort. apply Hmem.
    + apply unique_copy_sorted, std_sort_sorted.
    + apply unique_copy_NoDup, std_sort_sorted.
Qed.

(** * The first pass, pixel by pixel *)

Lemma int_wrap_id z : in_int z → int_wrap z = z.
Proof.
  unfold in_int, int_min, int_max, int_wrap. intros H.
  rewrite Z.mod_small; lia.
Qed.

(** The object with another [nextLabel]. *)
Definition with_nextLabel (s : ConnectedComponent) (v : Z) : ConnectedComponent :=
  mkConnectedComponent (maxComponent s) v (properties s).

(** The inner [for( int neighbor: neighbors )] loop of the first pass as a
    function of the vector alone. *)
Fixpoint union_all (a : Z) (neighbors : list Z) (linked : list Z)
    : outcome (list Z) :=
  match neighbors with
  | [] => Ok linked
  | neighbor :: rest =>
      linked' ← disjointUnion a neighbor linked; union_all a rest linked'
  end.

Ltac munfold :=
  unfold mbind, M_bind, bind, mret, M_ret, ret, lift, throw,
    get_nextLabel, set_nextLabel, get_maxComponent, get_properties,
    set_properties; cbn beta iota.

Lemma bind_eq {A B} (m : M A) (f : A → M B) s :
  (m ≫= f) s = match m s with
               | (Ok a, s') => f a s'
               | (Throw e, s') => (Throw e, s')
               end.
Proof. done. Qed.

Lemma lift_eq {A} (o : outcome A) s : lift o s = (o, s).
Proof. done. Qed.

Lemma ret_eq {A} (a : A) s : mret (M := M) a s = (Ok a, s).
Proof. done. Qed.

Lemma foreach_union_all data ptr x a neighbors : ∀ linked s,
  px_at data ptr x = Ok a →
  foreach neighbors
    (λ neighbor linked,
       a ← lift (px_at data ptr x); lift (disjointUnion a neighbor linked))
    linked s
  = (union_all a neighbors linked, s).
Proof.
  intros linked s Ha.
  set (body := λ (neighbor : Z) (linked : list Z),
                 a ← lift (px_at data ptr x); lift (disjointUnion a neighbor linked)).
  assert (∀ n l t, body n l t = (disjointUnion a n l, t)) as Hbody.
  { intros n l t. unfold body. munfold. by rewrite Ha. }
  clearbody body. revert linked s.
  induction neighbors as [|n ns IH]; intros linked s; [done|].
  cbn [foreach union_all]. unfold mbind, M_bind, bind. rewrite Hbody.
  unfold outcome_bind, obind.
  destruct (disjointUnion a n linked) as [linked'|e]; [|done].
  apply IH.
Qed.

Section pass1_steps.
Context (cols : nat) (y x : nat) (data linked : list Z) (s : ConnectedComponent).
Let k : nat := idx cols (y, x).
Let run := pass1_pixel cols (row_ptr cols y) (prev_ptr_at cols y) y x (data, linked) s.

  (** A background pixel is skipped. *)
Lemma pass1_pixel_background :
    data !! k = Some 0 → run = (Ok (data, linked), s).
  Proof.
    intros Hv. subst run k. unfold pass1_pixel. munfold.
    assert (px_at data (row_ptr cols y) x = Ok 0) as -> by by apply px_at_Ok.
    done.
  Qed.

  (** A foreground pixel without visited foreground neighbour takes the next
      fresh label; the capacity check follows the increment. *)
Lemma pass1_pixel_fresh v :
    data !! k = Some v → v ≠ 0 →
    getNeighbors data (row_ptr cols y) (prev_ptr_at cols y) x y cols = Ok [] →
    in_int (nextLabel s + 1) →
    run = if nextLabel s + 1 >=? maxComponent s
          then (Throw LabelCapacityExceeded, with_nextLabel s (nextLabel s + 1))
          else (Ok (<[k := nextLabel s]> data, linked),
                with_nextLabel s (nextLabel s + 1)).
  Proof.
    intros Hv Hv0 Hns Hint. subst run k. unfold pass1_pixel. munfold.
    assert (px_at data (row_ptr cols y) x = Ok v) as -> by by apply px_at_Ok.
    destruct (Z.eqb_spec v 0); [done|]. cbn [negb]. cbn beta iota. rewrite Hns.
    destruct (decide ([] = [])) as [_|]; [|done].
    assert (px_set data (row_ptr cols y) x (nextLabel s)
            = Ok (<[idx cols (y, x) := nextLabel s]> data)) as ->.
    { apply px_set_Ok. split; [|done]. by eapply lookup_lt_Some. }
    cbn [nextLabel maxComponent]. rewrite int_wrap_id by done. unfold with_nextLabel.
    by destruct (_ >=? _).
  Qed.

  (** A foreground pixel with visited foreground neighbours takes the
      smallest of their labels, which is then united with each of them. *)
Lemma pass1_pixel_join v neighbors m :
    data !! k = Some v → v ≠ 0 →
    getNeighbors data (row_ptr cols y) (prev_ptr_at cols y) x y cols = Ok neighbors →
    neighbors ≠ [] →
    neighbors !! min_element neighbors = Some m →
    run = match union_all m neighbors linked with
          | Ok linked' => (Ok (<[k := m]> data, linked'), s)
          | Throw e => (Throw e, s)
          end.
  Proof.
    intros Hv Hv0 Hns Hne Hm. subst run k. unfold pass1_pixel.
    assert (px_at data (row_ptr cols y) x = Ok v) as Hpx by by apply px_at_Ok.
    rewrite bind_eq, lift_eq, Hpx.
    destruct (Z.eqb_spec v 0); [done|]. cbn [negb].
    rewrite bind_eq, lift_eq, Hns.
    destruct (decide (neighbors = [])) as [|_]; [done|].
    assert (vec_at neighbors (Z.of_nat (min_element neighbors)) = Ok m) as Hmin.
    { apply vec_at_Ok. split; [lia|]. by rewrite Nat2Z.id. }
    assert (idx cols (y, x) < length data)%nat as Hlt by by eapply lookup_lt_Some.
    assert (px_set data (row_ptr cols y) x m = Ok (<[idx cols (y, x) := m]> data))
      as Hset by by apply px_set_Ok.
    rewrite bind_eq, lift_eq, Hmin, bind_eq, lift_eq, Hset, bind_eq.
    rewrite foreach_union_all with (a := m).
    - by destruct (union_all m neighbors linked).
    - apply px_at_Ok. by apply list_lookup_insert_eq.
  Qed.
End pass1_steps.

(** ** The unions of one pixel *)

Lemma union_all_spec n a neighbors : ∀ linked,
  forest n linked → n <= Z.of_nat (length linked) →
  1 <= a < n → (∀ v, v ∈ neighbors → 1 <= v < n) →
  ∃ linked',
    union_all a neighbors linked = Ok linked' ∧
    forest n linked' ∧ length linked' = length linked ∧
    (∀ c d, same_class linked c d → same_class linked' c d) ∧
    (∀ v, v ∈ neighbors → same_class linked' a v) ∧
    (∀ c d, same_class linked' c d →
       same_class linked c d ∨
       ∃ v w, v ∈ a :: neighbors ∧ w ∈ a :: neighbors ∧
              same_class linked c v ∧ same_class linked d w).
Proof.
  induction neighbors as [|b ns IH]; intros linked Hf Hlen Ha Hns.
  - exists linked. repeat split; try done.
    + by intros v ?%elem_of_nil.
    + by left.
  - destruct (disjointUnion_spec n linked a b Hf Hlen Ha) as (ra & rb & _ & _ & _ & _ & Hu).
    { apply Hns. left. }
    set (linked1 := if decide (ra = rb) then linked
                    else <[Z.to_nat (Z.min ra rb) := Z.max ra rb]> linked) in Hu.
    assert (1 <= b < n) as Hb by (apply Hns; left).
    pose proof (disjointUnion_length n linked linked1 a b Hf Hlen Ha Hb Hu) as Hl1.
    pose proof (disjointUnion_forest n linked linked1 a b Hf Hlen Ha Hb Hu) as Hf1.
    destruct (IH linked1) as (linked' & Hall & Hf' & Hl' & Hkeep & Hjoin & Honly);
      [done|lia|done| |].
    { intros v Hv. apply Hns. by right. }
    exists linked'. cbn [union_all]. unfold mbind, outcome_bind, obind. rewrite Hu.
    split; [done|]. split; [done|]. split; [lia|].
    split; [|split].
    + intros c d Hcd. apply Hkeep.
      by apply (disjointUnion_keeps n linked linked1 a b Hf Hlen Ha Hb Hu).
    + intros v [->|Hv]%elem_of_cons; [|by apply Hjoin].
      apply Hkeep. by apply (disjointUnion_joins n linked linked1 a b Hf Hlen Ha Hb Hu).
    + intros c d Hcd.
      assert (∀ e v, v ∈ a :: ns → same_class linked1 e v →
                ∃ v', v' ∈ a :: b :: ns ∧ same_class linked e v') as Hlift.
      { intros e v Hv He.
        destruct (disjointUnion_only n linked linked1 a b Hf Hlen Ha Hb Hu e v He)
          as [H|[[H _]|[H _]]].
        - exists v. split; [|done].
          apply elem_of_cons in Hv as [->|Hv]; [left|by do 2 right].
        - exists a. split; [left|done].
        - exists b. split; [right; left|done]. }
      destruct (Honly c d Hcd) as [H1|(v & w & Hv & Hw & Hcv & Hdw)].
      * destruct (disjointUnion_only n linked linked1 a b Hf Hlen Ha Hb Hu c d H1)
          as [H|[[Hc Hd]|[Hc Hd]]]; [by left| |]; right.
        -- exists a, b. repeat split; try done; [left|right; left].
        -- exists b, a. repeat split; try done; [right; left|left].
      * right. destruct (Hlift c v Hv Hcv) as (v' & Hv' & Hcv').
        destruct (Hlift d w Hw Hdw) as (w' & Hw' & Hdw').
        by exists v', w'.
Qed.

(** * Fresh labels needed by an image *)

Definition is_fg (img : Mat) (p : pixel) : bool :=
  match mat_at img p with
  | Some v => negb (v =? 0)
  | None => false
  end.

(** A foreground pixel none of whose visited neighbours is foreground: the
    first pass has to open a new provisional label for it. *)
Definition needs_fresh (img : Mat) (p : pixel) : bool :=
  is_fg img p && forallb (λ q, negb (is_fg img q)) (visited_neighbors (mat_cols img) p).

Fixpoint sum_upto (f : nat → nat) (n : nat) : nat :=
  match n with
  | O => O
  | S n' => (sum_upto f n' + f n')%nat
  end.

Definition fresh_in_row (img : Mat) (y x : nat) : nat :=
  sum_upto (λ x', if needs_fresh img (y, x') then 1%nat else O) x.

(** The number of fresh labels needed before the scan reaches pixel (y, x). *)
Definition fresh_before (img : Mat) (y x : nat) : nat :=
  (sum_upto (λ y', fresh_in_row img y' (mat_cols img)) y + fresh_in_row img y x)%nat.

(** The number of fresh provisional labels the first pass needs. *)
Definition fresh_labels (img : Mat) : nat := fresh_before img (mat_rows img) 0.

Lemma sum_upto_mono f n m : (n ≤ m)%nat → (sum_upto f n ≤ sum_upto f m)%nat.
Proof. induction 1; simpl; lia. Qed.

Lemma fresh_before_row_end img y :
  fresh_before img y (mat_cols img) = fresh_before img (S y) 0.
Proof. unfold fresh_before, fresh_in_row. simpl. lia. Qed.

Lemma fresh_before_le img y x :
  (y < mat_rows img)%nat → (x ≤ mat_cols img)%nat →
  (fresh_before img y x ≤ fresh_labels img)%nat.
Proof.
  intros Hy Hx. unfold fresh_labels, fresh_before.
  assert (sum_upto (λ y', fresh_in_row img y' (mat_cols img)) (S y)
          ≤ sum_upto (λ y', fresh_in_row img y' (mat_cols img)) (mat_rows img))%nat
    as H1 by (apply sum_upto_mono; lia).
  assert (fresh_in_row img y x ≤ fresh_in_row img y (mat_cols img))%nat
    as H2 by by apply sum_upto_mono.
  cbn [sum_upto] in H1. lia.
Qed.

(** * The invariant of the first pass *)

(** (y', x') comes before (y, x) in raster order. *)
Definition before (p : pixel) (y x : nat) : Prop :=
  (p.1 < y ∨ (p.1 = y ∧ p.2 < x))%nat.

Lemma before_next p y x : before p y (S x) ↔ before p y x ∨ p = (y, x).
Proof.
  destruct p as [y' x']. unfold before. simpl. split.
  - intros [?|[-> ?]]; [by left; left|].
    destruct (decide (x' = x)) as [->|]; [by right|left; right; lia].
  - intros [[?|[-> ?]]|[= -> ->]]; [by left|right; lia|right; lia].
Qed.

Lemma before_irrefl y x : ¬ before (y, x) y x.
Proof. unfold before. simpl. lia. Qed.

Section pass1_invariant.
Context (image : Mat) (mc : Z) (props0 : list ComponentProperty).
Let rows : nat := mat_rows image.
Let cols : nat := mat_cols image.
Let input : list Z := mat_data image.
Hypothesis Hlen : length input = (rows * cols)%nat.
Hypothesis Hmc : mc <= int_max.

  (** [p] has been relabelled and carries the provisional label [l]. *)
Definition labelled (data : list Z) (y x : nat) (p : pixel) (l : Z) : Prop :=
    in_image rows cols p ∧ before p y x ∧ data !! idx cols p = Some l ∧ l ≠ 0.

Record inv1 (y x : nat) (data linked : list Z) (s : ConnectedComponent) : Prop := {
    i_len : length data = length input;
    i_rest : ∀ p, in_image rows cols p → ¬ before p y x →
             data !! idx cols p = input !! idx cols p;
    i_done : ∀ p v, in_image rows cols p → before p y x →
             input !! idx cols p = Some v →
             ∃ l, data !! idx cols p = Some l ∧ (v = 0 → l = 0)
                  ∧ (v ≠ 0 → 1 <= l < nextLabel s);
    i_next : 1 <= nextLabel s ∧ (nextLabel s = 1 ∨ nextLabel s < mc);
    i_mc : maxComponent s = mc;
    i_props : properties s = props0;
    i_llen : length linked = Z.to_nat mc;
    i_forest : forest (nextLabel s) linked;
    i_sound : ∀ p q lp lq,
      labelled data y x p lp → labelled data y x q lq →
      same_class linked lp lq → connected image p q;
    i_complete : ∀ p q lp lq,
      labelled data y x p lp → labelled data y x q lq → adj8 p q →
      same_class linked lp lq;
    i_count : nextLabel s - 1 = Z.of_nat (fresh_before image y x)
  }.

Lemma input_lookup p :
    in_image rows cols p → ∃ v, input !! idx cols p = Some v.
  Proof.
    intros Hp. apply lookup_lt_is_Some_2. rewrite Hlen. by apply idx_lt.
  Qed.

Lemma foreground_iff p :
    foreground image p ↔
    in_image rows cols p ∧ ∃ v, input !! idx cols p = Some v ∧ v ≠ 0.
  Proof. done. Qed.

Lemma is_fg_true p : is_fg image p = true ↔ ∃ v, input !! idx cols p = Some v ∧ v ≠ 0.
  Proof.
    unfold is_fg, mat_at. fold cols input. destruct (input !! idx cols p) as [v|].
    - destruct (Z.eqb_spec v 0) as [->|Hv]; simpl; split; try done.
      + by intros (v & [= <-] & ?).
      + intros _. by exists v.
    - split; [done|]. by intros (v & ? & _).
  Qed.

Section facts.
Context (y x : nat) (data linked : list Z) (s : ConnectedComponent).
Hypothesis Hinv : inv1 y x data linked s.

Lemma labelled_range p l :
      labelled data y x p l → foreground image p ∧ 1 <= l < nextLabel s.
    Proof.
      intros (Hp & Hb & Hl & Hl0).
      destruct (input_lookup p Hp) as [v Hv].
      destruct (i_done _ _ _ _ _ Hinv p v Hp Hb Hv) as (l' & Hl' & Hz & Hnz).
      rewrite Hl in Hl'. injection Hl' as <-.
      assert (v ≠ 0) as Hv0 by (intros ->; by apply Hl0, Hz).
      split; [|by apply Hnz]. apply foreground_iff. split; [done|]. by exists v.
    Qed.

Lemma labelled_of_fg p :
      foreground image p → before p y x → ∃ l, labelled data y x p l.
    Proof.
      intros [Hp (v & Hv & Hv0)] Hb.
      destruct (i_done _ _ _ _ _ Hinv p v Hp Hb Hv) as (l & Hl & _ & Hnz).
      exists l. repeat split; try done; try apply Hp. specialize (Hnz Hv0). lia.
    Qed.
End facts.

Lemma fresh_before_next y x :
    fresh_before image y (S x)
    = (fresh_before image y x + if needs_fresh image (y, x) then 1 else 0)%nat.
  Proof. unfold fresh_before, fresh_in_row. simpl. lia. Qed.

Lemma needs_fresh_spec p :
    needs_fresh image p = true ↔
    is_fg image p = true ∧ ∀ q, q ∈ visited_neighbors cols p → is_fg image q = false.
  Proof.
    unfold needs_fresh. rewrite andb_true_iff, forallb_forall. fold cols.
    split; intros [H1 H2]; (split; [done|]); intros q Hq.
    - apply negb_true_iff, H2. by apply list_elem_of_In.
    - apply negb_true_iff, H2. by apply list_elem_of_In.
  Qed.

  (** ** One pixel *)

Section pixel.
Context (y x : nat) (data linked : list Z) (s : ConnectedComponent).
Hypothesis Hy : (y < rows)%nat.
Hypothesis Hx : (x < cols)%nat.
Hypothesis Hinv : inv1 y x data linked s.
Let p0 : pixel := (y, x).
Let k0 : nat := idx cols p0.

Lemma p0_in_image : in_image rows cols p0.
    Proof. done. Qed.

Lemma k0_lt : (k0 < length data)%nat.
    Proof.
      rewrite (i_len _ _ _ _ _ Hinv), Hlen. apply idx_lt. apply p0_in_image.
    Qed.

Lemma data_p0 : data !! k0 = input !! k0.
    Proof.
      apply (i_rest _ _ _ _ _ Hinv); [apply p0_in_image|apply before_irrefl].
    Qed.

Lemma idx_ne p : in_image rows cols p → p ≠ p0 → idx cols p ≠ k0.
    Proof.
      intros Hp Hne Heq. apply Hne. eapply idx_inj; [apply Hp|apply Hx|done].
    Qed.

Lemma before_ne p : before p y x → p ≠ p0.
    Proof. intros Hb ->. by apply before_irrefl in Hb. Qed.

    (** The visited neighbours are processed pixels of the image. *)
Lemma visited_before q :
      q ∈ visited_neighbors cols p0 → in_image rows cols q ∧ before q y x ∧ adj8 p0 q.
    Proof.
      intros Hq.
      split; [exact (visited_neighbors_in_image rows cols p0 q p0_in_image Hq)|].
      apply elem_of_visited_neighbors in Hq as (Hqc & Hadj & Hlt); [|done].
      split; [|done]. apply idx_before in Hlt; done.
    Qed.

Lemma before_adj_visited q :
      in_image rows cols q → before q y x → adj8 p0 q →
      q ∈ visited_neighbors cols p0.
    Proof.
      intros [_ Hq] Hb Hadj. apply elem_of_visited_neighbors; [done|].
      split; [done|]. split; [done|]. apply idx_before; done.
    Qed.

Lemma labelled_next w p l :
      labelled (<[k0 := w]> data) y (S x) p l →
      (p = p0 ∧ l = w) ∨ labelled data y x p l.
    Proof.
      intros (Hp & Hb & Hl & Hl0). apply before_next in Hb as [Hb| ->].
      - right. repeat split; try done; try apply Hp.
        rewrite list_lookup_insert_ne in Hl; [done|].
        intros Heq. symmetry in Heq. revert Heq. apply idx_ne; [done|].
        by apply before_ne.
      - left. split; [done|]. fold p0 k0 in Hl.
        rewrite list_lookup_insert_eq in Hl by apply k0_lt. congruence.
    Qed.

Lemma labelled_keep w p l :
      labelled data y x p l → labelled (<[k0 := w]> data) y (S x) p l.
    Proof.
      intros (Hp & Hb & Hl & Hl0). repeat split; try done; try apply Hp.
      - apply before_next. by left.
      - rewrite list_lookup_insert_ne; [done|].
        intros Heq. symmetry in Heq. revert Heq. apply idx_ne; [done|].
        by apply before_ne.
    Qed.

Lemma labelled_same p l :
      labelled data y (S x) p l → data !! k0 = Some 0 → labelled data y x p l.
    Proof.
      intros (Hp & Hb & Hl & Hl0) H0. apply before_next in Hb as [Hb| ->].
      - repeat split; try done; apply Hp.
      - fold p0 k0 in Hl. congruence.
    Qed.

    (** The labels [getNeighbors] finds are the labels of the processed
        foreground neighbours. *)
Lemma neighbors_labelled ns :
      getNeighbors data (row_ptr cols y) (prev_ptr_at cols y) x y cols = Ok ns →
      (∀ l, l ∈ ns → ∃ q, q ∈ visited_neighbors cols p0 ∧ labelled data y x q l)
      ∧ (∀ q l, q ∈ visited_neighbors cols p0 → labelled data y x q l → l ∈ ns).
    Proof.
      intros Hns.
      destruct (getNeighbors_spec data rows cols y x) as (ns' & Hns' & Hmem & _);
        [by rewrite (i_len _ _ _ _ _ Hinv)|done|done|].
      rewrite Hns in Hns'. injection Hns' as <-. split.
      - intros l (Hl0 & q & Hq & Hl)%Hmem. exists q. split; [done|].
        destruct (visited_before q Hq) as (? & ? & _). done.
      - intros q l Hq (_ & _ & Hl & Hl0). apply Hmem. split; [done|]. by exists q.
    Qed.

    (** *** Background pixel *)
Lemma step_background :
      data !! k0 = Some 0 → inv1 y (S x) data linked s.
    Proof.
      intros H0. destruct Hinv. split; try done.
      - intros p Hp Hnb. apply i_rest0; [done|]. intros Hb. apply Hnb.
        apply before_next. by left.
      - intros p v Hp [Hb| ->]%before_next Hv; [by apply i_done0|].
        fold p0 k0 in Hv |- *. rewrite <-data_p0, H0 in Hv. injection Hv as <-.
        exists 0. split; [done|]. split; [done|]. done.
      - intros p q lp lq Hlp Hlq. apply i_sound0; by apply labelled_same.
      - intros p q lp lq Hlp Hlq. apply i_complete0; by apply labelled_same.
      - rewrite fresh_before_next.
        assert (needs_fresh image (y, x) = false) as ->; [|lia].
        apply not_true_is_false. intros [Hfg _]%needs_fresh_spec.
        apply is_fg_true in Hfg as (v & Hv & Hv0). fold p0 k0 in Hv.
        rewrite <-data_p0, H0 in Hv. congruence.
    Qed.

Lemma p0_foreground v : data !! k0 = Some v → v ≠ 0 → foreground image p0.
    Proof.
      intros Hv Hv0. apply foreground_iff. split; [apply p0_in_image|].
      exists v. split; [|done]. fold k0. by rewrite <-data_p0.
    Qed.

    (** *** Fresh label *)
Lemma step_fresh v :
      data !! k0 = Some v → v ≠ 0 →
      getNeighbors data (row_ptr cols y) (prev_ptr_at cols y) x y cols = Ok [] →
      nextLabel s + 1 < mc →
      inv1 y (S x) (<[k0 := nextLabel s]> data) linked
           (with_nextLabel s (nextLabel s + 1)).
    Proof.
      intros Hv Hv0 Hns Hcap.
      destruct (neighbors_labelled [] Hns) as [_ Hnone].
      pose proof (labelled_range y x data linked s Hinv) as Hrange.
      pose proof (p0_foreground v Hv Hv0) as Hfg0.
      destruct Hinv. cbn [nextLabel maxComponent properties with_nextLabel].
      assert (vec_at linked (nextLabel s) = Ok 0) as Hroot.
      { eapply forest_root_ge; [done|lia|]. rewrite i_llen0. lia. }
      assert (∀ q lq, labelled data y x q lq →
                ¬ same_class linked (nextLabel s) lq) as Hnew.
      { intros q lq Hq (r & Hr1 & Hr2).
        apply (reaches_root_eq _ _ 0) in Hr1; [|done|lia]. subst r.
        apply (reaches_bound (nextLabel s)) in Hr2; [|done].
        destruct (Hrange q lq Hq) as [_ ?]. lia. }
      split; cbn [nextLabel maxComponent properties with_nextLabel]; try done.
      - by rewrite length_insert.
      - intros p Hp Hnb. rewrite list_lookup_insert_ne.
        + apply i_rest0; [done|]. intros Hb. apply Hnb, before_next. by left.
        + intros Heq. symmetry in Heq. revert Heq. apply idx_ne; [done|].
          intros ->. apply Hnb, before_next. by right.
      - intros p v' Hp [Hb| ->]%before_next Hv'.
        + destruct (i_done0 p v' Hp Hb Hv') as (l & Hl & Hz & Hnz).
          exists l. rewrite list_lookup_insert_ne.
          * split; [done|]. split; [done|]. intros H. specialize (Hnz H). lia.
          * intros Heq. symmetry in Heq. revert Heq. apply idx_ne; [done|].
            by apply before_ne.
        + exists (nextLabel s). fold p0 k0 in Hv' |- *.
          rewrite list_lookup_insert_eq by apply k0_lt. split; [done|].
          rewrite <-data_p0, Hv in Hv'. injection Hv' as <-.
          split; [done|]. lia.
      - lia.
      - eapply forest_mono; [done|lia].
      - intros p q lp lq [[-> ->]|Hp]%labelled_next [[-> ->]|Hq]%labelled_next Hsame.
        + by apply connected_refl.
        + by destruct (Hnew q lq Hq).
        + apply same_class_sym in Hsame. by destruct (Hnew p lp Hp).
        + by eapply i_sound0.
      - intros p q lp lq [[-> ->]|Hp]%labelled_next [[-> ->]|Hq]%labelled_next Hadj.
        + by destruct Hadj.
        + exfalso. destruct Hq as (Hq1 & Hq2 & Hq3 & Hq4).
          eapply elem_of_nil, (Hnone q lq); [by apply before_adj_visited|].
          done.
        + exfalso. destruct Hp as (Hp1 & Hp2 & Hp3 & Hp4).
          eapply elem_of_nil, (Hnone p lp);
            [by apply before_adj_visited, adj8_sym|].
          done.
        + by eapply i_complete0.
      - rewrite fresh_before_next.
        assert (needs_fresh image (y, x) = true) as ->; [|lia].
        apply needs_fresh_spec. split.
        + apply is_fg_true. destruct Hfg0 as [_ H]. exact H.
        + intros q Hq. apply not_true_is_false. intros (w & Hw & Hw0)%is_fg_true.
          destruct (visited_before q Hq) as (Hq1 & Hq2 & _).
          destruct (i_done0 q w Hq1 Hq2 Hw) as (l & Hl & _ & Hnz).
          eapply elem_of_nil, (Hnone q l Hq). repeat split; try done; try apply Hq1.
          specialize (Hnz Hw0). lia.
    Qed.

    (** *** Minimum neighbour label and unions *)
Lemma step_join v ns m linked' :
      data !! k0 = Some v → v ≠ 0 →
      getNeighbors data (row_ptr cols y) (prev_ptr_at cols y) x y cols = Ok ns →
      m ∈ ns →
      forest (nextLabel s) linked' → length linked' = length linked →
      (∀ c d, same_class linked c d → same_class linked' c d) →
      (∀ w, w ∈ ns → same_class linked' m w) →
      (∀ c d, same_class linked' c d →
         same_class linked c d ∨
         ∃ v w, v ∈ m :: ns ∧ w ∈ m :: ns ∧
                same_class linked c v ∧ same_class linked d w) →
      inv1 y (S x) (<[k0 := m]> data) linked' s.
    Proof.
      intros Hv Hv0 Hns Hm Hf' Hl' Hkeep Hjoin Honly.
      destruct (neighbors_labelled ns Hns) as [Hsome Hall].
      pose proof (labelled_range y x data linked s Hinv) as Hrange.
      pose proof (p0_foreground v Hv Hv0) as Hfg0.
      assert (∀ w, w ∈ m :: ns → w ∈ ns) as Hcons.
      { intros w [->|?]%elem_of_cons; done. }
      (* every neighbour label is carried by a pixel adjacent to p0 *)
      assert (∀ w, w ∈ ns → ∃ q, labelled data y x q w ∧ connected image q p0)
        as Hnear.
      { intros w (q & Hq & Hlq)%Hsome. exists q. split; [done|].
        destruct (visited_before q Hq) as (_ & _ & Hadj).
        apply connected_adj; [by apply (Hrange q w)|done|by apply adj8_sym]. }
      destruct (Hsome m Hm) as (qm & Hqm & Hlqm).
      destruct (Hrange qm m Hlqm) as [_ Hmr].
      destruct Hinv.
      (* soundness for the relabelled image, before the unions *)
      assert (∀ p q lp lq,
                labelled (<[k0 := m]> data) y (S x) p lp →
                labelled (<[k0 := m]> data) y (S x) q lq →
                same_class linked lp lq → connected image p q) as Hs0.
      { intros p q lp lq [[-> ->]|Hp]%labelled_next [[-> ->]|Hq]%labelled_next Hsame.
        - by apply connected_refl.
        - destruct (Hnear m Hm) as (q' & Hq' & Hc).
          eapply connected_trans; [apply connected_sym, Hc|].
          by eapply i_sound0.
        - destruct (Hnear m Hm) as (q' & Hq' & Hc).
          eapply connected_trans; [|exact Hc]. by eapply i_sound0.
        - by eapply i_sound0. }
      assert (∀ p lp w, labelled (<[k0 := m]> data) y (S x) p lp → w ∈ ns →
                same_class linked lp w → connected image p p0) as Hs1.
      { intros p lp w Hp Hw Hsame. destruct (Hnear w Hw) as (q' & Hq' & Hc).
        eapply connected_trans; [|exact Hc].
        eapply Hs0; [done|by apply labelled_keep|done]. }
      split; try done.
      - by rewrite length_insert.
      - intros p Hp Hnb. rewrite list_lookup_insert_ne.
        + apply i_rest0; [done|]. intros Hb. apply Hnb, before_next. by left.
        + intros Heq. symmetry in Heq. revert Heq. apply idx_ne; [done|].
          intros ->. apply Hnb, before_next. by right.
      - intros p v' Hp [Hb| ->]%before_next Hv'.
        + destruct (i_done0 p v' Hp Hb Hv') as (l & Hl & Hz & Hnz).
          exists l. rewrite list_lookup_insert_ne; [done|].
          intros Heq. symmetry in Heq. revert Heq. apply idx_ne; [done|].
          by apply before_ne.
        + exists m. fold p0 k0 in Hv' |- *.
          rewrite list_lookup_insert_eq by apply k0_lt. split; [done|].
          rewrite <-data_p0, Hv in Hv'. injection Hv' as <-.
          split; [done|]. done.
      - lia.
      - intros p q lp lq Hp Hq Hsame.
        destruct (Honly lp lq Hsame) as [H|(v1 & w1 & Hv1 & Hw1 & Hc1 & Hc2)].
        + by eapply Hs0.
        + eapply connected_trans.
          * eapply (Hs1 p lp v1); [done|by apply Hcons|done].
          * apply connected_sym. eapply (Hs1 q lq w1); [done|by apply Hcons|done].
      - intros p q lp lq [[-> ->]|Hp]%labelled_next [[-> ->]|Hq]%labelled_next Hadj.
        + by destruct Hadj.
        + apply Hjoin. destruct Hq as (Hq1 & Hq2 & Hq3 & Hq4).
          apply (Hall q lq); [by apply before_adj_visited|done].
        + apply same_class_sym, Hjoin. destruct Hp as (Hp1 & Hp2 & Hp3 & Hp4).
          apply (Hall p lp); [by apply before_adj_visited, adj8_sym|done].
        + apply Hkeep. by eapply i_complete0.
      - rewrite fresh_before_next.
        assert (needs_fresh image (y, x) = false) as ->; [|lia].
        apply not_true_is_false. intros [_ Hnone]%needs_fresh_spec.
        specialize (Hnone qm Hqm).
        destruct (Hrange qm m Hlqm) as [[_ Hfg] _].
        apply is_fg_true in Hfg. congruence.
    Qed.

    (** What a capacity failure tells about the image. *)
Definition E1 (e : error) (s' : ConnectedComponent) : Prop :=
      e = LabelCapacityExceeded ∧ maxComponent s' = mc ∧ properties s' = props0 ∧
      (1 ≤ fresh_labels image)%nat ∧ mc <= Z.of_nat (fresh_labels image) + 1.

Lemma fresh_here v :
      data !! k0 = Some v → v ≠ 0 →
      getNeighbors data (row_ptr cols y) (prev_ptr_at cols y) x y cols = Ok [] →
      needs_fresh image (y, x) = true.
    Proof.
      intros Hv Hv0 Hns.
      destruct (neighbors_labelled [] Hns) as [_ Hnone].
      pose proof (p0_foreground v Hv Hv0) as Hfg0.
      apply needs_fresh_spec. split.
      - apply is_fg_true. destruct Hfg0 as [_ H]. exact H.
      - intros q Hq. apply not_true_is_false. intros (w & Hw & Hw0)%is_fg_true.
        destruct (visited_before q Hq) as (Hq1 & Hq2 & _).
        destruct (i_done _ _ _ _ _ Hinv q w Hq1 Hq2 Hw) as (l & Hl & _ & Hnz).
        eapply elem_of_nil, (Hnone q l Hq). repeat split; try done; try apply Hq1.
        specialize (Hnz Hw0). lia.
    Qed.

Lemma pass1_pixel_wp :
      wp (pass1_pixel cols (row_ptr cols y) (prev_ptr_at cols y) y x (data, linked)) s
         (λ st s', inv1 y (S x) st.1 st.2 s') E1.
    Proof.
      destruct (lookup_lt_is_Some_2 data k0 k0_lt) as [v Hv].
      unfold wp. destruct (decide (v = 0)) as [->|Hv0].
      { rewrite pass1_pixel_background by done. by apply step_background. }
      destruct (getNeighbors_spec data rows cols y x) as (ns & Hns & Hmem & _);
        [by rewrite (i_len _ _ _ _ _ Hinv)|done|done|].
      pose proof (i_next _ _ _ _ _ Hinv) as [Hn1 Hn2].
      pose proof (i_mc _ _ _ _ _ Hinv) as Hmcs.
      destruct ns as [|n0 ns'].
      - rewrite (pass1_pixel_fresh _ _ _ _ _ _ v) by
          (try done; unfold in_int, int_min, int_max in *; lia).
        rewrite Hmcs, Z.geb_leb.
        destruct (Z.leb_spec mc (nextLabel s + 1)) as [Hge|Hlt].
        + pose proof (fresh_here v Hv Hv0 Hns) as Hfresh.
          pose proof (fresh_before_next y x) as Hnext. rewrite Hfresh in Hnext.
          pose proof (fresh_before_le image y (S x) Hy ltac:(fold cols; lia)) as Hle.
          pose proof (i_count _ _ _ _ _ Hinv) as Hcount.
          split; [done|]. cbn [maxComponent properties with_nextLabel].
          split; [done|]. split; [by apply (i_props _ _ _ _ _ Hinv)|]. lia.
        + apply (step_fresh v); [done|done|done|lia].
      - destruct (min_element_spec (n0 :: ns')) as (m & Hm & Hmin & _); [done|].
        destruct (neighbors_labelled _ Hns) as [Hsome _].
        pose proof (labelled_range y x data linked s Hinv) as Hrange.
        assert (∀ w, w ∈ n0 :: ns' → 1 <= w < nextLabel s) as Hin.
        { intros w (q & _ & Hq)%Hsome. by apply (Hrange q w). }
        pose proof (Hin m Hmin) as Hmr.
        destruct (union_all_spec (nextLabel s) m (n0 :: ns') linked)
          as (linked' & Hall & Hf' & Hl' & Hkeep & Hjoin & Honly);
          [by apply (i_forest _ _ _ _ _ Hinv)
          |rewrite (i_llen _ _ _ _ _ Hinv); lia|done|done|].
        rewrite (pass1_pixel_join _ _ _ _ _ _ v (n0 :: ns') m) by done.
        rewrite Hall. by apply (step_join v (n0 :: ns') m linked').
    Qed.
End pixel.

  (** ** Rows and the whole pass *)

Lemma inv1_row_end y data linked s :
    inv1 y cols data linked s → inv1 (S y) 0 data linked s.
  Proof.
    assert (∀ p, in_image rows cols p → before p y cols ↔ before p (S y) 0) as Hb.
    { intros [y' x'] [_ Hx']. unfold before. simpl in *. lia. }
    assert (∀ d p l, labelled d (S y) 0 p l → labelled d y cols p l) as Hlab.
    { intros d p l (Hp & Hbp & Hl). split; [done|]. split; [by apply Hb|done]. }
    intros []. split; try done.
    - intros p Hp Hnb. apply i_rest0; [done|]. intros H. by apply Hnb, Hb.
    - intros p v Hp Hbp. apply i_done0; [done|]. by apply Hb.
    - intros p q lp lq Hp Hq. apply i_sound0; by apply Hlab.
    - intros p q lp lq Hp Hq. apply i_complete0; by apply Hlab.
    - unfold cols in i_count0. by rewrite <-fresh_before_row_end.
  Qed.

Lemma pass1_row_wp y st s :
    (y < rows)%nat →
    inv1 y 0 st.1.1 st.1.2 s ∧ st.2 = prev_ptr_at cols y →
    wp (pass1_row cols y st) s
       (λ st' s', inv1 (S y) 0 st'.1.1 st'.1.2 s' ∧ st'.2 = prev_ptr_at cols (S y))
       E1.
  Proof.
    intros Hy [Hinv Hprev]. destruct st as [[data linked] prev]. simpl in *.
    subst prev. unfold pass1_row. apply wp_bind.
    eapply wp_mono;
      [apply (wp_for (λ x st s, inv1 y x st.1 st.2 s) E1 _ cols O (data, linked) s)
      | |done].
    - done.
    - intros x [d l] t Hx Hi. apply pass1_pixel_wp; [done|lia|done].
    - intros [d l] t Hi. apply wp_ret. simpl in *. split; [|done].
      by apply inv1_row_end.
  Qed.

Lemma inv1_init s :
    maxComponent s = mc → properties s = props0 → nextLabel s = 1 →
    inv1 0 0 input (replicate (Z.to_nat mc) 0) s.
  Proof.
    intros H1 H2 H3.
    assert (∀ p, ¬ before p 0 0) as Hb.
    { intros [y x]. unfold before. simpl. lia. }
    split; try done.
    - intros p v _ H. by destruct (Hb p).
    - lia.
    - by rewrite length_replicate.
    - apply forest_replicate.
    - intros p q lp lq (_ & H & _). by destruct (Hb p).
    - intros p q lp lq (_ & H & _). by destruct (Hb p).
    - rewrite H3. unfold fresh_before, fresh_in_row. simpl. lia.
  Qed.

Lemma pass1_wp s :
    maxComponent s = mc → properties s = props0 → nextLabel s = 1 →
    wp (pass1 rows cols input (replicate (Z.to_nat mc) 0)) s
       (λ st s', inv1 rows 0 st.1 st.2 s') E1.
  Proof.
    intros H1 H2 H3. unfold pass1. apply wp_bind.
    eapply wp_mono;
      [apply (wp_for (λ y st s, inv1 y 0 st.1.1 st.1.2 s ∧ st.2 = prev_ptr_at cols y)
                E1 _ rows O (input, replicate (Z.to_nat mc) 0, None) s)
      | |done].
    - split; [by apply inv1_init|done].
    - intros y st t Hy Hi. apply pass1_row_wp; [lia|done].
    - intros st t [Hi _]. by apply wp_ret.
  Qed.
End pass1_invariant.

(** * The second pass *)

(** Number of non-zero entries. *)
Definition count_nz (l : list Z) : nat := length (filter (λ v, v ≠ 0) l).

Lemma count_nz_cons v l :
  count_nz (v :: l) = ((if decide (v = 0%Z) then 0 else 1) + count_nz l)%nat.
Proof.
  unfold count_nz. rewrite filter_cons.
  destruct (decide (v ≠ 0)), (decide (v = 0)); try done; by destruct n.
Qed.

Lemma count_nz_replicate n : count_nz (replicate n 0) = O.
Proof.
  induction n as [|n IH]; [done|].
  cbn [replicate]. rewrite count_nz_cons, IH. by destruct (decide (0 = 0)).
Qed.

Lemma count_nz_le l : (count_nz l ≤ length l)%nat.
Proof. apply length_filter. Qed.

Lemma count_nz_insert l : ∀ i v,
  l !! i = Some 0 → v ≠ 0 → count_nz (<[i := v]> l) = S (count_nz l).
Proof.
  induction l as [|w l IH]; intros [|i] v Hi Hv; try done.
  - injection Hi as ->. cbn [list_insert insert]. rewrite !count_nz_cons.
    destruct (decide (v = 0)); [done|]. by destruct (decide (0 = 0)).
  - change (<[S i := v]> (w :: l)) with (w :: <[i := v]> l).
    rewrite !count_nz_cons, (IH i v) by done. lia.
Qed.

Lemma count_nz_zero l i : l !! i = Some 0 → (count_nz l < length l)%nat.
Proof.
  revert i. induction l as [|w l IH]; intros [|i] Hi; try done.
  - injection Hi as ->. rewrite count_nz_cons. simpl.
    pose proof (count_nz_le l). lia.
  - rewrite count_nz_cons. simpl. specialize (IH i Hi).
    destruct (decide (w = 0)); lia.
Qed.

Lemma count_nz_two_zeros l : ∀ i j,
  l !! i = Some 0 → l !! j = Some 0 → i ≠ j → (count_nz l + 2 ≤ length l)%nat.
Proof.
  induction l as [|w l IH]; intros [|i] [|j] Hi Hj Hne; try done.
  - injection Hi as ->. rewrite count_nz_cons. simpl.
    pose proof (count_nz_zero l j Hj). lia.
  - injection Hj as ->. rewrite count_nz_cons. simpl.
    pose proof (count_nz_zero l i Hi). lia.
  - rewrite count_nz_cons. simpl.
    assert (i ≠ j) as Hne' by congruence. specialize (IH i j Hi Hj Hne').
    destruct (decide (w = 0)); lia.
Qed.

Section disjointFind_steps.
Context (n : Z) (parent labels : list Z) (a r : Z) (s : ConnectedComponent).
Hypothesis Hforest : forest n parent.
Hypothesis Hlen : n <= Z.of_nat (length parent).
Hypothesis Ha : 1 <= a < n.
Hypothesis Hr : reaches parent a r.

Lemma disjointFind_chase : chase (chase_fuel parent) parent a = Ok r.
  Proof.
    destruct (chase_fuel_total n parent a) as (r' & Hc & _ & _ & Hr'); try done; [lia|].
    by rewrite (reaches_fun _ _ _ _ Hr Hr').
  Qed.

  (** The root has no compact label yet: it takes the next one. *)
Lemma disjointFind_new :
    labels !! Z.to_nat r = Some 0 → in_int (nextLabel s + 1) →
    disjointFind a parent labels s
    = (Ok (nextLabel s, <[Z.to_nat r := nextLabel s]> labels),
       with_nextLabel s (nextLabel s + 1)).
  Proof.
    intros Hl Hint. unfold disjointFind.
    pose proof (reaches_bound n parent a r Hforest Hr) as [Har _].
    assert (vec_at labels r = Ok 0) as Hat by (apply vec_at_Ok; split; [lia|done]).
    assert (Z.to_nat r < length labels)%nat as Hlt by by eapply lookup_lt_Some.
    rewrite bind_eq, lift_eq, disjointFind_chase.
    rewrite bind_eq, lift_eq, Hat. cbn [Z.eqb].
    rewrite bind_eq, bind_eq. unfold get_nextLabel. rewrite bind_eq.
    unfold set_nextLabel. rewrite lift_eq.
    assert (vec_set labels r (nextLabel s) = Ok (<[Z.to_nat r := nextLabel s]> labels))
      as -> by (apply vec_set_Ok; split; [lia|done]).
    rewrite bind_eq, lift_eq.
    assert (vec_at (<[Z.to_nat r := nextLabel s]> labels) r = Ok (nextLabel s)) as ->.
    { rewrite vec_at_insert by lia. by destruct (decide (r = r)). }
    rewrite ret_eq, int_wrap_id by done. done.
  Qed.

  (** The root already has a compact label. *)
Lemma disjointFind_old l :
    labels !! Z.to_nat r = Some l → l ≠ 0 →
    disjointFind a parent labels s = (Ok (l, labels), s).
  Proof.
    intros Hl Hl0. unfold disjointFind.
    pose proof (reaches_bound n parent a r Hforest Hr) as [Har _].
    assert (vec_at labels r = Ok l) as Hat by (apply vec_at_Ok; split; [lia|done]).
    rewrite bind_eq, lift_eq, disjointFind_chase.
    rewrite bind_eq, lift_eq, Hat.
    destruct (Z.eqb_spec l 0); [done|].
    rewrite bind_eq, ret_eq, bind_eq, lift_eq, Hat. done.
  Qed.
End disjointFind_steps.

Section pass2_steps.
Context (cols : nat) (y x : nat) (linked data labels_set temp : list Z)
          (s : ConnectedComponent).
Let k : nat := idx cols (y, x).
Let run := pass2_pixel linked (row_ptr cols y) x (data, labels_set, temp) s.

Lemma pass2_pixel_background :
    data !! k = Some 0 → run = (Ok (data, labels_set, temp), s).
  Proof.
    intros Hv. subst run k. unfold pass2_pixel.
    assert (px_at data (row_ptr cols y) x = Ok 0) as Hpx by by apply px_at_Ok.
    rewrite bind_eq, lift_eq, Hpx. done.
  Qed.

Lemma pass2_pixel_foreground v f labels' s' :
    data !! k = Some v → v ≠ 0 →
    disjointFind v linked labels_set s = (Ok (f, labels'), s') →
    run = (Ok (<[k := f]> data, labels', temp ++ [f]), s').
  Proof.
    intros Hv Hv0 Hfind. subst run k. unfold pass2_pixel.
    assert (px_at data (row_ptr cols y) x = Ok v) as Hpx by by apply px_at_Ok.
    rewrite bind_eq, lift_eq, Hpx.
    destruct (Z.eqb_spec v 0); [done|]. cbn [negb].
    rewrite bind_eq, Hfind. cbn [fst snd].
    assert (idx cols (y, x) < length data)%nat as Hlt by by eapply lookup_lt_Some.
    assert (px_set data (row_ptr cols y) x f = Ok (<[idx cols (y, x) := f]> data))
      as Hset by by apply px_set_Ok.
    rewrite bind_eq, lift_eq, Hset, bind_eq, lift_eq.
    assert (px_at (<[idx cols (y, x) := f]> data) (row_ptr cols y) x = Ok f) as ->.
    { apply px_at_Ok. by apply list_lookup_insert_eq. }
    done.
  Qed.
End pass2_steps.

Section pass2_invariant.
Context (image : Mat) (mc : Z) (props0 : list ComponentProperty).
Context (data1 linked : list Z) (n1 : Z).
Let rows : nat := mat_rows image.
Let cols : nat := mat_cols image.
Hypothesis Hlen1 : length data1 = (rows * cols)%nat.
Hypothesis Hlab1 : ∀ p l, in_image rows cols p → data1 !! idx cols p = Some l →
                            l = 0 ∨ 1 <= l < n1.
Hypothesis Hforest : forest n1 linked.
Hypothesis Hllen : length linked = Z.to_nat mc.
Hypothesis Hn1 : n1 = 1 ∨ n1 < mc.
Hypothesis Hmc : mc <= int_max.

Record inv2 (y x : nat) (data labels_set temp : list Z)
      (s : ConnectedComponent) : Prop := {
    j_len : length data = length data1;
    j_rest : ∀ p, in_image rows cols p → ¬ before p y x →
             data !! idx cols p = data1 !! idx cols p;
    j_done : ∀ p l, in_image rows cols p → before p y x →
             data1 !! idx cols p = Some l →
             ∃ f, data !! idx cols p = Some f ∧ (l = 0 → f = 0) ∧
                  (l ≠ 0 → f ≠ 0 ∧ ∃ r, reaches linked l r
                                        ∧ labels_set !! Z.to_nat r = Some f);
    j_llen : length labels_set = Z.to_nat mc;
    j_range : ∀ r f, labels_set !! r = Some f → f = 0 ∨ 1 <= f < nextLabel s;
    j_inj : ∀ r r' f, labels_set !! r = Some f → labels_set !! r' = Some f →
            f ≠ 0 → r = r';
    j_surj : ∀ f, 1 <= f < nextLabel s →
             ∃ p, in_image rows cols p ∧ before p y x ∧ data !! idx cols p = Some f;
    j_next : 1 <= nextLabel s;
    j_count : nextLabel s - 1 = Z.of_nat (count_nz labels_set);
    j_zero : ∀ f, labels_set !! O = Some f → f = 0;
    j_mc : maxComponent s = mc;
    j_props : properties s = props0;
    j_temp : ∀ v, v ∈ temp ↔
             ∃ p, in_image rows cols p ∧ before p y x
                  ∧ data !! idx cols p = Some v ∧ v ≠ 0
  }.

Section pixel.
Context (y x : nat) (data labels_set temp : list Z) (s : ConnectedComponent).
Hypothesis Hy : (y < rows)%nat.
Hypothesis Hx : (x < cols)%nat.
Hypothesis Hinv : inv2 y x data labels_set temp s.
Let p0 : pixel := (y, x).
Let k0 : nat := idx cols p0.

Lemma k0_lt2 : (k0 < length data)%nat.
    Proof.
      rewrite (j_len _ _ _ _ _ _ Hinv), Hlen1. by apply idx_lt.
    Qed.

Lemma data_p02 : data !! k0 = data1 !! k0.
    Proof. apply (j_rest _ _ _ _ _ _ Hinv); [done|apply before_irrefl]. Qed.

Lemma insert_other f p :
      in_image rows cols p → p ≠ p0 →
      <[k0 := f]> data !! idx cols p = data !! idx cols p.
    Proof.
      intros Hp Hne. apply list_lookup_insert_ne. intros Heq.
      apply Hne. symmetry. eapply idx_inj; [apply Hx|apply Hp|done].
    Qed.

Lemma step2_background :
      data !! k0 = Some 0 → inv2 y (S x) data labels_set temp s.
    Proof.
      intros H0. destruct Hinv. split; try done.
      - intros p Hp Hnb. apply j_rest0; [done|]. intros Hb. apply Hnb.
        apply before_next. by left.
      - intros p l Hp [Hb| ->]%before_next Hl; [by apply j_done0|].
        fold p0 k0 in Hl |- *. rewrite <-data_p02, H0 in Hl. injection Hl as <-.
        exists 0. split; [done|]. split; [done|]. done.
      - intros f Hf. destruct (j_surj0 f Hf) as (p & Hp & Hb & Hd).
        exists p. split; [done|]. split; [|done]. apply before_next. by left.
      - intros v. rewrite j_temp0. split.
        + intros (p & Hp & Hb & Hd & Hv). exists p. repeat split; try done; try apply Hp.
          apply before_next. by left.
        + intros (p & Hp & [Hb| ->]%before_next & Hd & Hv).
          * exists p. done.
          * fold p0 k0 in Hd. congruence.
    Qed.

    (** Common part of the two foreground cases: the pixel takes the compact
        label [f] of its root [r]. *)
Lemma step2_foreground l r f labels' s' :
      data !! k0 = Some l → l ≠ 0 → reaches linked l r →
      labels' !! Z.to_nat r = Some f → f ≠ 0 → 1 <= f < nextLabel s' →
      (∀ i g, labels_set !! i = Some g → g ≠ 0 → labels' !! i = Some g) →
      length labels' = Z.to_nat mc →
      (∀ i g, labels' !! i = Some g → g = 0 ∨ 1 <= g < nextLabel s') →
      (∀ i i' g, labels' !! i = Some g → labels' !! i' = Some g → g ≠ 0 → i = i') →
      (∀ g, 1 <= g < nextLabel s' → g = f ∨ 1 <= g < nextLabel s) →
      nextLabel s' - 1 = Z.of_nat (count_nz labels') →
      (∀ g, labels' !! O = Some g → g = 0) →
      maxComponent s' = mc → properties s' = props0 →
      inv2 y (S x) (<[k0 := f]> data) labels' (temp ++ [f]) s'.
    Proof.
      intros Hl Hl0 Hr Hf Hf0 Hfr Hkeep Hlen' Hrange' Hinj' Hsurj' Hcount' Hzero'
             Hmc' Hprops'.
      destruct Hinv. split; try done.
      - by rewrite length_insert.
      - intros p Hp Hnb. rewrite insert_other; [|done|].
        + apply j_rest0; [done|]. intros Hb. apply Hnb, before_next. by left.
        + intros ->. apply Hnb, before_next. by right.
      - intros p l' Hp [Hb| ->]%before_next Hl'.
        + destruct (j_done0 p l' Hp Hb Hl') as (g & Hg & Hz & Hnz).
          exists g. rewrite insert_other; [|done|by intros ->; apply before_irrefl in Hb].
          split; [done|]. split; [done|]. intros Hl'0.
          destruct (Hnz Hl'0) as (Hg0 & r' & Hr' & Hlr'). split; [done|].
          exists r'. split; [done|]. by apply Hkeep.
        + exists f. fold p0 k0 in Hl' |- *.
          rewrite list_lookup_insert_eq by apply k0_lt2. split; [done|].
          rewrite <-data_p02, Hl in Hl'. injection Hl' as <-.
          split; [done|]. intros _. split; [done|]. by exists r.
      - intros g Hg. destruct (Hsurj' g Hg) as [->|Hg'].
        + exists p0. split; [done|]. split; [apply before_next; by right|].
          apply list_lookup_insert_eq, k0_lt2.
        + destruct (j_surj0 g Hg') as (p & Hp & Hb & Hd). exists p.
          split; [done|]. split; [apply before_next; by left|].
          rewrite insert_other; [done|done|]. intros ->. by apply before_irrefl in Hb.
      - lia.
      - intros v. rewrite elem_of_app, list_elem_of_singleton, j_temp0. split.
        + intros [(p & Hp & Hb & Hd & Hv)| ->].
          * exists p. split; [done|]. split; [apply before_next; by left|].
            split; [|done]. rewrite insert_other; [done|done|].
            intros ->. by apply before_irrefl in Hb.
          * exists p0. split; [done|]. split; [apply before_next; by right|].
            split; [|done]. apply list_lookup_insert_eq, k0_lt2.
        + intros (p & Hp & [Hb| ->]%before_next & Hd & Hv).
          * left. exists p. split; [done|]. split; [done|]. split; [|done].
            rewrite insert_other in Hd; [done|done|].
            intros ->. by apply before_irrefl in Hb.
          * right. fold p0 k0 in Hd.
            rewrite list_lookup_insert_eq in Hd by apply k0_lt2. congruence.
    Qed.

Lemma pass2_pixel_wp :
      wp (pass2_pixel linked (row_ptr cols y) x (data, labels_set, temp)) s
         (λ st s', inv2 y (S x) st.1.1 st.1.2 st.2 s') (λ _ _, False).
    Proof.
      destruct (lookup_lt_is_Some_2 data k0 k0_lt2) as [l Hl].
      unfold wp. destruct (decide (l = 0)) as [->|Hl0].
      { rewrite pass2_pixel_background by done. by apply step2_background. }
      assert (1 <= l < n1) as Hlr.
      { destruct (Hlab1 p0 l) as [?|?]; [done| |done|done].
        fold k0. by rewrite <-data_p02. }
      assert (n1 <= Z.of_nat (length linked)) as Hn1' by (rewrite Hllen; lia).
      destruct (forest_reaches n1 linked l Hforest Hn1') as (r & Hr & Hlr' & Hrn);
        [lia|].
      assert (1 <= r < n1) as Hrr by lia.
      destruct (lookup_lt_is_Some_2 labels_set (Z.to_nat r)) as [g Hg].
      { rewrite (j_llen _ _ _ _ _ _ Hinv). lia. }
      pose proof Hinv as [].
      destruct (decide (g = 0)) as [->|Hg0].
      - (* a new compact label *)
        destruct (lookup_lt_is_Some_2 labels_set O) as [z Hz]; [lia|].
        pose proof (j_zero0 z Hz) as ->.
        pose proof (count_nz_two_zeros labels_set O (Z.to_nat r) Hz Hg ltac:(lia))
          as Hcnt.
        assert (in_int (nextLabel s + 1)) as Hint.
        { unfold in_int, int_min, int_max in *. lia. }
        rewrite (pass2_pixel_foreground _ _ _ _ _ _ _ _ l (nextLabel s)
                  (<[Z.to_nat r := nextLabel s]> labels_set)
                  (with_nextLabel s (nextLabel s + 1))); [|done|done|].
        2:{ by apply (disjointFind_new n1 linked labels_set l r s). }
        cbn [fst snd].
        assert (Z.to_nat r < length labels_set)%nat as Hrl by by eapply lookup_lt_Some.
        apply (step2_foreground l r); cbn [nextLabel maxComponent properties with_nextLabel];
          try done; try lia.
        + by apply list_lookup_insert_eq.
        + intros i h Hi Hh. rewrite list_lookup_insert_ne; [done|]. congruence.
        + by rewrite length_insert.
        + intros i h Hi. destruct (decide (i = Z.to_nat r)) as [->|Hne].
          * rewrite list_lookup_insert_eq in Hi by done. injection Hi as <-. lia.
          * rewrite list_lookup_insert_ne in Hi by done.
            destruct (j_range0 i h Hi); [by left|right; lia].
        + intros i i' h Hi Hi' Hh.
          destruct (decide (i = Z.to_nat r)) as [->|Hne],
                   (decide (i' = Z.to_nat r)) as [->|Hne']; try done.
          * rewrite list_lookup_insert_eq in Hi by done. injection Hi as <-.
            rewrite list_lookup_insert_ne in Hi' by done.
            destruct (j_range0 i' _ Hi'); lia.
          * rewrite list_lookup_insert_eq in Hi' by done. injection Hi' as <-.
            rewrite list_lookup_insert_ne in Hi by done.
            destruct (j_range0 i _ Hi); lia.
          * rewrite list_lookup_insert_ne in Hi, Hi' by done. by eapply j_inj0.
        + rewrite count_nz_insert by (done || lia). lia.
        + intros h Hh. rewrite list_lookup_insert_ne in Hh by lia. by apply j_zero0.
      - (* the root was met before *)
        rewrite (pass2_pixel_foreground _ _ _ _ _ _ _ _ l g labels_set s);
          [|done|done|].
        2:{ by apply (disjointFind_old n1 linked labels_set l r s). }
        cbn [fst snd].
        destruct (j_range0 _ _ Hg) as [?|Hgr]; [done|].
        apply (step2_foreground l r); try done. intros h Hh. by right.
    Qed.
End pixel.

Lemma inv2_row_end y data labels_set temp s :
    inv2 y cols data labels_set temp s → inv2 (S y) 0 data labels_set temp s.
  Proof.
    assert (∀ p, in_image rows cols p → before p y cols ↔ before p (S y) 0) as Hb.
    { intros [y' x'] [_ Hx']. unfold before. simpl in *. lia. }
    intros []. split; try done.
    - intros p Hp Hnb. apply j_rest0; [done|]. intros H. by apply Hnb, Hb.
    - intros p v Hp Hbp. apply j_done0; [done|]. by apply Hb.
    - intros f Hf. destruct (j_surj0 f Hf) as (p & Hp & Hbp & Hd).
      exists p. split; [done|]. split; [by apply Hb|done].
    - intros v. rewrite j_temp0. split; intros (p & Hp & Hbp & Hd); exists p;
        (split; [done|]); (split; [by apply Hb|done]).
  Qed.

Lemma inv2_init s :
    maxComponent s = mc → properties s = props0 → nextLabel s = 1 →
    inv2 0 0 data1 (replicate (Z.to_nat mc) 0) [] s.
  Proof.
    intros H1 H2 H3.
    assert (∀ p, ¬ before p 0 0) as Hb.
    { intros [y x]. unfold before. simpl. lia. }
    split; try done.
    - intros p v _ H. by destruct (Hb p).
    - by rewrite length_replicate.
    - intros r f [-> _]%lookup_replicate. by left.
    - intros r r' f [-> _]%lookup_replicate. done.
    - intros f Hf. lia.
    - lia.
    - by rewrite H3, count_nz_replicate.
    - by intros f [-> _]%lookup_replicate.
    - intros v. split; [by intros ?%elem_of_nil|].
      intros (p & _ & H & _). by destruct (Hb p).
  Qed.

Lemma pass2_wp s :
    maxComponent s = mc → properties s = props0 → nextLabel s = 1 →
    wp (pass2 rows cols linked data1 (replicate (Z.to_nat mc) 0)) s
       (λ st s', inv2 rows 0 st.1.1 st.1.2 st.2 s') (λ _ _, False).
  Proof.
    intros H1 H2 H3. unfold pass2.
    apply (wp_for (λ y st s, inv2 y 0 st.1.1 st.1.2 st.2 s) (λ _ _, False) _ rows O
             (data1, replicate (Z.to_nat mc) 0, []) s).
    - by apply inv2_init.
    - intros y [[d l] t] u Hy Hi. unfold pass2_row.
      eapply wp_mono;
        [apply (wp_for (λ x st s, inv2 y x st.1.1 st.1.2 st.2 s) (λ _ _, False) _
                  cols O (d, l, t) u)
        | |done].
      + done.
      + intros x [[d' l'] t'] u' Hx Hi'. apply pass2_pixel_wp; [lia|lia|done].
      + intros [[d' l'] t'] u' Hi'. simpl in *. by apply inv2_row_end.
  Qed.
End pass2_invariant.

(** * The property records *)

Definition with_properties (s : ConnectedComponent) (ps : list ComponentProperty)
    : ConnectedComponent :=
  mkConnectedComponent (maxComponent s) (nextLabel s) ps.

(** The record [apply] stores for the final label [l]. *)
Definition property_of (result : Mat) (l : Z) : ComponentProperty :=
  let blob := mat_eq_scalar result l in
  let moment := cv_moments blob in
  mkComponentProperty l (countNonZero blob)
    (calculateBlobEccentricity moment) (calculateBlobCentroid moment).

Lemma update_property_eq i f s p :
  properties s !! i = Some p →
  update_property i f s = (Ok tt, with_properties s (<[i := f p]> (properties s))).
Proof.
  intros Hp. unfold update_property. rewrite bind_eq. unfold get_properties.
  rewrite Hp. done.
Qed.

Lemma property_step_eq result labels i l p s :
  labels !! i = Some l → properties s !! i = Some p →
  property_step result labels i tt s
  = (Ok tt, with_properties s (<[i := property_of result l]> (properties s))).
Proof.
  intros Hl Hp. unfold property_step.
  assert (vec_at labels (Z.of_nat i) = Ok l) as Hat.
  { apply vec_at_Ok. split; [lia|]. by rewrite Nat2Z.id. }
  assert (i < length (properties s))%nat as Hlt by by eapply lookup_lt_Some.
  rewrite bind_eq, lift_eq, Hat. cbv zeta. rewrite bind_eq, lift_eq.
  rewrite bind_eq, (update_property_eq _ _ _ p) by done.
  rewrite bind_eq. erewrite update_property_eq
    by (cbn [properties with_properties]; by apply list_lookup_insert_eq).
  cbn [properties with_properties]. rewrite list_insert_insert_eq.
  rewrite bind_eq. erewrite update_property_eq
    by (cbn [properties with_properties]; by apply list_lookup_insert_eq).
  cbn [properties with_properties]. rewrite list_insert_insert_eq.
  erewrite update_property_eq
    by (cbn [properties with_properties]; by apply list_lookup_insert_eq).
  cbn [properties with_properties labelID area eccentricity centroid
       maxComponent nextLabel].
  rewrite list_insert_insert_eq. done.
Qed.

(** The loop over the labels overwrites every record. *)
Lemma property_loop result labels s :
  length (properties s) = length labels →
  for_ (length labels) 0 (property_step result labels) tt s
  = (Ok tt, with_properties s (property_of result <$> labels)).
Proof.
  intros Hlen.
  pose proof (wp_for
    (λ i (_ : unit) t,
       maxComponent t = maxComponent s ∧ nextLabel t = nextLabel s ∧
       length (properties t) = length labels ∧
       ∀ j, (j < i)%nat → properties t !! j = property_of result <$> labels !! j)
    (λ _ _, False) (property_step result labels) (length labels) O tt s) as H.
  unfold wp in H.
  destruct (for_ (length labels) 0 (property_step result labels) tt s) as [[[]|e] t].
  - destruct H as (H1 & H2 & H3 & H4).
    + repeat split; try done. lia.
    + intros j [] u Hj (Hu1 & Hu2 & Hu3 & Hu4). unfold wp.
      destruct (lookup_lt_is_Some_2 labels j) as [l Hl]; [lia|].
      destruct (lookup_lt_is_Some_2 (properties u) j) as [p Hp]; [lia|].
      rewrite (property_step_eq result labels j l p u) by done.
      cbn [maxComponent nextLabel properties with_properties].
      split; [done|]. split; [done|]. split; [by rewrite length_insert|].
      intros j' Hj'. destruct (decide (j' = j)) as [->|Hne].
      * rewrite list_lookup_insert_eq by lia. by rewrite Hl.
      * rewrite list_lookup_insert_ne by done. apply Hu4. lia.
    + f_equal. destruct t as [tm tn tp]. unfold with_properties. simpl in *.
      f_equal; try done. apply list_eq. intros j.
      destruct (decide (j < length labels)%nat) as [Hj|Hj].
      * rewrite H4 by lia. by rewrite list_lookup_fmap.
      * rewrite !lookup_ge_None_2; [done| |lia]. rewrite length_fmap. lia.
  - exfalso. apply H.
    + repeat split; try done. lia.
    + intros j [] u Hj (Hu1 & Hu2 & Hu3 & Hu4). unfold wp.
      destruct (lookup_lt_is_Some_2 labels j) as [l Hl]; [lia|].
      destruct (lookup_lt_is_Some_2 (properties u) j) as [p Hp]; [lia|].
      rewrite (property_step_eq result labels j l p u) by done.
      cbn [maxComponent nextLabel properties with_properties].
      split; [done|]. split; [done|]. split; [by rewrite length_insert|].
      intros j' Hj'. destruct (decide (j' = j)) as [->|Hne].
      * rewrite list_lookup_insert_eq by lia. by rewrite Hl.
      * rewrite list_lookup_insert_ne by done. apply Hu4. lia.
Qed.

(** * [apply] in stages *)

(** The labels that drive the property computation. *)
Definition final_labels (temp : list Z) : list Z :=
  if decide (temp = []) then [] else unique_copy (std_sort temp).

Lemma apply_stages image s :
  mat_type image = CV_8UC1 →
  apply image s =
    if maxComponent s <? 0 then (Throw LengthError, with_nextLabel s 1)
    else
      match pass1 (mat_rows image) (mat_cols image) (mat_data image)
                  (replicate (Z.to_nat (maxComponent s)) 0) (with_nextLabel s 1) with
      | (Throw e, s1) => (Throw e, s1)
      | (Ok st1, s1) =>
          if maxComponent s1 <? 0 then (Throw LengthError, with_nextLabel s1 1)
          else
            match pass2 (mat_rows image) (mat_cols image) st1.2 st1.1
                        (replicate (Z.to_nat (maxComponent s1)) 0)
                        (with_nextLabel s1 1) with
            | (Throw e, s2) => (Throw e, s2)
            | (Ok st2, s2) =>
                let result :=
                  mkMat CV_32SC1 (mat_rows image) (mat_cols image) st2.1.1 in
                (Ok result,
                 with_properties s2 (property_of result <$> final_labels st2.2))
            end
      end.
Proof.
  intros Hty. unfold apply. destruct (decide (mat_type image = CV_8UC1)) as [_|]; [|done].
  cbn [convertTo mat_rows mat_cols mat_data]. cbv zeta.
  rewrite bind_eq. unfold set_nextLabel at 1. fold (with_nextLabel s 1).
  rewrite bind_eq. unfold get_maxComponent at 1.
  cbn [maxComponent with_nextLabel]. rewrite bind_eq. unfold vector_new at 1.
  destruct (maxComponent s <? 0); [done|]. rewrite ret_eq, bind_eq.
  destruct (pass1 _ _ _ _ _) as [[st1|e] s1]; [|done].
  rewrite bind_eq. unfold set_nextLabel at 1. fold (with_nextLabel s1 1).
  rewrite bind_eq. unfold get_maxComponent at 1.
  cbn [maxComponent with_nextLabel]. rewrite bind_eq. unfold vector_new at 1.
  destruct (maxComponent s1 <? 0); [done|]. rewrite ret_eq, bind_eq.
  destruct (pass2 _ _ _ _ _ _) as [[st2|e] s2]; [|done].
  fold (final_labels st2.2).
  rewrite bind_eq. unfold get_properties at 1. rewrite bind_eq.
  unfold set_properties at 1.
  fold (with_properties s2 (resize (length (final_labels st2.2))
                              ComponentProperty_zero (properties s2))).
  rewrite bind_eq, property_loop
    by (cbn [properties with_properties]; apply length_resize).
  rewrite ret_eq. done.
Qed.

(** * Independence from the stored records *)

(** A computation that neither reads nor writes [properties]. *)
Definition props_indep {A} (m : M A) : Prop :=
  ∀ s ps, m (with_properties s ps) = ((m s).1, with_properties (m s).2 ps).

Lemma indep_ret {A} (a : A) : props_indep (mret a).
Proof. done. Qed.

Lemma indep_throw {A} e : props_indep (throw (A := A) e).
Proof. done. Qed.

Lemma indep_lift {A} (o : outcome A) : props_indep (lift o).
Proof. done. Qed.

Lemma indep_get_nextLabel : props_indep get_nextLabel.
Proof. done. Qed.

Lemma indep_get_maxComponent : props_indep get_maxComponent.
Proof. done. Qed.

Lemma indep_set_nextLabel v : props_indep (set_nextLabel v).
Proof. done. Qed.

Lemma indep_bind {A B} (m : M A) (f : A → M B) :
  props_indep m → (∀ a, props_indep (f a)) → props_indep (m ≫= f).
Proof.
  intros Hm Hf s ps. rewrite !bind_eq, Hm.
  destruct (m s) as [[a|e] s']; [|done]. apply Hf.
Qed.

Lemma indep_for {A} (body : nat → A → M A) n :
  (∀ i a, props_indep (body i a)) → ∀ i a, props_indep (for_ n i body a).
Proof.
  intros Hb. induction n as [|n IH]; intros i a; [apply indep_ret|].
  apply indep_bind; [apply Hb|]. intros b. apply IH.
Qed.

Lemma indep_foreach {A B} (body : B → A → M A) l :
  (∀ v a, props_indep (body v a)) → ∀ a, props_indep (foreach l body a).
Proof.
  intros Hb. induction l as [|v l IH]; intros a; [apply indep_ret|].
  apply indep_bind; [apply Hb|]. intros b. apply IH.
Qed.

Ltac indep :=
  repeat first
    [ apply indep_ret | apply indep_throw | apply indep_lift
    | apply indep_get_nextLabel | apply indep_get_maxComponent
    | apply indep_set_nextLabel
    | apply indep_bind; [|intros ?]
    | apply indep_for; intros ? ?
    | apply indep_foreach; intros ? ?
    | match goal with
      | |- props_indep (if ?c then _ else _) => destruct c
      | |- props_indep (let '(_, _) := ?p in _) => destruct p
      end ].

Lemma pass1_indep rows cols data linked : props_indep (pass1 rows cols data linked).
Proof.
  unfold pass1. apply indep_bind; [|intros; apply indep_ret].
  apply indep_for. intros y [[d l] pp]. unfold pass1_row.
  apply indep_bind; [|intros; apply indep_ret].
  apply indep_for. intros x st. unfold pass1_pixel. indep.
Qed.

Lemma disjointFind_indep a parent labels : props_indep (disjointFind a parent labels).
Proof. unfold disjointFind. indep. Qed.

Lemma pass2_indep rows cols linked data labels_set :
  props_indep (pass2 rows cols linked data labels_set).
Proof.
  unfold pass2. apply indep_for. intros y st. unfold pass2_row.
  apply indep_for. intros x [[d l] t]. unfold pass2_pixel.
  apply indep_bind; [apply indep_lift|]. intros v.
  destruct (negb (v =? 0)); [|apply indep_ret].
  apply indep_bind; [apply disjointFind_indep|]. intros r. indep.
Qed.

(** * What a run of [apply] establishes *)

(** The facts that hold of a successful run: the state between the passes
    satisfies the first invariant, the final state satisfies the second, and
    the records are those of the final labels. *)
Definition apply_run (image : Mat) (s : ConnectedComponent)
    (result : Mat) (s' : ConnectedComponent) : Prop :=
  ∃ data1 linked s1 labels_set temp s2,
    inv1 image (maxComponent s) (properties s) (mat_rows image) 0 data1 linked s1 ∧
    inv2 image (maxComponent s) (properties s) data1 linked
         (mat_rows image) 0 (mat_data result) labels_set temp s2 ∧
    result = mkMat CV_32SC1 (mat_rows image) (mat_cols image) (mat_data result) ∧
    s' = with_properties s2 (property_of result <$> final_labels temp).

Lemma inv1_labels image mc props data1 linked s1 :
  length (mat_data image) = (mat_rows image * mat_cols image)%nat →
  inv1 image mc props (mat_rows image) 0 data1 linked s1 →
  ∀ p l, in_image (mat_rows image) (mat_cols image) p →
         data1 !! idx (mat_cols image) p = Some l → l = 0 ∨ 1 <= l < nextLabel s1.
Proof.
  intros Hlen Hinv p l Hp Hl.
  destruct (input_lookup image Hlen p Hp) as [v Hv].
  destruct (i_done _ _ _ _ _ _ _ _ Hinv p v Hp) as (l' & Hl' & Hz & Hnz); [|done|].
  { left. apply Hp. }
  rewrite Hl in Hl'. injection Hl' as <-.
  destruct (decide (v = 0)) as [->|Hv0]; [left; by apply Hz|right; by apply Hnz].
Qed.

Lemma apply_cases image s :
  length (mat_data image) = (mat_rows image * mat_cols image)%nat →
  mat_type image = CV_8UC1 →
  0 <= maxComponent s <= int_max →
  (∃ result s', apply image s = (Ok result, s') ∧ apply_run image s result s')
  ∨ (∃ s', apply image s = (Throw LabelCapacityExceeded, s')
           ∧ E1 image (maxComponent s) (properties s) LabelCapacityExceeded s').
Proof.
  intros Hlen Hty [Hmc0 Hmc].
  rewrite apply_stages by done.
  destruct (Z.ltb_spec (maxComponent s) 0); [lia|].
  pose proof (pass1_wp image (maxComponent s) (properties s) Hlen Hmc
                (with_nextLabel s 1) eq_refl eq_refl eq_refl) as H1.
  unfold wp in H1.
  destruct (pass1 _ _ _ _ _) as [[[data1 linked]|e] s1]; cbn [fst snd] in *.
  2:{ right. exists s1. destruct H1 as [-> ?]. done. }
  pose proof (i_mc _ _ _ _ _ _ _ _ H1) as Hmc1.
  pose proof (i_props _ _ _ _ _ _ _ _ H1) as Hprops1.
  rewrite Hmc1. destruct (Z.ltb_spec (maxComponent s) 0); [lia|].
  pose proof (pass2_wp image (maxComponent s) (properties s) data1 linked
                (nextLabel s1)) as H2.
  specialize (H2 ltac:(by rewrite (i_len _ _ _ _ _ _ _ _ H1))).
  specialize (H2 (inv1_labels image _ _ data1 linked s1 Hlen H1)).
  specialize (H2 (i_forest _ _ _ _ _ _ _ _ H1) (i_llen _ _ _ _ _ _ _ _ H1)).
  specialize (H2 (proj2 (i_next _ _ _ _ _ _ _ _ H1)) Hmc (with_nextLabel s1 1)
                Hmc1 Hprops1 eq_refl).
  unfold wp in H2.
  destruct (pass2 _ _ _ _ _ _) as [[[[data2 labels_set] temp]|e] s2];
    cbn [fst snd] in *; [|done].
  left. eexists _, _. split; [done|].
  exists data1, linked, s1, labels_set, temp, s2. done.
Qed.

Lemma apply_ok_run image s result s' :
  wf_mat image → maxComponent s <= int_max →
  apply image s = (Ok result, s') → apply_run image s result s'.
Proof.
  intros [Hlen _] Hmc Happ.
  assert (mat_type image = CV_8UC1) as Hty.
  { unfold apply in Happ. by destruct (decide (mat_type image = CV_8UC1)). }
  assert (0 <= maxComponent s) as Hmc0.
  { rewrite apply_stages in Happ by done.
    by destruct (Z.ltb_spec (maxComponent s) 0). }
  destruct (apply_cases image s Hlen Hty) as [(r & t & Hr & Hrun)|(t & Ht & _)];
    [lia| |congruence].
  rewrite Happ in Hr. by injection Hr as <- <-.
Qed.

Lemma idx_surj rows cols i :
  (i < rows * cols)%nat → ∃ p, in_image rows cols p ∧ idx cols p = i.
Proof.
  intros Hi. assert (cols ≠ 0)%nat as Hc by (intros ->; lia).
  exists ((i / cols)%nat, (i mod cols)%nat). split; [split|]; simpl.
  - apply Nat.Div0.div_lt_upper_bound. lia.
  - by apply Nat.mod_upper_bound.
  - unfold idx, row_ptr. simpl. rewrite (Nat.div_mod i cols) at 3 by done. lia.
Qed.

(** The foreground of [img] has exactly [n] connected components: there are
    [n] foreground pixels, pairwise in different components, such that every
    foreground pixel is connected to one of them. *)
Definition component_count (img : Mat) (n : nat) : Prop :=
  ∃ reps : list pixel,
    length reps = n ∧
    (∀ p, p ∈ reps → foreground img p) ∧
    (∀ i j p q, reps !! i = Some p → reps !! j = Some q →
                connected img p q → i = j) ∧
    (∀ p, foreground img p → ∃ q, q ∈ reps ∧ connected img p q).

(** Occurrences of a value in a buffer. *)
Definition occurrences (l : Z) (data : list Z) : nat :=
  length (filter (λ e, e = l) data).

(** Sum of the [area] fields. *)
Definition total_area (ps : list ComponentProperty) : Z :=
  foldr Z.add 0 (area <$> ps).

Lemma countNonZero_mask result l :
  countNonZero (mat_eq_scalar result l) = Z.of_nat (occurrences l (mat_data result)).
Proof.
  unfold countNonZero, mat_eq_scalar, occurrences. cbn [mat_data]. f_equal.
  induction (mat_data result) as [|e data IH]; [done|].
  rewrite fmap_cons, !filter_cons.
  destruct (decide (e = l)) as [->|Hne].
  - destruct (decide (255 ≠ 0)) as [_|H]; [|by destruct H].
    simpl. by rewrite IH.
  - destruct (decide (0 ≠ 0)) as [H|_]; [done|]. exact IH.
Qed.

Lemma filter_length_ext (P Q : Z → Prop) `{∀ e, Decision (P e)} `{∀ e, Decision (Q e)}
    (data : list Z) :
  (∀ e, e ∈ data → (P e ↔ Q e)) →
  length (filter P data) = length (filter Q data).
Proof.
  induction data as [|e data IH]; intros Hext; [done|].
  rewrite !filter_cons.
  assert (length (filter P data) = length (filter Q data)) as IH'.
  { apply IH. intros e' He'. apply Hext. by right. }
  pose proof (Hext e ltac:(left)) as He.
  destruct (decide (P e)), (decide (Q e)); simpl; try lia; tauto.
Qed.

Lemma occurrences_split l ls data :
  l ∉ ls →
  length (filter (λ e, e ∈ l :: ls) data)
  = (occurrences l data + length (filter (λ e, e ∈ ls) data))%nat.
Proof.
  intros Hl. unfold occurrences.
  induction data as [|e data IH]; [done|].
  rewrite !filter_cons.
  destruct (decide (e = l)) as [->|Hne].
  - destruct (decide (l ∈ l :: ls)) as [_|H]; [|by destruct H; left].
    destruct (decide (l ∈ ls)); [done|]. simpl. lia.
  - destruct (decide (e ∈ ls)) as [Hin|Hnin].
    + destruct (decide (e ∈ l :: ls)) as [_|H]; [|by destruct H; right].
      simpl. lia.
    + destruct (decide (e ∈ l :: ls)) as [[?|?]%elem_of_cons|_]; [done|done|].
      exact IH.
Qed.

Lemma occurrences_sum labels data :
  NoDup labels →
  foldr Z.add 0 ((λ l, Z.of_nat (occurrences l data)) <$> labels)
  = Z.of_nat (length (filter (λ e, e ∈ labels) data)).
Proof.
  induction 1 as [|l ls Hl Hnd IH].
  - simpl. assert (length (filter (λ e, e ∈ []) data) = O) as ->; [|done].
    induction data as [|e data IHd]; [done|]. rewrite filter_cons.
    destruct (decide (e ∈ [])) as [H|_]; [by apply elem_of_nil in H|done].
  - rewrite fmap_cons. cbn [foldr]. rewrite IH, occurrences_split by done. lia.
Qed.

Lemma count_nz_pointwise l1 : ∀ l2,
  length l1 = length l2 →
  (∀ i a b, l1 !! i = Some a → l2 !! i = Some b → (a = 0 ↔ b = 0)) →
  count_nz l1 = count_nz l2.
Proof.
  induction l1 as [|a l1 IH]; intros [|b l2] Hlen Hpt; try done.
  rewrite !count_nz_cons. rewrite (IH l2).
  - pose proof (Hpt O a b eq_refl eq_refl).
    destruct (decide (a = 0)), (decide (b = 0)); try done; tauto.
  - simpl in Hlen. lia.
  - intros i a' b' Ha Hb. by apply (Hpt (S i)).
Qed.

Lemma range_length (l : list Z) n :
  NoDup l → (∀ v, v ∈ l ↔ 1 <= v < n) → length l = Z.to_nat (n - 1).
Proof.
  intros Hnd Hmem.
  assert (l ≡ₚ seqZ 1 (n - 1)) as ->.
  { apply NoDup_Permutation; [done|apply NoDup_seqZ|].
    intros v. rewrite Hmem, elem_of_seqZ. lia. }
  apply length_seqZ.
Qed.

Section final_state.
Context (image : Mat) (mc : Z) (props : list ComponentProperty).
Context (data1 linked : list Z) (s1 : ConnectedComponent).
Context (data2 labels_set temp : list Z) (s2 : ConnectedComponent).
Let rows : nat := mat_rows image.
Let cols : nat := mat_cols image.
Let input : list Z := mat_data image.
Hypothesis Hlen : length input = (rows * cols)%nat.
Hypothesis H1 : inv1 image mc props rows 0 data1 linked s1.
Hypothesis H2 : inv2 image mc props data1 linked rows 0 data2 labels_set temp s2.

Lemma before_all p : in_image rows cols p → before p rows 0.
  Proof. intros [Hy _]. by left. Qed.

Lemma final_length : length data2 = (rows * cols)%nat.
  Proof.
    by rewrite (j_len _ _ _ _ _ _ _ _ _ _ _ H2), (i_len _ _ _ _ _ _ _ _ H1).
  Qed.

Lemma fg_labelled p :
    foreground image p → ∃ l, labelled image data1 rows 0 p l.
  Proof.
    intros Hp. apply (labelled_of_fg image mc props Hlen rows 0 data1 linked s1 H1 p Hp).
    apply before_all, Hp.
  Qed.

Lemma labelled_root p l :
    labelled image data1 rows 0 p l →
    ∃ r, reaches linked l r ∧ 1 <= r.
  Proof.
    intros Hl. destruct (labelled_range image mc props Hlen _ _ _ _ _ H1 p l Hl)
      as [_ Hr].
    pose proof (i_next _ _ _ _ _ _ _ _ H1) as [_ Hn].
    destruct (forest_reaches (nextLabel s1) linked l) as (r & Hreach & Hle & _).
    - apply (i_forest _ _ _ _ _ _ _ _ H1).
    - rewrite (i_llen _ _ _ _ _ _ _ _ H1). lia.
    - rewrite (i_llen _ _ _ _ _ _ _ _ H1). lia.
    - exists r. split; [done|lia].
  Qed.

  (** The final label of a foreground pixel is the compact label of the root
      of its provisional label. *)
Lemma fg_resolved p :
    foreground image p →
    ∃ l r f, labelled image data1 rows 0 p l ∧ reaches linked l r ∧ 1 <= r ∧
             labels_set !! Z.to_nat r = Some f ∧ 1 <= f < nextLabel s2 ∧
             data2 !! idx cols p = Some f.
  Proof.
    intros Hp. destruct (fg_labelled p Hp) as [l Hl].
    pose proof Hl as (Hin & Hb & Hd & Hl0).
    destruct (j_done _ _ _ _ _ _ _ _ _ _ _ H2 p l Hin Hb Hd) as (f & Hf & _ & Hnz).
    destruct (Hnz Hl0) as (Hf0 & r & Hr & Hlr).
    destruct (labelled_root p l Hl) as (r' & Hr' & Hr1).
    rewrite (reaches_fun _ _ _ _ Hr' Hr) in Hr1.
    exists l, r, f. split; [done|]. split; [done|]. split; [done|].
    split; [done|]. split; [|done].
    destruct (j_range _ _ _ _ _ _ _ _ _ _ _ H2 _ _ Hlr); [done|lia].
  Qed.

Lemma bg_stays p :
    in_image rows cols p → input !! idx cols p = Some 0 →
    data2 !! idx cols p = Some 0.
  Proof.
    intros Hp Hv.
    destruct (i_done _ _ _ _ _ _ _ _ H1 p 0 Hp (before_all p Hp) Hv)
      as (l & Hl & Hz & _).
    rewrite (Hz eq_refl) in Hl.
    destruct (j_done _ _ _ _ _ _ _ _ _ _ _ H2 p 0 Hp (before_all p Hp) Hl)
      as (f & Hf & Hz' & _).
    by rewrite (Hz' eq_refl) in Hf.
  Qed.

Lemma connected_same_class p q lp lq :
    connected image p q →
    labelled image data1 rows 0 p lp → labelled image data1 rows 0 q lq →
    same_class linked lp lq.
  Proof.
    intros Hc. revert lp lq.
    induction Hc as [p Hp|p q' q Hp Hq' Hadj _ IH]; intros lp lq Hlp Hlq.
    - destruct Hlp as (_ & _ & Hd & _), Hlq as (Hin & Hb & Hd' & Hl0).
      rewrite Hd in Hd'. injection Hd' as ->.
      destruct (labelled_root p lq) as (r & Hr & _); [done|]. by exists r.
    - destruct (fg_labelled q' Hq') as [lq' Hlq'].
      eapply same_class_trans; [|by apply IH].
      by eapply (i_complete _ _ _ _ _ _ _ _ H1 p q').
  Qed.

  (** Equal final labels, equal components. *)
Lemma same_label_iff p q :
    foreground image p → foreground image q →
    data2 !! idx cols p = data2 !! idx cols q ↔ connected image p q.
  Proof.
    intros Hp Hq.
    destruct (fg_resolved p Hp) as (lp & rp & fp & Hlp & Hrp & Hrp1 & Hsp & Hfp & Hdp).
    destruct (fg_resolved q Hq) as (lq & rq & fq & Hlq & Hrq & Hrq1 & Hsq & Hfq & Hdq).
    rewrite Hdp, Hdq. split.
    - intros [= ->].
      assert (Z.to_nat rp = Z.to_nat rq) as Heq.
      { eapply (j_inj _ _ _ _ _ _ _ _ _ _ _ H2); [done|done|lia]. }
      assert (rp = rq) as -> by lia.
      eapply (i_sound _ _ _ _ _ _ _ _ H1); [done|done|]. by exists rq.
    - intros Hc. destruct (connected_same_class p q lp lq Hc Hlp Hlq) as (r & Hr1 & Hr2).
      rewrite (reaches_fun _ _ _ _ Hrp Hr1), <-(reaches_fun _ _ _ _ Hrq Hr2) in Hsp.
      congruence.
  Qed.

Lemma nonzero_fg p f :
    in_image rows cols p → data2 !! idx cols p = Some f → f ≠ 0 →
    foreground image p.
  Proof.
    intros Hp Hf Hf0. destruct (input_lookup image Hlen p Hp) as [v Hv].
    apply foreground_iff. split; [done|]. exists v. split; [done|].
    intros ->. rewrite (bg_stays p Hp Hv) in Hf. congruence.
  Qed.

  (** The values in the label image are exactly 1 .. nextLabel - 1. *)
Lemma labels_dense v :
    (∃ p, in_image rows cols p ∧ data2 !! idx cols p = Some v ∧ v ≠ 0)
    ↔ 1 <= v < nextLabel s2.
  Proof.
    split.
    - intros (p & Hp & Hv & Hv0).
      destruct (fg_resolved p (nonzero_fg p v Hp Hv Hv0))
        as (_ & _ & f & _ & _ & _ & _ & Hf & Hd).
      rewrite Hv in Hd. by injection Hd as ->.
    - intros Hv. destruct (j_surj _ _ _ _ _ _ _ _ _ _ _ H2 v Hv) as (p & Hp & _ & Hd).
      exists p. split; [done|]. split; [done|lia].
  Qed.

Lemma elem_of_final_labels v :
    v ∈ final_labels temp ↔ 1 <= v < nextLabel s2.
  Proof.
    rewrite <-labels_dense. unfold final_labels.
    assert (v ∈ temp ↔
            ∃ p, in_image rows cols p ∧ data2 !! idx cols p = Some v ∧ v ≠ 0) as <-.
    { rewrite (j_temp _ _ _ _ _ _ _ _ _ _ _ H2 v). split.
      - intros (p & Hp & _ & Hd). by exists p.
      - intros (p & Hp & Hd). exists p. split; [done|]. split; [|done].
        by apply before_all. }
    destruct (decide (temp = [])) as [->|_]; [done|].
    by rewrite elem_of_unique_copy, elem_of_std_sort.
  Qed.

Lemma final_labels_NoDup : NoDup (final_labels temp).
  Proof.
    unfold final_labels. destruct (decide (temp = [])); [constructor|].
    apply unique_copy_NoDup, std_sort_sorted.
  Qed.

(** One pixel for each of the first [n] final labels. *)
Lemma representatives n :
  Z.of_nat n < nextLabel s2 →
  ∃ reps : list pixel, length reps = n ∧
    ∀ i p, reps !! i = Some p →
           foreground image p ∧ data2 !! idx cols p = Some (Z.of_nat i + 1).
Proof.
  induction n as [|n IH]; intros Hn.
  - exists []. split; [done|]. intros i p Hi. by destruct i.
  - destruct IH as (reps & Hl & Hreps); [lia|].
    destruct (proj2 (labels_dense (Z.of_nat n + 1))) as (p & Hp & Hd & Hd0); [lia|].
    exists (reps ++ [p]). split; [rewrite length_app; simpl; lia|].
    intros i q Hi. destruct (decide (i < n)%nat) as [Hlt|Hge].
    + rewrite lookup_app_l in Hi by lia. by apply Hreps.
    + rewrite lookup_app_r in Hi by lia.
      destruct (i - length reps)%nat as [|k] eqn:Hk; [|by destruct k].
      injection Hi as <-. assert (i = n) as -> by lia.
      split; [by eapply nonzero_fg|done].
Qed.

Lemma final_zero_iff i a b :
  input !! i = Some a → data2 !! i = Some b → (a = 0 ↔ b = 0).
Proof.
  intros Ha Hb.
  destruct (idx_surj rows cols i) as (p & Hp & <-).
  { rewrite <-Hlen. by eapply lookup_lt_Some. }
  split.
  - intros ->. rewrite (bg_stays p Hp Ha) in Hb. congruence.
  - intros ->. destruct (decide (a = 0)) as [|Ha0]; [done|].
    assert (foreground image p) as Hfg.
    { apply foreground_iff. split; [done|]. by exists a. }
    destruct (fg_resolved p Hfg) as (_ & _ & f & _ & _ & _ & _ & Hf & Hd).
    rewrite Hb in Hd. injection Hd as <-. lia.
Qed.

Lemma final_elem_labels e :
  e ∈ data2 → (e ∈ final_labels temp ↔ e ≠ 0).
Proof.
  intros (i & Hi)%list_elem_of_lookup. rewrite elem_of_final_labels.
  destruct (idx_surj rows cols i) as (p & Hp & <-).
  { rewrite <-final_length. by eapply lookup_lt_Some. }
  split; [lia|]. intros He. apply labels_dense. by exists p.
Qed.

Lemma final_component_count :
  component_count image (Z.to_nat (nextLabel s2 - 1)).
Proof.
  pose proof (j_next _ _ _ _ _ _ _ _ _ _ _ H2) as Hn.
  destruct (representatives (Z.to_nat (nextLabel s2 - 1))) as (reps & Hl & Hreps); [lia|].
  exists reps. split; [done|]. split; [|split].
  - intros p (i & Hi)%list_elem_of_lookup. by apply (Hreps i p).
  - intros i j p q Hi Hj Hc.
    destruct (Hreps i p Hi) as [Hp Hdp], (Hreps j q Hj) as [Hq Hdq].
    apply (same_label_iff p q Hp Hq) in Hc. rewrite Hdp, Hdq in Hc.
    injection Hc as Hc. lia.
  - intros p Hp.
    destruct (fg_resolved p Hp) as (_ & _ & f & _ & _ & _ & _ & Hf & Hd).
    destruct (lookup_lt_is_Some_2 reps (Z.to_nat (f - 1))) as [q Hq]; [lia|].
    destruct (Hreps _ q Hq) as [Hfq Hdq].
    exists q. split; [by eapply list_elem_of_lookup_2|].
    apply (same_label_iff p q Hp Hfq). rewrite Hd, Hdq. f_equal. lia.
Qed.

Lemma final_labels_length :
  length (final_labels temp) = Z.to_nat (nextLabel s2 - 1).
Proof.
  apply range_length; [apply final_labels_NoDup|]. apply elem_of_final_labels.
Qed.

Lemma final_area_sum result :
  mat_data result = data2 →
  total_area (property_of result <$> final_labels temp)
  = Z.of_nat (count_nz input).
Proof.
  intros Hres. unfold total_area. rewrite <-list_fmap_compose.
  rewrite (list_fmap_ext (area ∘ property_of result)
             (λ l, Z.of_nat (occurrences l data2))).
  2:{ intros i l _. unfold compose, property_of. cbn [area].
      by rewrite countNonZero_mask, Hres. }
  rewrite occurrences_sum by apply final_labels_NoDup. f_equal.
  rewrite (filter_length_ext _ (λ e, e ≠ 0)) by apply final_elem_labels.
  fold (count_nz data2). apply count_nz_pointwise.
  - by rewrite final_length.
  - intros i a b Ha Hb. symmetry. by eapply final_zero_iff.
Qed.
End final_state.

(** * Determinism *)

(** A computation that leaves [maxComponent] alone. *)
Definition keeps_mc {A} (m : M A) : Prop :=
  ∀ s, maxComponent (m s).2 = maxComponent s.

Lemma keeps_ret {A} (a : A) : keeps_mc (mret a).
Proof. done. Qed.

Lemma keeps_throw {A} e : keeps_mc (throw (A := A) e).
Proof. done. Qed.

Lemma keeps_lift {A} (o : outcome A) : keeps_mc (lift o).
Proof. done. Qed.

Lemma keeps_get_nextLabel : keeps_mc get_nextLabel.
Proof. done. Qed.

Lemma keeps_get_maxComponent : keeps_mc get_maxComponent.
Proof. done. Qed.

Lemma keeps_set_nextLabel v : keeps_mc (set_nextLabel v).
Proof. done. Qed.

Lemma keeps_bind {A B} (m : M A) (f : A → M B) :
  keeps_mc m → (∀ a, keeps_mc (f a)) → keeps_mc (m ≫= f).
Proof.
  intros Hm Hf s. rewrite bind_eq. specialize (Hm s).
  destruct (m s) as [[a|e] s']; [|done]. cbn [snd] in Hm. by rewrite Hf.
Qed.

Lemma keeps_for {A} (body : nat → A → M A) n :
  (∀ i a, keeps_mc (body i a)) → ∀ i a, keeps_mc (for_ n i body a).
Proof.
  intros Hb. induction n as [|n IH]; intros i a; [apply keeps_ret|].
  apply keeps_bind; [apply Hb|]. intros b. apply IH.
Qed.

Lemma keeps_foreach {A B} (body : B → A → M A) l :
  (∀ v a, keeps_mc (body v a)) → ∀ a, keeps_mc (foreach l body a).
Proof.
  intros Hb. induction l as [|v l IH]; intros a; [apply keeps_ret|].
  apply keeps_bind; [apply Hb|]. intros b. apply IH.
Qed.

Ltac keeps :=
  repeat first
    [ apply keeps_ret | apply keeps_throw | apply keeps_lift
    | apply keeps_get_nextLabel | apply keeps_get_maxComponent
    | apply keeps_set_nextLabel
    | apply keeps_bind; [|intros ?]
    | apply keeps_for; intros ? ?
    | apply keeps_foreach; intros ? ?
    | match goal with
      | |- keeps_mc (if ?c then _ else _) => destruct c
      | |- keeps_mc (let '(_, _) := ?p in _) => destruct p
      end ].

Lemma pass1_keeps rows cols data linked : keeps_mc (pass1 rows cols data linked).
Proof.
  unfold pass1. apply keeps_bind; [|intros; apply keeps_ret].
  apply keeps_for. intros y [[d l] pp]. unfold pass1_row.
  apply keeps_bind; [|intros; apply keeps_ret].
  apply keeps_for. intros x st. unfold pass1_pixel. keeps.
Qed.

Lemma disjointFind_keeps a parent labels : keeps_mc (disjointFind a parent labels).
Proof. unfold disjointFind. keeps. Qed.

Lemma pass2_keeps rows cols linked data labels_set :
  keeps_mc (pass2 rows cols linked data labels_set).
Proof.
  unfold pass2. apply keeps_for. intros y st. unfold pass2_row.
  apply keeps_for. intros x [[d l] t]. unfold pass2_pixel.
  apply keeps_bind; [apply keeps_lift|]. intros v.
  destruct (negb (v =? 0)); [|apply keeps_ret].
  apply keeps_bind; [apply disjointFind_keeps|]. intros r. keeps.
Qed.

Lemma apply_type image s result s' :
  apply image s = (Ok result, s') → mat_type image = CV_8UC1.
Proof.
  unfold apply. by destruct (decide (mat_type image = CV_8UC1)).
Qed.

Lemma apply_keeps image s result s' :
  apply image s = (Ok result, s') → maxComponent s' = maxComponent s.
Proof.
  intros Happ. pose proof (apply_type _ _ _ _ Happ) as Hty.
  rewrite apply_stages in Happ by done.
  destruct (maxComponent s <? 0); [done|].
  pose proof (pass1_keeps (mat_rows image) (mat_cols image) (mat_data image)
                (replicate (Z.to_nat (maxComponent s)) 0) (with_nextLabel s 1)) as H1.
  destruct (pass1 _ _ _ _ _) as [[st1|e] s1]; [|done]. cbn [snd] in H1.
  destruct (maxComponent s1 <? 0); [done|].
  pose proof (pass2_keeps (mat_rows image) (mat_cols image) st1.2 st1.1
                (replicate (Z.to_nat (maxComponent s1)) 0) (with_nextLabel s1 1)) as H2.
  destruct (pass2 _ _ _ _ _ _) as [[st2|e] s2]; [|done]. cbn [snd] in H2.
  injection Happ as _ <-. cbn [maxComponent with_properties with_nextLabel] in *.
  congruence.
Qed.

(** The outcome of a successful run depends on the image and on
    [maxComponent] only: [nextLabel] is reset and every record is rewritten. *)
Lemma apply_indep image s t result s' :
  maxComponent t = maxComponent s →
  apply image s = (Ok result, s') → apply image t = (Ok result, s').
Proof.
  intros Hmc Happ. pose proof (apply_type _ _ _ _ Happ) as Hty.
  rewrite apply_stages in Happ |- * by done. rewrite Hmc.
  destruct (maxComponent s <? 0); [done|].
  assert (with_nextLabel t 1 = with_properties (with_nextLabel s 1) (properties t))
    as -> by (unfold with_nextLabel, with_properties; cbn; by rewrite Hmc).
  rewrite pass1_indep.
  destruct (pass1 _ _ _ _ _) as [[st1|e] s1]; [|done]. cbn [fst snd].
  cbn [maxComponent with_properties].
  destruct (maxComponent s1 <? 0); [done|].
  change (with_nextLabel (with_properties s1 (properties t)) 1)
    with (with_properties (with_nextLabel s1 1) (properties t)).
  rewrite pass2_indep.
  destruct (pass2 _ _ _ _ _ _) as [[st2|e] s2]; [|done]. cbn [fst snd].
  exact Happ.
Qed.

(** * Direction of the parent pointers *)

(** Every non-root entry points to a smaller label (what the specification
    states) or to a larger one (what [disjointUnion] maintains). *)
Definition points_to_smaller (parent : list Z) : Prop :=
  ∀ i p, vec_at parent i = Ok p → 0 < p → p < i.

Definition points_to_larger (parent : list Z) : Prop :=
  ∀ i p, vec_at parent i = Ok p → 0 < p → i < p.

Lemma forest_points_to_larger n parent : forest n parent → points_to_larger parent.
Proof. intros Hf i p Hp Hlt. destruct (Hf i p Hp); lia. Qed.

Lemma forest_root_is_max n parent c d r :
  forest n parent → reaches parent c r → same_class parent c d → d <= r.
Proof.
  intros Hf Hc (r' & Hc' & Hd). rewrite (reaches_fun _ _ _ _ Hc Hc').
  by apply (reaches_bound n parent d r').
Qed.

(** * Capacity failure *)

(** [apply] throws the label-capacity error and leaves the records alone. *)
Definition capacity_failure (image : Mat) (this : ConnectedComponent) : Prop :=
  ∃ this', apply image this = (Throw LabelCapacityExceeded, this')
           ∧ properties this' = properties this.

(** One foreground pixel. *)
Definition single_pixel_image : Mat := mkMat CV_8UC1 1 1 [255].

(** Two foreground pixels that do not touch. *)
Definition two_blobs_image : Mat := mkMat CV_8UC1 1 3 [255; 0; 255].

(** * States during the first pass *)

(** The first pass stopped when the scan is about to visit pixel (y, x): the
    outer loop has run for the rows above [y] and the inner loop for the
    pixels of row [y] left of [x].  With [y = rows] and [x = 0] this is the
    state after the pass. *)
Definition pass1_prefix (cols : nat) (y x : nat) (data linked : list Z)
    : M (list Z * list Z) :=
  st ← for_ y 0 (pass1_row cols) (data, linked, None);
  for_ x 0 (pass1_pixel cols (row_ptr cols y) st.2 y) (st.1.1, st.1.2).

(** A sequence of unions. *)
Fixpoint union_seq (ops : list (Z * Z)) (parent : list Z) : outcome (list Z) :=
  match ops with
  | [] => Ok parent
  | ab :: ops' =>
      parent' ← disjointUnion ab.1 ab.2 parent; union_seq ops' parent'
  end.

(** A counted loop is its first [n] iterations followed by the rest. *)
Lemma for_split {A} (body : nat → A → M A) n m : ∀ i a s,
  for_ (n + m) i body a s = (a' ← for_ n i body a; for_ m (i + n) body a') s.
Proof.
  induction n as [|n IH]; intros i a s.
  - cbn [for_ Nat.add]. rewrite bind_eq, ret_eq. by replace (i + 0)%nat with i by lia.
  - cbn [for_ Nat.add]. rewrite !bind_eq.
    destruct (body i a s) as [[b|e] t]; [|done].
    rewrite IH, bind_eq. by replace (S i + n)%nat with (i + S n)%nat by lia.
Qed.

Lemma pass1_prefix_end rows cols data linked s :
  pass1 rows cols data linked s = pass1_prefix cols rows 0 data linked s.
Proof.
  unfold pass1, pass1_prefix. rewrite !bind_eq.
  by destruct (for_ rows 0 (pass1_row cols) (data, linked, None) s) as [[st|e] t].
Qed.

Lemma pass1_prefix_wp image mc props0 y x s :
  length (mat_data image) = (mat_rows image * mat_cols image)%nat →
  mc <= int_max →
  ((y < mat_rows image)%nat ∧ (x ≤ mat_cols image)%nat)
  ∨ (y = mat_rows image ∧ x = O) →
  maxComponent s = mc → properties s = props0 → nextLabel s = 1 →
  wp (pass1_prefix (mat_cols image) y x (mat_data image) (replicate (Z.to_nat mc) 0)) s
     (λ st s', inv1 image mc props0 y x st.1 st.2 s') (E1 image mc props0).
Proof.
  intros Hlen Hmc Hyx H1 H2 H3. unfold pass1_prefix. apply wp_bind.
  eapply wp_mono;
    [apply (wp_for
              (λ y st s, inv1 image mc props0 y 0 st.1.1 st.1.2 s
                         ∧ st.2 = prev_ptr_at (mat_cols image) y)
              (E1 image mc props0) _ y O
              (mat_data image, replicate (Z.to_nat mc) 0, None) s)
    | |done].
  - split; [by apply inv1_init|done].
  - intros j st t Hj Hi. apply pass1_row_wp; [done|done|lia|done].
  - intros [[d l] pp] t [Hi Hpp]. cbn [fst snd] in *. subst pp.
    apply (wp_for (λ x st s, inv1 image mc props0 y x st.1 st.2 s)
             (E1 image mc props0) _ x O (d, l) t); [done|].
    intros j [d' l'] u Hj Hi'. apply pass1_pixel_wp; [done|done|lia|lia|done].
Qed.

Lemma union_seq_spec n ops : ∀ parent,
  forest n parent → n <= Z.of_nat (length parent) →
  Forall (λ ab, 1 <= ab.1 < n ∧ 1 <= ab.2 < n) ops →
  ∃ parent', union_seq ops parent = Ok parent' ∧ forest n parent'
             ∧ length parent' = length parent.
Proof.
  induction ops as [|[a b] ops IH]; intros parent Hf Hlen Hops.
  - by exists parent.
  - apply Forall_cons_1 in Hops as [[Ha Hb] Hops]. cbn [fst snd] in *.
    destruct (disjointUnion_spec n parent a b Hf Hlen Ha Hb)
      as (ra & rb & _ & _ & _ & _ & Hu).
    pose proof (disjointUnion_forest n parent _ a b Hf Hlen Ha Hb Hu) as Hf'.
    pose proof (disjointUnion_length n parent _ a b Hf Hlen Ha Hb Hu) as Hl'.
    destruct (IH _ Hf') as (parent' & Hseq & Hf'' & Hl''); [lia|done|].
    exists parent'. cbn [union_seq fst snd]. unfold mbind, outcome_bind, obind.
    rewrite Hu. split; [done|]. split; [done|]. lia.
Qed.

(** In a forest the outcome of a chase does not depend on the fuel, once the
    fuel is the one the model uses or more. *)
Lemma chase_enough_fuel n parent a :
  forest n parent → n <= Z.of_nat (length parent) → 0 <= a < n →
  ∃ r, reaches parent a r ∧ a <= r < n ∧
       ∀ fuel, (chase_fuel parent ≤ fuel)%nat → chase fuel parent a = Ok r.
Proof.
  intros Hf Hlen Ha.
  destruct (forest_reaches n parent a Hf Hlen) as (r & Hr & Hle & Hlt); [lia|].
  exists r. split; [done|]. split; [lia|]. intros fuel Hfuel.
  destruct (chase_total n parent fuel a Hf Hlen) as (r' & Hc & _ & _ & Hr');
    [lia|unfold chase_fuel in Hfuel; lia|unfold chase_fuel in Hfuel; lia|].
  by rewrite (reaches_fun _ _ _ _ Hr Hr').
Qed.

(** The state in which the worked example reaches pixel (2, 1). *)
Definition demo_mid_data : list Z :=
  [1;   0;   2; 0; 0;
   1;   0;   2; 0; 3;
   1; 255; 255; 0; 0;
   0;   0;   0; 0; 7].

Definition demo_mid_object : ConnectedComponent := mkConnectedComponent 10 4 [].

(** * Safety *)

(** On a well-formed image [apply] never leaves the buffers and never
    diverges: the only errors are the two the source throws and the failed
    allocation of a vector of negative size. *)
Lemma apply_safe image this e t :
  wf_mat image → in_int (maxComponent this) →
  apply image this = (Throw e, t) →
  e = PreconditionViolation ∨ e = LengthError ∨ e = LabelCapacityExceeded.
Proof.
  intros [Hlen _] [_ Hmc] Happ.
  destruct (decide (mat_type image = CV_8UC1)) as [Hty|Hty].
  - destruct (Z.ltb_spec (maxComponent this) 0) as [Hneg|Hpos].
    + rewrite apply_stages in Happ by done.
      destruct (Z.ltb_spec (maxComponent this) 0); [|lia].
      injection Happ as <- _. auto.
    + destruct (apply_cases image this Hlen Hty) as [(r & u & Hr & _)|(u & Hu & _)];
        [lia|congruence|].
      rewrite Happ in Hu. injection Hu as -> _. auto.
  - unfold apply in Happ. destruct (decide (mat_type image = CV_8UC1)); [done|].
    injection Happ as <- _. auto.
Qed.

(** * Further facts about the helpers

    The lemmas of this part support the additional theorems at the end of
    the file. *)

(** ** Sorting, uniqueness and the minimum *)

Lemma sorted_NoDup_strict l :
  StronglySorted Z.le l → NoDup l → StronglySorted Z.lt l.
Proof.
  induction 1 as [|a l Hs IH Ha]; intros Hnd; [constructor|].
  apply NoDup_cons in Hnd as [Hin Hnd]. constructor; [by apply IH|].
  apply Forall_forall. intros v Hv.
  rewrite Forall_forall in Ha. specialize (Ha v Hv).
  assert (v ≠ a) by (by intros ->). lia.
Qed.

Lemma unique_copy_length l : (length (unique_copy l) ≤ length l)%nat.
Proof.
  induction l as [|a [|b l] IH]; [done|done|].
  rewrite unique_copy_cons2. destruct (decide (a = b)); simpl in *; lia.
Qed.

Lemma std_sort_length l : length (std_sort l) = length l.
Proof. apply Permutation_length, std_sort_perm. Qed.

Lemma push_guarded_grows c data ptr i acc acc' :
  push_guarded c data ptr i acc = Ok acc' →
  (length acc' ≤ S (length acc))%nat ∧
  (Forall (λ v, v ≠ 0) acc → Forall (λ v, v ≠ 0) acc').
Proof.
  unfold push_guarded. destruct c.
  - unfold mbind, outcome_bind, obind. destruct (px_at data ptr i) as [v|]; [|done].
    intros [= <-]. destruct (Z.eqb_spec v 0); cbn [negb].
    + split; [lia|done].
    + rewrite length_app. simpl. split; [lia|]. intros H.
      apply Forall_app. split; [done|]. by constructor.
  - intros [= <-]. split; [lia|done].
Qed.

Lemma min_element_from_least l : ∀ best bestv i,
  Forall (λ v, bestv <= v) l → min_element_from best bestv i l = best.
Proof.
  induction l as [|v l IH]; intros best bestv i Hall; [done|].
  apply Forall_cons_1 in Hall as [Hv Hall]. simpl.
  destruct (Z.ltb_spec v bestv); [lia|]. by apply IH.
Qed.

Lemma min_element_sorted l : StronglySorted Z.lt l → min_element l = O.
Proof.
  destruct 1 as [|a l _ Ha]; [done|]. simpl. apply min_element_from_least.
  eapply Forall_impl; [exact Ha|]. simpl. lia.
Qed.

(** ** Records and counting *)

Lemma with_properties_same s : with_properties s (properties s) = s.
Proof. by destruct s. Qed.

Lemma indep_keeps_props {A} (m : M A) s :
  props_indep m → properties (m s).2 = properties s.
Proof.
  intros Hm. specialize (Hm s (properties s)). rewrite with_properties_same in Hm.
  by rewrite Hm.
Qed.

Lemma sum_upto_zero f n : (∀ i, f i = O) → sum_upto f n = O.
Proof. intros Hf. induction n as [|n IH]; [done|]. cbn [sum_upto]. by rewrite IH, Hf. Qed.

Lemma seqZ_sorted k : ∀ m, StronglySorted Z.le (seqZ m (Z.of_nat k)).
Proof.
  induction k as [|k IH]; intros m.
  - rewrite seqZ_nil by lia. constructor.
  - rewrite seqZ_cons by lia.
    replace (Z.pred (Z.of_nat (S k))) with (Z.of_nat k) by lia.
    constructor; [apply IH|]. apply Forall_seqZ. lia.
Qed.

Lemma sorted_range_seqZ (l : list Z) (n : Z) :
  StronglySorted Z.le l → NoDup l → (∀ v, v ∈ l ↔ 1 <= v < n) → 1 <= n →
  l = seqZ 1 (n - 1).
Proof.
  intros Hs Hnd Hmem Hn. apply (StronglySorted_unique Z.le); [done| |].
  - replace (n - 1) with (Z.of_nat (Z.to_nat (n - 1))) by lia. apply seqZ_sorted.
  - apply NoDup_Permutation; [done|apply NoDup_seqZ|].
    intros v. rewrite Hmem, elem_of_seqZ. lia.
Qed.

Lemma final_labels_sorted temp : StronglySorted Z.le (final_labels temp).
Proof.
  unfold final_labels. destruct (decide (temp = [])); [constructor|].
  apply unique_copy_sorted, std_sort_sorted.
Qed.

Lemma occurrences_pos v data : v ∈ data → (1 ≤ occurrences v data)%nat.
Proof.
  intros Hv. unfold occurrences.
  assert (v ∈ filter (λ e, e = v) data) as Hin by by apply list_elem_of_filter.
  destruct (filter (λ e, e = v) data); [by apply elem_of_nil in Hin|simpl; lia].
Qed.

Lemma count_nz_between l : ∀ lo hi : nat,
  (∀ i v, l !! i = Some v → v ≠ 0 → (lo ≤ i < hi)%nat) →
  (count_nz l ≤ hi - lo)%nat.
Proof.
  induction l as [|v l IH]; intros lo hi Hnz; [unfold count_nz; simpl; lia|].
  rewrite count_nz_cons. destruct (decide (v = 0)) as [->|Hv].
  - specialize (IH (lo - 1)%nat (hi - 1)%nat). 
    assert (count_nz l ≤ hi - 1 - (lo - 1))%nat as Hle.
    { apply IH. intros i w Hi Hw. specialize (Hnz (S i) w Hi Hw). lia. }
    destruct (decide (count_nz l = O)) as [->|Hpos]; [lia|].
    assert (∃ i w, l !! i = Some w ∧ w ≠ 0) as (i & w & Hi & Hw).
    { clear -Hpos. induction l as [|w l IH]; [done|].
      rewrite count_nz_cons in Hpos. destruct (decide (w = 0)) as [->|Hw].
      - destruct IH as (i & w & Hi & Hw); [done|]. by exists (S i), w.
      - by exists O, w. }
    specialize (Hnz (S i) w Hi Hw). lia.
  - pose proof (Hnz O v eq_refl Hv) as H0.
    specialize (IH O (hi - 1)%nat).
    assert (count_nz l ≤ hi - 1 - 0)%nat as Hle.
    { apply IH. intros i w Hi Hw. specialize (Hnz (S i) w Hi Hw). lia. }
    lia.
Qed.

(** ** The order of the final labels *)

(** Every label above 1 that occurs before (y, x) is preceded, in raster
    order, by an occurrence of the label just below it. *)
Definition label_order (rows cols : nat) (y x : nat) (data : list Z) : Prop :=
  ∀ p f, in_image rows cols p → before p y x →
         data !! idx cols p = Some f → 1 < f →
         ∃ q, in_image rows cols q ∧ before q p.1 p.2 ∧
              data !! idx cols q = Some (f - 1).

Section pass2_order.
Context (image : Mat) (mc : Z) (props0 : list ComponentProperty).
Context (data1 linked : list Z) (n1 : Z).
Let rows : nat := mat_rows image.
Let cols : nat := mat_cols image.
Hypothesis Hlen1 : length data1 = (rows * cols)%nat.
Hypothesis Hlab1 : ∀ p l, in_image rows cols p → data1 !! idx cols p = Some l →
                            l = 0 ∨ 1 <= l < n1.
Hypothesis Hforest : forest n1 linked.
Hypothesis Hllen : length linked = Z.to_nat mc.
Hypothesis Hn1 : n1 = 1 ∨ n1 < mc.
Hypothesis Hmc : mc <= int_max.

Lemma before_trans p q y x : before q p.1 p.2 → before p y x → before q y x.
Proof. destruct p, q. unfold before. simpl. lia. Qed.

Lemma label_order_background y x data labels_set temp s :
  (y < rows)%nat → (x < cols)%nat →
  inv2 image mc props0 data1 linked y x data labels_set temp s →
  data !! idx cols (y, x) = Some 0 →
  label_order rows cols y x data → label_order rows cols y (S x) data.
Proof.
  intros Hy Hx Hinv H0 Hord p f Hp [Hb| ->]%before_next Hf H1.
  - by apply Hord.
  - rewrite H0 in Hf. injection Hf as <-. lia.
Qed.

Lemma label_order_foreground y x data labels_set temp s f :
  (y < rows)%nat → (x < cols)%nat →
  inv2 image mc props0 data1 linked y x data labels_set temp s →
  1 <= f <= nextLabel s →
  label_order rows cols y x data →
  label_order rows cols y (S x) (<[idx cols (y, x) := f]> data).
Proof.
  intros Hy Hx Hinv Hf Hord p g Hp Hb Hg H1.
  assert (∀ q, in_image rows cols q → before q y x →
               <[idx cols (y, x) := f]> data !! idx cols q = data !! idx cols q)
    as Hother.
  { intros q Hq Hbq. apply list_lookup_insert_ne. intros Heq.
    assert ((y, x) = q) as <- by (eapply idx_inj; [apply Hx|apply Hq|done]).
    by apply before_irrefl in Hbq. }
  apply before_next in Hb as [Hb| ->].
  - rewrite Hother in Hg by done.
    destruct (Hord p g Hp Hb Hg H1) as (q & Hq & Hbq & Hd).
    exists q. split; [done|]. split; [done|].
    rewrite Hother; [done|done|]. by eapply before_trans.
  - rewrite list_lookup_insert_eq in Hg.
    2:{ rewrite (j_len _ _ _ _ _ _ _ _ _ _ _ Hinv), Hlen1. by apply idx_lt. }
    injection Hg as <-.
    destruct (j_surj _ _ _ _ _ _ _ _ _ _ _ Hinv (f - 1)) as (q & Hq & Hbq & Hd); [lia|].
    exists q. split; [done|]. split; [done|]. by rewrite Hother.
Qed.

Lemma pass2_pixel_order y x data labels_set temp s :
  (y < rows)%nat → (x < cols)%nat →
  inv2 image mc props0 data1 linked y x data labels_set temp s →
  label_order rows cols y x data →
  wp (pass2_pixel linked (row_ptr cols y) x (data, labels_set, temp)) s
     (λ st s', inv2 image mc props0 data1 linked y (S x) st.1.1 st.1.2 st.2 s'
               ∧ label_order rows cols y (S x) st.1.1)
     (λ _ _, False).
Proof.
  intros Hy Hx Hinv Hord.
  pose proof (pass2_pixel_wp image mc props0 data1 linked n1 Hlen1 Hlab1 Hforest
                Hllen Hn1 Hmc y x data labels_set temp s Hy Hx Hinv) as Hwp.
  unfold wp in Hwp |- *. fold cols in Hwp.
  assert (idx cols (y, x) < length data)%nat as Hk.
  { rewrite (j_len _ _ _ _ _ _ _ _ _ _ _ Hinv), Hlen1. by apply idx_lt. }
  destruct (lookup_lt_is_Some_2 data _ Hk) as [l Hl].
  destruct (decide (l = 0)) as [->|Hl0].
  { rewrite pass2_pixel_background in Hwp |- * by done. split; [done|].
    by eapply label_order_background. }
  assert (1 <= l < n1) as Hlr.
  { destruct (Hlab1 (y, x) l) as [?|?]; [done| |done|done].
    rewrite <-(j_rest _ _ _ _ _ _ _ _ _ _ _ Hinv); [done|done|apply before_irrefl]. }
  assert (n1 <= Z.of_nat (length linked)) as Hn1' by (rewrite Hllen; lia).
  destruct (forest_reaches n1 linked l Hforest Hn1') as (r & Hr & Hlr' & Hrn); [lia|].
  destruct (lookup_lt_is_Some_2 labels_set (Z.to_nat r)) as [g Hg].
  { rewrite (j_llen _ _ _ _ _ _ _ _ _ _ _ Hinv). lia. }
  pose proof (j_next _ _ _ _ _ _ _ _ _ _ _ Hinv) as Hnext.
  destruct (decide (g = 0)) as [->|Hg0].
  - destruct (lookup_lt_is_Some_2 labels_set O) as [z Hz].
    { rewrite (j_llen _ _ _ _ _ _ _ _ _ _ _ Hinv). lia. }
    pose proof (j_zero _ _ _ _ _ _ _ _ _ _ _ Hinv z Hz) as ->.
    pose proof (count_nz_two_zeros labels_set O (Z.to_nat r) Hz Hg ltac:(lia))
      as Hcnt.
    pose proof (j_count _ _ _ _ _ _ _ _ _ _ _ Hinv) as Hcount.
    pose proof (j_llen _ _ _ _ _ _ _ _ _ _ _ Hinv) as Hll.
    assert (in_int (nextLabel s + 1)) as Hint.
    { unfold in_int, int_min, int_max in *. lia. }
    rewrite (pass2_pixel_foreground _ _ _ _ _ _ _ _ l (nextLabel s)
               (<[Z.to_nat r := nextLabel s]> labels_set)
               (with_nextLabel s (nextLabel s + 1))) in Hwp |- *; try done.
    2,3: by apply (disjointFind_new n1 linked labels_set l r s).
    cbn [fst snd] in *. split; [done|].
    eapply label_order_foreground; [done|done|exact Hinv|lia|done].
  - destruct (j_range _ _ _ _ _ _ _ _ _ _ _ Hinv _ _ Hg) as [?|Hgr]; [done|].
    rewrite (pass2_pixel_foreground _ _ _ _ _ _ _ _ l g labels_set s)
      in Hwp |- *; try done.
    2,3: by apply (disjointFind_old n1 linked labels_set l r s).
    cbn [fst snd] in *. split; [done|].
    eapply label_order_foreground; [done|done|exact Hinv|lia|done].
Qed.

Lemma pass2_order_wp s :
  maxComponent s = mc → properties s = props0 → nextLabel s = 1 →
  wp (pass2 rows cols linked data1 (replicate (Z.to_nat mc) 0)) s
     (λ st s', inv2 image mc props0 data1 linked rows 0 st.1.1 st.1.2 st.2 s'
               ∧ label_order rows cols rows 0 st.1.1)
     (λ _ _, False).
Proof.
  intros H1 H2 H3. unfold pass2.
  apply (wp_for (λ y st s, inv2 image mc props0 data1 linked y 0 st.1.1 st.1.2 st.2 s
                           ∧ label_order rows cols y 0 st.1.1)
           (λ _ _, False) _ rows O (data1, replicate (Z.to_nat mc) 0, []) s).
  - split; [by apply (inv2_init image mc props0 data1 linked)|].
    intros p f _ Hb. destruct p. unfold before in Hb. simpl in Hb. lia.
  - intros y [[d l] t] u Hy [Hi Ho]. unfold pass2_row.
    eapply wp_mono;
      [apply (wp_for (λ x st s,
                        inv2 image mc props0 data1 linked y x st.1.1 st.1.2 st.2 s
                        ∧ label_order rows cols y x st.1.1)
                (λ _ _, False) _ cols O (d, l, t) u)
      | |done].
    + done.
    + intros x [[d' l'] t'] u' Hx [Hi' Ho']. apply pass2_pixel_order; [lia|lia|done|done].
    + intros [[d' l'] t'] u' [Hi' Ho']. cbn [fst snd] in *. split.
      * by apply (inv2_row_end image mc props0 data1 linked).
      * intros p f Hp Hb. apply Ho'; [done|].
        destruct p as [py px], Hp as [_ Hpx]. unfold before in *. simpl in *. lia.
Qed.
End pass2_order.

Lemma apply_label_order image s result s' :
  wf_mat image → maxComponent s <= int_max →
  apply image s = (Ok result, s') →
  label_order (mat_rows image) (mat_cols image) (mat_rows image) 0 (mat_data result).
Proof.
  intros [Hlen _] Hmc Happ.
  pose proof (apply_type _ _ _ _ Happ) as Hty.
  rewrite apply_stages in Happ by done.
  destruct (Z.ltb_spec (maxComponent s) 0); [done|].
  pose proof (pass1_wp image (maxComponent s) (properties s) Hlen Hmc
                (with_nextLabel s 1) eq_refl eq_refl eq_refl) as H1.
  unfold wp in H1.
  destruct (pass1 _ _ _ _ _) as [[[data1 linked]|e] s1]; cbn [fst snd] in *; [|done].
  pose proof (i_mc _ _ _ _ _ _ _ _ H1) as Hmc1.
  pose proof (i_props _ _ _ _ _ _ _ _ H1) as Hprops1.
  rewrite Hmc1 in Happ. destruct (Z.ltb_spec (maxComponent s) 0); [lia|].
  pose proof (pass2_order_wp image (maxComponent s) (properties s) data1 linked
                (nextLabel s1)) as H2.
  specialize (H2 ltac:(by rewrite (i_len _ _ _ _ _ _ _ _ H1))).
  specialize (H2 (inv1_labels image _ _ data1 linked s1 Hlen H1)).
  specialize (H2 (i_forest _ _ _ _ _ _ _ _ H1) (i_llen _ _ _ _ _ _ _ _ H1)).
  specialize (H2 (proj2 (i_next _ _ _ _ _ _ _ _ H1)) Hmc (with_nextLabel s1 1)
                Hmc1 Hprops1 eq_refl).
  unfold wp in H2.
  destruct (pass2 _ _ _ _ _ _) as [[[[data2 labels_set] temp]|e] s2];
    cbn [fst snd] in *; [|done].
  injection Happ as <- _. cbn [mat_data]. apply H2.
Qed.

(** ** Only the zero pattern of the input matters *)

(** Two pixel buffers of [n] elements that agree on the first [k] positions
    and have their zeros at the same positions. *)
Definition same_support (n k : nat) (d d' : list Z) : Prop :=
  length d = n ∧ length d' = n ∧
  (∀ i, (i < k)%nat → d !! i = d' !! i) ∧
  (∀ i a b, d !! i = Some a → d' !! i = Some b → (a = 0 ↔ b = 0)).

(** Two runs end in the same object state, with the same error or with
    related values. *)
Definition sim_out {A} (R : A → A → Prop)
    (o o' : outcome A * ConnectedComponent) : Prop :=
  o.2 = o'.2 ∧
  match o.1, o'.1 with
  | Ok a, Ok a' => R a a'
  | Throw e, Throw e' => e = e'
  | _, _ => False
  end.

Lemma for_sim {A} (R : nat → A → A → Prop) (body : nat → A → M A) n :
  ∀ i a a' s,
    R i a a' →
    (∀ j b b' t, (i ≤ j < i + n)%nat → R j b b' →
                 sim_out (R (S j)) (body j b t) (body j b' t)) →
    sim_out (R (i + n)%nat) (for_ n i body a s) (for_ n i body a' s).
Proof.
  induction n as [|n IH]; intros i a a' s Ha Hbody.
  - cbn [for_]. rewrite !ret_eq. replace (i + 0)%nat with i by lia. by split.
  - cbn [for_]. rewrite !bind_eq.
    destruct (Hbody i a a' s ltac:(lia) Ha) as [Hs Ho].
    destruct (body i a s) as [[b|e] t], (body i a' s) as [[b'|e'] t'];
      cbn [fst snd] in *; try done; subst t'.
    replace (i + S n)%nat with (S i + n)%nat by lia.
    apply IH; [done|]. intros j c c' u Hj. apply Hbody. lia.
Qed.

Lemma push_guarded_ext c d d' ptr i acc :
  (c = true → d !! (ptr + i)%nat = d' !! (ptr + i)%nat) →
  push_guarded c d ptr i acc = push_guarded c d' ptr i acc.
Proof.
  intros H. unfold push_guarded, px_at. destruct c; [|done]. by rewrite H.
Qed.

Lemma getNeighbors_prefix d d' cols y x :
  (x < cols)%nat →
  (∀ i, (i < y * cols + x)%nat → d !! i = d' !! i) →
  getNeighbors d (row_ptr cols y) (prev_ptr_at cols y) x y cols
  = getNeighbors d' (row_ptr cols y) (prev_ptr_at cols y) x y cols.
Proof.
  intros Hx Heq. unfold getNeighbors. cbv zeta.
  unfold mbind, outcome_bind, obind, row_ptr.
  assert (∀ acc, push_guarded (Z.of_nat x >? 0) d (y * cols) (x - 1) acc
                 = push_guarded (Z.of_nat x >? 0) d' (y * cols) (x - 1) acc) as Hleft.
  { intros acc. apply push_guarded_ext. intros Hc%Z.gtb_lt. apply Heq. lia. }
  destruct y as [|y0]; cbn [prev_ptr_at].
  - by rewrite Hleft.
  - unfold row_ptr.
    rewrite (push_guarded_ext true d d') by (intros _; apply Heq; lia).
    destruct (push_guarded true d' (y0 * cols) x []) as [r1|]; [|done].
    rewrite (push_guarded_ext _ d d' (y0 * cols) (x - 1))
      by (intros Hc%Z.gtb_lt; apply Heq; lia).
    destruct (push_guarded _ d' (y0 * cols) (x - 1) r1) as [r2|]; [|done].
    rewrite (push_guarded_ext _ d d' (y0 * cols) (x + 1))
      by (intros Hc%Z.ltb_lt; apply Heq; nia).
    destruct (push_guarded _ d' (y0 * cols) (x + 1) r2) as [r3|]; [|done].
    by rewrite Hleft.
Qed.

Lemma same_support_insert n k d d' v :
  same_support n k d d' → (k < n)%nat →
  same_support n (S k) (<[k := v]> d) (<[k := v]> d').
Proof.
  intros (Hl & Hl' & Heq & Hz) Hk. split; [by rewrite length_insert|].
  split; [by rewrite length_insert|]. split.
  - intros i Hi. destruct (decide (i = k)) as [->|Hne].
    + by rewrite !list_lookup_insert_eq by lia.
    + rewrite !list_lookup_insert_ne by done. apply Heq. lia.
  - intros i a b. destruct (decide (i = k)) as [->|Hne].
    + rewrite !list_lookup_insert_eq by lia. by intros [= <-] [= <-].
    + rewrite !list_lookup_insert_ne by done. apply Hz.
Qed.

Lemma pass1_pixel_sim n cols y x d d' linked s :
  (x < cols)%nat →
  same_support n (y * cols + x) d d' →
  sim_out (λ st st', same_support n (S (y * cols + x)) st.1 st'.1 ∧ st.2 = st'.2)
    (pass1_pixel cols (row_ptr cols y) (prev_ptr_at cols y) y x (d, linked) s)
    (pass1_pixel cols (row_ptr cols y) (prev_ptr_at cols y) y x (d', linked) s).
Proof.
  intros Hx Hsup. pose proof Hsup as (Hl & Hl' & Heq & Hz).
  pose proof (getNeighbors_prefix d d' cols y x Hx Heq) as Hgn.
  set (k := (y * cols + x)%nat) in *.
  assert (∀ D, px_at D (row_ptr cols y) x
               = match D !! k with Some v => Ok v | None => Throw OutOfBounds end)
    as Hpx by done.
  unfold pass1_pixel. rewrite !bind_eq, !lift_eq, !Hpx.
  destruct (d !! k) as [v|] eqn:Hv, (d' !! k) as [v'|] eqn:Hv'.
  4:{ by split. }
  2:{ apply lookup_lt_Some in Hv. apply lookup_ge_None in Hv'. lia. }
  2:{ apply lookup_lt_Some in Hv'. apply lookup_ge_None in Hv. lia. }
  assert (k < n)%nat as Hk by (apply lookup_lt_Some in Hv; lia).
  pose proof (Hz k v v' Hv Hv') as Hvz.
  destruct (Z.eqb_spec v 0) as [->|Hv0], (Z.eqb_spec v' 0) as [->|Hv0'];
    try (by destruct Hvz as [? ?]; auto); cbn [negb].
  - rewrite !ret_eq. split; [done|]. cbn [fst snd]. split; [|done].
    split; [done|]. split; [done|]. split; [|done].
    intros i Hi. destruct (decide (i = k)) as [->|]; [congruence|apply Heq; lia].
  - tauto.
  - tauto.
  - assert (∀ w, px_set d (row_ptr cols y) x w = Ok (<[k := w]> d)) as Hset.
    { intros w. apply px_set_Ok. split; [|done]. unfold row_ptr. fold k. lia. }
    assert (∀ w, px_set d' (row_ptr cols y) x w = Ok (<[k := w]> d')) as Hset'.
    { intros w. apply px_set_Ok. split; [|done]. unfold row_ptr. fold k. lia. }
    assert (∀ w D, (k < length D)%nat →
                   px_at (<[k := w]> D) (row_ptr cols y) x = Ok w) as Hat.
    { intros w D HD. apply px_at_Ok. unfold row_ptr. fold k.
      by apply list_lookup_insert_eq. }
    rewrite !bind_eq, !lift_eq, <-Hgn.
    destruct (getNeighbors d _ _ _ _ _) as [ns|e]; [|by split].
    destruct (decide (ns = [])) as [->|Hne].
    + rewrite !bind_eq. unfold get_nextLabel at 1 3. rewrite !bind_eq, !lift_eq.
      rewrite Hset, Hset'. rewrite !bind_eq. unfold set_nextLabel.
      rewrite !bind_eq. unfold get_nextLabel. rewrite !bind_eq.
      unfold get_maxComponent. cbn [nextLabel maxComponent].
      destruct (_ >=? _); [by split|]. rewrite !ret_eq.
      split; [done|]. cbn [fst snd]. split; [|done].
      by apply same_support_insert.
    + destruct (vec_at ns _) as [m|e]; [|by split].
      repeat progress (rewrite ?bind_eq, ?lift_eq, ?Hset, ?Hset'; cbv beta iota).
      rewrite (foreach_union_all (<[k := m]> d) _ _ m) by (apply Hat; lia).
      rewrite (foreach_union_all (<[k := m]> d') _ _ m) by (apply Hat; lia).
      destruct (union_all m ns linked) as [l'|e]; [|by split].
      rewrite !ret_eq. split; [done|]. cbn [fst snd]. split; [|done].
      by apply same_support_insert.
Qed.

Lemma pass1_sim n rows cols d d' linked s :
  n = (rows * cols)%nat →
  same_support n 0 d d' →
  pass1 rows cols d linked s = pass1 rows cols d' linked s.
Proof.
  intros Hn Hsup. unfold pass1. rewrite !bind_eq.
  pose proof (for_sim
    (λ y (st st' : list Z * list Z * option nat),
       same_support n (y * cols) st.1.1 st'.1.1 ∧ st.1.2 = st'.1.2 ∧
       st.2 = st'.2 ∧ st.2 = prev_ptr_at cols y)
    (pass1_row cols) rows O (d, linked, None) (d', linked, None) s) as H.
  destruct H as [Hs Ho].
  - done.
  - intros y [[e l] pp] [[e' l'] pp'] t Hy (Hsup' & Hl & Hpp & Hpp').
    cbn [fst snd] in *. subst l' pp' pp. unfold pass1_row. rewrite !bind_eq.
    pose proof (for_sim
      (λ x (st st' : list Z * list Z),
         same_support n (y * cols + x) st.1 st'.1 ∧ st.2 = st'.2)
      (pass1_pixel cols (row_ptr cols y) (prev_ptr_at cols y) y)
      cols O (e, l) (e', l) t) as H.
    destruct H as [Hs Ho].
    + cbn [fst snd]. by rewrite Nat.add_0_r.
    + intros x [f m] [f' m'] u Hx [Hsup'' Hm]. cbn [fst snd] in *. subst m'.
      replace (y * cols + S x)%nat with (S (y * cols + x)) by lia.
      apply pass1_pixel_sim; [lia|done].
    + destruct (for_ cols 0 _ (e, l) t) as [[[f m]|err] u],
               (for_ cols 0 _ (e', l) t) as [[[f' m']|err'] u'];
        cbn [fst snd] in *; try done; subst u'.
      destruct Ho as [Hsup'' <-]. rewrite !ret_eq. split; [done|].
      cbn [fst snd]. replace (S y * cols)%nat with (y * cols + (0 + cols))%nat by lia.
      done.
  - destruct (for_ rows 0 _ (d, linked, None) s) as [[[[f m] pp]|err] u],
             (for_ rows 0 _ (d', linked, None) s) as [[[[f' m'] pp']|err'] u'];
      cbn [fst snd] in *; try done; subst u'.
    + destruct Ho as ((Hl & Hl' & Heq & _) & <- & _). rewrite !ret_eq.
      cbn [fst snd]. do 3 f_equal.
      apply list_eq_same_length with n; [done|done|].
      intros i a b Hi Ha Hb. rewrite Heq in Ha by lia. congruence.
    + by subst.
Qed.

(** ** A larger capacity does not change the labelling *)

Definition with_maxComponent (s : ConnectedComponent) (v : Z) : ConnectedComponent :=
  mkConnectedComponent v (nextLabel s) (properties s).

Lemma vec_at_app v ext i x : vec_at v i = Ok x → vec_at (v ++ ext) i = Ok x.
Proof.
  intros [Hi Hx]%vec_at_Ok. apply vec_at_Ok. split; [done|].
  by apply lookup_app_l_Some.
Qed.

Lemma vec_set_app v ext i x v' :
  vec_set v i x = Ok v' → vec_set (v ++ ext) i x = Ok (v' ++ ext).
Proof.
  intros [[Hi Hlt] ->]%vec_set_Ok. apply vec_set_Ok.
  split; [rewrite length_app; lia|]. by rewrite insert_app_l by lia.
Qed.

Lemma chase_pad fuel : ∀ parent a r ext fuel',
  chase fuel parent a = Ok r → (fuel ≤ fuel')%nat →
  chase fuel' (parent ++ ext) a = Ok r.
Proof.
  induction fuel as [|fuel IH]; intros parent a r ext fuel' Hc Hle; [done|].
  destruct fuel' as [|fuel']; [lia|]. cbn [chase] in *.
  unfold mbind, outcome_bind, obind in *.
  destruct (vec_at parent a) as [p|] eqn:Hp; [|done].
  rewrite (vec_at_app _ ext _ _ Hp).
  destruct (p >? 0); [|done]. apply IH; [done|lia].
Qed.

Lemma disjointUnion_pad a b parent parent' ext :
  disjointUnion a b parent = Ok parent' →
  disjointUnion a b (parent ++ ext) = Ok (parent' ++ ext).
Proof.
  unfold disjointUnion, mbind, outcome_bind, obind. intros H.
  destruct (chase (chase_fuel parent) parent a) as [ra|] eqn:Ha; [|done].
  destruct (chase (chase_fuel parent) parent b) as [rb|] eqn:Hb; [|done].
  assert (chase_fuel parent ≤ chase_fuel (parent ++ ext))%nat as Hle.
  { unfold chase_fuel. rewrite length_app. lia. }
  rewrite (chase_pad _ _ _ _ ext _ Ha Hle), (chase_pad _ _ _ _ ext _ Hb Hle).
  destruct (decide (ra ≠ rb)); [|by injection H as <-].
  destruct (ra <? rb); by apply vec_set_app.
Qed.

Lemma union_all_pad a neighbors ext : ∀ linked linked',
  union_all a neighbors linked = Ok linked' →
  union_all a neighbors (linked ++ ext) = Ok (linked' ++ ext).
Proof.
  induction neighbors as [|n ns IH]; intros linked linked' H; cbn [union_all] in *.
  - by injection H as <-.
  - unfold mbind, outcome_bind, obind in *.
    destruct (disjointUnion a n linked) as [l1|] eqn:Hu; [|done].
    rewrite (disjointUnion_pad _ _ _ _ ext Hu). by apply IH.
Qed.

Lemma for_fsim {A B} (R : A → ConnectedComponent → B → ConnectedComponent → Prop)
    (body : nat → A → M A) (body' : nat → B → M B) n :
  (∀ j a s b t a2 s2, R a s b t → body j a s = (Ok a2, s2) →
                      ∃ b2 t2, body' j b t = (Ok b2, t2) ∧ R a2 s2 b2 t2) →
  ∀ i a s b t a2 s2,
    R a s b t → for_ n i body a s = (Ok a2, s2) →
    ∃ b2 t2, for_ n i body' b t = (Ok b2, t2) ∧ R a2 s2 b2 t2.
Proof.
  intros Hbody. induction n as [|n IH]; intros i a s b t a2 s2 HR Hrun.
  - cbn [for_] in *. rewrite ret_eq in Hrun. injection Hrun as <- <-.
    by exists b, t.
  - cbn [for_] in Hrun |- *. rewrite bind_eq in Hrun. rewrite bind_eq.
    destruct (body i a s) as [[a1|e] s1] eqn:Hb; [|done].
    destruct (Hbody i a s b t a1 s1 HR Hb) as (b1 & t1 & -> & HR1).
    by eapply IH.
Qed.

Lemma get_nextLabel_eq s : get_nextLabel s = (Ok (nextLabel s), s).
Proof. done. Qed.

Lemma set_nextLabel_eq v s : set_nextLabel v s = (Ok tt, with_nextLabel s v).
Proof. done. Qed.

Lemma get_maxComponent_eq s : get_maxComponent s = (Ok (maxComponent s), s).
Proof. done. Qed.

Ltac mstep :=
  repeat progress
    (rewrite ?bind_eq, ?lift_eq, ?ret_eq, ?get_nextLabel_eq, ?set_nextLabel_eq,
       ?get_maxComponent_eq;
     cbv beta iota).

Section larger_capacity.
Context (mc' : Z) (ext : list Z).

Lemma pass1_pixel_pad cols cp pp y x d l s d2 l2 s2 :
  maxComponent s <= mc' →
  pass1_pixel cols cp pp y x (d, l) s = (Ok (d2, l2), s2) →
  pass1_pixel cols cp pp y x (d, l ++ ext) (with_maxComponent s mc')
  = (Ok (d2, l2 ++ ext), with_maxComponent s2 mc') ∧ maxComponent s2 = maxComponent s.
Proof.
  intros Hmc. unfold pass1_pixel. mstep.
  destruct (px_at d cp x) as [v|]; [|done]. mstep.
  destruct (negb (v =? 0)); mstep.
  2:{ by intros [= <- <- <-]. }
  destruct (getNeighbors d cp pp x y cols) as [ns|]; [|done]. mstep.
  destruct (decide (ns = [])) as [->|Hne].
  - mstep. cbn [nextLabel with_maxComponent].
    destruct (px_set d cp x (nextLabel s)) as [d1|]; [|done]. mstep.
    cbn [nextLabel maxComponent properties with_maxComponent with_nextLabel].
    destruct (Z.geb_spec (int_wrap (nextLabel s + 1)) (maxComponent s)); [done|].
    destruct (Z.geb_spec (int_wrap (nextLabel s + 1)) mc'); [lia|].
    mstep. by intros [= <- <- <-].
  - mstep. destruct (vec_at ns _) as [m|]; [|done]. mstep.
    destruct (px_set d cp x m) as [d1|] eqn:Hset; [|done]. mstep.
    apply px_set_Ok in Hset as [Hlt ->].
    assert (px_at (<[(cp + x)%nat := m]> d) cp x = Ok m) as Hat.
    { apply px_at_Ok. by apply list_lookup_insert_eq. }
    rewrite !(foreach_union_all _ _ _ m) by done.
    destruct (union_all m ns l) as [l1|] eqn:Hu; [|done].
    rewrite (union_all_pad _ _ ext _ _ Hu). mstep.
    by intros [= <- <- <-].
Qed.

Lemma pass1_pad rows cols d l s d1 l1 s1 :
  maxComponent s <= mc' →
  pass1 rows cols d l s = (Ok (d1, l1), s1) →
  pass1 rows cols d (l ++ ext) (with_maxComponent s mc')
  = (Ok (d1, l1 ++ ext), with_maxComponent s1 mc').
Proof.
  intros Hmc. unfold pass1. rewrite !bind_eq.
  destruct (for_ rows 0 (pass1_row cols) (d, l, None) s) as [[[[d0 l0] pp0]|] s0] eqn:Hrun;
    [|done].
  rewrite ret_eq. intros [= <- <- <-].
  destruct (for_fsim
    (λ (a : list Z * list Z * option nat) u (b : list Z * list Z * option nat) t,
       b = (a.1.1, a.1.2 ++ ext, a.2) ∧ t = with_maxComponent u mc'
       ∧ maxComponent u <= mc')
    (pass1_row cols) (pass1_row cols) rows) with
    (i := O) (a := (d, l, @None nat)) (s := s) (b := (d, l ++ ext, @None nat))
    (t := with_maxComponent s mc') (a2 := (d0, l0, pp0)) (s2 := s0)
    as (b2 & t2 & -> & -> & -> & _); [|done|done|done].
  intros j [[e m] pp] u b t [[e2 m2] pp2] u2 (-> & -> & Hu) Hrow.
  cbn [fst snd] in *. unfold pass1_row in Hrow |- *. rewrite bind_eq in Hrow. rewrite bind_eq.
  destruct (for_ cols 0 _ (e, m) u) as [[[e1 m1]|] u1] eqn:Hpix; [|done].
  rewrite ret_eq in Hrow. injection Hrow as <- <- <- <-.
  destruct (for_fsim
    (λ (a : list Z * list Z) v (b : list Z * list Z) t,
       b = (a.1, a.2 ++ ext) ∧ t = with_maxComponent v mc' ∧ maxComponent v <= mc')
    (pass1_pixel cols (row_ptr cols j) pp j)
    (pass1_pixel cols (row_ptr cols j) pp j) cols) with
    (i := O) (a := (e, m)) (s := u) (b := (e, m ++ ext))
    (t := with_maxComponent u mc') (a2 := (e1, m1)) (s2 := u1)
    as (b2 & t2 & -> & -> & -> & Hu1); [|done|done|].
  - intros x [f n] v b t [f2 n2] v2 (-> & -> & Hv) Hstep. cbn [fst snd] in *.
    destruct (pass1_pixel_pad _ _ _ _ _ _ _ _ _ _ _ Hv Hstep) as [-> Hk].
    eexists _, _. split; [done|]. split; [done|]. split; [done|]. lia.
  - rewrite ret_eq. eexists _, _. split; [done|]. done.
Qed.

Lemma disjointFind_pad a parent labels s f labels' s' ext2 :
  disjointFind a parent labels s = (Ok (f, labels'), s') →
  disjointFind a (parent ++ ext) (labels ++ ext2) (with_maxComponent s mc')
  = (Ok (f, labels' ++ ext2), with_maxComponent s' mc').
Proof.
  unfold disjointFind. mstep.
  destruct (chase (chase_fuel parent) parent a) as [r|] eqn:Hc; [|done].
  assert (chase_fuel parent ≤ chase_fuel (parent ++ ext))%nat as Hle.
  { unfold chase_fuel. rewrite length_app. lia. }
  rewrite (chase_pad _ _ _ _ ext _ Hc Hle). mstep.
  destruct (vec_at labels r) as [l|] eqn:Hl; [|done].
  rewrite (vec_at_app _ ext2 _ _ Hl). mstep.
  destruct (l =? 0).
  - mstep. cbn [nextLabel maxComponent properties with_maxComponent].
    destruct (vec_set labels r (nextLabel s)) as [ls|] eqn:Hset; [|done].
    rewrite (vec_set_app _ ext2 _ _ _ Hset). mstep.
    destruct (vec_at ls r) as [g|] eqn:Hg; [|done].
    rewrite (vec_at_app _ ext2 _ _ Hg). mstep. by intros [= <- <- <-].
  - mstep. rewrite Hl, (vec_at_app _ ext2 _ _ Hl). mstep.
    by intros [= <- <- <-].
Qed.

Lemma pass2_pixel_pad linked cp x d ls t s d2 ls2 t2 s2 ext2 :
  pass2_pixel linked cp x (d, ls, t) s = (Ok (d2, ls2, t2), s2) →
  pass2_pixel (linked ++ ext) cp x (d, ls ++ ext2, t) (with_maxComponent s mc')
  = (Ok (d2, ls2 ++ ext2, t2), with_maxComponent s2 mc').
Proof.
  unfold pass2_pixel. mstep.
  destruct (px_at d cp x) as [v|]; [|done]. mstep.
  destruct (negb (v =? 0)); mstep.
  2:{ by intros [= <- <- <- <-]. }
  destruct (disjointFind v linked ls s) as [[[f ls1]|] s1] eqn:Hfind; [|done].
  rewrite (disjointFind_pad _ _ _ _ _ _ _ ext2 Hfind). cbn [fst snd]. mstep.
  destruct (px_set d cp x f) as [d1|]; [|done]. mstep.
  destruct (px_at d1 cp x) as [w|]; [|done]. mstep.
  by intros [= <- <- <- <-].
Qed.

Lemma pass2_pad rows cols linked d ls s d2 ls2 t2 s2 ext2 :
  pass2 rows cols linked d ls s = (Ok (d2, ls2, t2), s2) →
  pass2 rows cols (linked ++ ext) d (ls ++ ext2) (with_maxComponent s mc')
  = (Ok (d2, ls2 ++ ext2, t2), with_maxComponent s2 mc').
Proof.
  unfold pass2. intros Hrun.
  destruct (for_fsim
    (λ (a : list Z * list Z * list Z) u (b : list Z * list Z * list Z) t,
       b = (a.1.1, a.1.2 ++ ext2, a.2) ∧ t = with_maxComponent u mc')
    (pass2_row cols linked) (pass2_row cols (linked ++ ext)) rows) with
    (i := O) (a := (d, ls, @nil Z)) (s := s) (b := (d, ls ++ ext2, @nil Z))
    (t := with_maxComponent s mc') (a2 := (d2, ls2, t2)) (s2 := s2)
    as (b2 & u2 & -> & -> & ->); [|done|done|done].
  intros j a u b t a2 u2 (-> & ->) Hrow. unfold pass2_row in Hrow |- *.
  eapply (for_fsim
    (λ (a : list Z * list Z * list Z) u (b : list Z * list Z * list Z) t,
       b = (a.1.1, a.1.2 ++ ext2, a.2) ∧ t = with_maxComponent u mc')
    (pass2_pixel linked (row_ptr cols j))
    (pass2_pixel (linked ++ ext) (row_ptr cols j)) cols); [|done|exact Hrow].
  intros x [[e m] tt] v b t [[e2 m2] tt2] v2 (-> & ->) Hstep. cbn [fst snd] in *.
  rewrite (pass2_pixel_pad _ _ _ _ _ _ _ _ _ _ _ ext2 Hstep).
  by eexists _, _.
Qed.
End larger_capacity.

Lemma replicate_pad (mc mc' : Z) :
  0 <= mc <= mc' →
  replicate (Z.to_nat mc') 0 = replicate (Z.to_nat mc) 0 ++ replicate (Z.to_nat (mc' - mc)) 0.
Proof.
  intros H. rewrite <-replicate_add. f_equal. lia.
Qed.

Lemma apply_larger image this mc' result this' :
  maxComponent this <= mc' →
  apply image this = (Ok result, this') →
  apply image (with_maxComponent this mc') = (Ok result, with_maxComponent this' mc').
Proof.
  intros Hmc Happ. pose proof (apply_type _ _ _ _ Happ) as Hty.
  rewrite apply_stages in Happ |- * by done.
  cbn [maxComponent with_maxComponent].
  destruct (Z.ltb_spec (maxComponent this) 0); [done|].
  destruct (Z.ltb_spec mc' 0); [lia|].
  pose proof (pass1_keeps (mat_rows image) (mat_cols image) (mat_data image)
                (replicate (Z.to_nat (maxComponent this)) 0)
                (with_nextLabel this 1)) as K1.
  destruct (pass1 _ _ _ _ (with_nextLabel this 1)) as [[[d1 l1]|] s1] eqn:Hp1; [|done].
  cbn [fst snd maxComponent with_nextLabel] in K1, Happ.
  change (with_nextLabel (with_maxComponent this mc') 1)
    with (with_maxComponent (with_nextLabel this 1) mc').
  rewrite (replicate_pad (maxComponent this) mc') by lia.
  rewrite (pass1_pad mc' _ _ _ _ _ _ _ _ _
             (Hmc : maxComponent (with_nextLabel this 1) <= mc') Hp1).
  cbn [fst snd maxComponent with_maxComponent].
  rewrite K1 in Happ.
  destruct (Z.ltb_spec (maxComponent this) 0); [lia|].
  destruct (Z.ltb_spec mc' 0); [lia|].
  destruct (pass2 _ _ _ _ _ (with_nextLabel s1 1)) as [[[[d2 ls2] t2]|] s2] eqn:Hp2;
    [|done].
  change (with_nextLabel (mkConnectedComponent mc' (nextLabel s1) (properties s1)) 1)
    with (with_maxComponent (with_nextLabel s1 1) mc').
  rewrite (replicate_pad (maxComponent this) mc') by lia.
  rewrite (pass2_pad mc' _ _ _ _ _ _ _ _ _ _ _ _ Hp2).
  cbn [fst snd] in *. by injection Happ as <- <-.
Qed.

(** * Worked example

    A 4 x 5 image with a U-shaped region (whose two arms receive different
    provisional labels that the bottom row unites) and two isolated pixels. *)

Definition demo_image : Mat :=
  mkMat CV_8UC1 4 5
    [255;   0; 255;   0;   0;
     255;   0; 255;   0;   9;
     255; 255; 255;   0;   0;
       0;   0;   0;   0;   7].

Definition demo_object : ConnectedComponent := ConnectedComponent_new 10.

Definition demo_result : Mat :=
  mkMat CV_32SC1 4 5
    [1; 0; 1; 0; 0;
     1; 0; 1; 0; 2;
     1; 1; 1; 0; 0;
     0; 0; 0; 0; 3].

Definition demo_final : ConnectedComponent :=
  mkConnectedComponent 10 4 (property_of demo_result <$> [1; 2; 3]).

Lemma demo_apply : apply demo_image demo_object = (Ok demo_result, demo_final).
Proof. vm_compute. reflexivity. Qed.

Lemma demo_wf : wf_mat demo_image.
Proof.
  split; [reflexivity|]. intros _. unfold demo_image. cbn [mat_data].
  repeat (constructor; [lia|]). constructor.
Qed.

Lemma demo_int : in_int (maxComponent demo_object).
Proof. unfold in_int, int_min, int_max. cbn. lia. Qed.

(** ** Further small inputs *)

(** Three labels, with 1 linked below 2. *)
Definition linked_pair : list Z := [0; 2; 0].

Lemma forest_zeros : forest 3 [0; 0; 0].
Proof. apply (forest_replicate 3 3). Qed.

Lemma forest_linked_pair : forest 3 linked_pair.
Proof.
  intros a p [Ha Hp]%vec_at_Ok. unfold linked_pair in Hp.
  destruct (Z.to_nat a) as [|[|[|k]]] eqn:Hk; simpl in Hp; try done;
    injection Hp as <-; [by left|right; lia|by left].
Qed.

Lemma same_class_linked_pair : same_class linked_pair 1 2.
Proof.
  exists 2. split.
  - eapply reaches_step; [reflexivity|lia|]. by eapply reaches_root.
  - by eapply reaches_root.
Qed.

(** A 2 x 2 image without foreground. *)
Definition blank_image : Mat := mkMat CV_8UC1 2 2 [0; 0; 0; 0].

(** The worked example with other non-zero intensities. *)
Definition demo_image_dim : Mat :=
  mkMat CV_8UC1 4 5
    [1; 0; 2; 0; 0;
     3; 0; 4; 0; 5;
     6; 7; 8; 0; 0;
     0; 0; 0; 0; 9].

Lemma demo_same_zeros i a b :
  mat_data demo_image !! i = Some a → mat_data demo_image_dim !! i = Some b →
  (a = 0 ↔ b = 0).
Proof.
  unfold demo_image, demo_image_dim. cbn [mat_data].
  do 20 (destruct i as [|i]; [intros [= <-] [= <-]; lia|]). done.
Qed.

Lemma single_pixel_wf : wf_mat single_pixel_image.
Proof. split; [reflexivity|]. intros _. repeat constructor; cbn; lia. Qed.

(** * Theorems *)

(** C1: for every single-channel 8-bit image on which [apply] succeeds, two
    foreground pixels receive the same final label exactly when they lie in
    the same 8-connected component of the foreground. *)
Theorem labels_are_components (image : Mat) (this : ConnectedComponent)
    (result : Mat) (this' : ConnectedComponent) :
  wf_mat image → in_int (maxComponent this) →
  apply image this = (Ok result, this') →
  ∀ p q, foreground image p → foreground image q →
         (mat_at result p = mat_at result q ↔ connected image p q).
Proof.
  intros Hwf [_ Hmc] Happ p q Hp Hq.
  destruct (apply_ok_run image this result this' Hwf Hmc Happ)
    as (data1 & linked & s1 & labels_set & temp & s2 & H1 & H2 & Hres & _).
  unfold mat_at. rewrite Hres. cbn [mat_data mat_cols].
  destruct Hwf as [Hlen _].
  eapply same_label_iff; eassumption.
Qed.

Lemma labels_are_components_witness :
  wf_mat demo_image ∧ in_int (maxComponent demo_object) ∧
  apply demo_image demo_object = (Ok demo_result, demo_final) ∧
  foreground demo_image (0, 0)%nat ∧ foreground demo_image (1, 2)%nat ∧
  (mat_at demo_result (0, 0)%nat = mat_at demo_result (1, 2)%nat
   ↔ connected demo_image (0, 0)%nat (1, 2)%nat).
Proof.
  assert (∀ y x v, mat_at demo_image (y, x) = Some v → v ≠ 0 →
            (y < 4)%nat → (x < 5)%nat → foreground demo_image (y, x)) as Hfg.
  { intros y x v Hv Hv0 Hy Hx. split; [by split|]. by exists v. }
  split; [exact demo_wf|]. split; [exact demo_int|]. split; [exact demo_apply|].
  split; [apply (Hfg _ _ 255); [reflexivity|lia|lia|lia]|].
  split; [apply (Hfg _ _ 255); [reflexivity|lia|lia|lia]|].
  apply (labels_are_components demo_image demo_object demo_result demo_final
           demo_wf demo_int demo_apply).
  - apply (Hfg _ _ 255); [reflexivity|lia|lia|lia].
  - apply (Hfg _ _ 255); [reflexivity|lia|lia|lia].
Defined.

(** C2: when [apply] succeeds, the positive values of the label image are
    exactly 1 .. N, where N, the number of stored records, is the number of
    8-connected foreground components; background pixels stay zero. *)
Theorem final_labels_dense (image : Mat) (this : ConnectedComponent)
    (result : Mat) (this' : ConnectedComponent) :
  wf_mat image → in_int (maxComponent this) →
  apply image this = (Ok result, this') →
  component_count image (length (properties this')) ∧
  (∀ v, (0 < v ∧ ∃ p, in_image (mat_rows image) (mat_cols image) p
                      ∧ mat_at result p = Some v)
        ↔ 1 <= v <= Z.of_nat (length (properties this'))) ∧
  (∀ p, in_image (mat_rows image) (mat_cols image) p →
        mat_at image p = Some 0 → mat_at result p = Some 0).
Proof.
  intros Hwf [_ Hmc] Happ.
  destruct (apply_ok_run image this result this' Hwf Hmc Happ)
    as (data1 & linked & s1 & labels_set & temp & s2 & H1 & H2 & Hres & ->).
  destruct Hwf as [Hlen _].
  pose proof (j_next _ _ _ _ _ _ _ _ _ _ _ H2) as Hn.
  cbn [properties with_properties]. rewrite length_fmap.
  erewrite final_labels_length; [|eassumption..].
  unfold mat_at. rewrite Hres. cbn [mat_data mat_cols].
  split; [|split].
  - eapply final_component_count; eassumption.
  - intros v.
    assert ((∃ p, in_image (mat_rows image) (mat_cols image) p
                  ∧ mat_data result !! idx (mat_cols image) p = Some v ∧ v ≠ 0)
            ↔ 1 <= v < nextLabel s2) as Hd
      by (eapply labels_dense; eassumption).
    split.
    + intros (Hv & p & Hp & Hpv).
      destruct (proj1 Hd) as [? ?]; [|lia]. exists p. split; [done|]. split; [done|lia].
    + intros Hv. destruct (proj2 Hd) as (p & Hp & Hpv & _); [lia|].
      split; [lia|]. by exists p.
  - intros p Hp Hz.
    eapply bg_stays; eassumption.
Qed.

Lemma final_labels_dense_witness :
  wf_mat demo_image ∧ in_int (maxComponent demo_object) ∧
  apply demo_image demo_object = (Ok demo_result, demo_final) ∧
  component_count demo_image (length (properties demo_final)) ∧
  (∀ v, (0 < v ∧ ∃ p, in_image (mat_rows demo_image) (mat_cols demo_image) p
                      ∧ mat_at demo_result p = Some v)
        ↔ 1 <= v <= Z.of_nat (length (properties demo_final))) ∧
  (∀ p, in_image (mat_rows demo_image) (mat_cols demo_image) p →
        mat_at demo_image p = Some 0 → mat_at demo_result p = Some 0).
Proof.
  split; [exact demo_wf|]. split; [exact demo_int|]. split; [exact demo_apply|].
  exact (final_labels_dense demo_image demo_object demo_result demo_final
           demo_wf demo_int demo_apply).
Defined.

(** C6: when [apply] succeeds, the areas of the records add up to the number
    of foreground pixels of the input, counted on the input buffer by
    [count_nz], which is no part of [apply]. *)
Theorem areas_sum_to_foreground (image : Mat) (this : ConnectedComponent)
    (result : Mat) (this' : ConnectedComponent) :
  wf_mat image → in_int (maxComponent this) →
  apply image this = (Ok result, this') →
  total_area (properties this') = Z.of_nat (count_nz (mat_data image)).
Proof.
  intros Hwf [_ Hmc] Happ.
  destruct (apply_ok_run image this result this' Hwf Hmc Happ)
    as (data1 & linked & s1 & labels_set & temp & s2 & H1 & H2 & Hres & ->).
  destruct Hwf as [Hlen _]. cbn [properties with_properties].
  erewrite final_area_sum; [done|eassumption..|done].
Qed.

Lemma areas_sum_to_foreground_witness :
  wf_mat demo_image ∧ in_int (maxComponent demo_object) ∧
  apply demo_image demo_object = (Ok demo_result, demo_final) ∧
  total_area (properties demo_final) = Z.of_nat (count_nz (mat_data demo_image)).
Proof.
  split; [exact demo_wf|]. split; [exact demo_int|]. split; [exact demo_apply|].
  exact (areas_sum_to_foreground demo_image demo_object demo_result demo_final
           demo_wf demo_int demo_apply).
Defined.

(** C5: an image that is not single-channel 8-bit is rejected at once with
    the precondition error: no label image is produced and the object, its
    property records included, is left as it was. *)
Theorem precondition_rejected (image : Mat) (this : ConnectedComponent) :
  mat_type image ≠ CV_8UC1 →
  apply image this = (Throw PreconditionViolation, this).
Proof.
  intros Hty. unfold apply. by destruct (decide (mat_type image = CV_8UC1)).
Qed.

Lemma precondition_rejected_witness :
  mat_type (mkMat 16 1 1 [1; 2; 3]) ≠ CV_8UC1 ∧
  apply (mkMat 16 1 1 [1; 2; 3]) demo_final
  = (Throw PreconditionViolation, demo_final).
Proof.
  assert (mat_type (mkMat 16 1 1 [1; 2; 3]) ≠ CV_8UC1) as Hty by done.
  split; [exact Hty|]. exact (precondition_rejected _ demo_final Hty).
Defined.

(** C8: a successful run is a function of the image and of [maxComponent]:
    from any object with the same [maxComponent], and in particular from the
    object the first run left behind, [apply] returns the same label image
    and leaves the same records. *)
Theorem apply_deterministic (image : Mat) (this other : ConnectedComponent)
    (result : Mat) (this' : ConnectedComponent) :
  maxComponent other = maxComponent this →
  apply image this = (Ok result, this') →
  apply image other = (Ok result, this') ∧ apply image this' = (Ok result, this').
Proof.
  intros Hmc Happ. split.
  - by apply (apply_indep image this).
  - apply (apply_indep image this); [|done]. by eapply apply_keeps.
Qed.

Lemma apply_deterministic_witness :
  maxComponent (mkConnectedComponent 10 77 [ComponentProperty_zero])
  = maxComponent demo_object ∧
  apply demo_image demo_object = (Ok demo_result, demo_final) ∧
  apply demo_image (mkConnectedComponent 10 77 [ComponentProperty_zero])
  = (Ok demo_result, demo_final) ∧
  apply demo_image demo_final = (Ok demo_result, demo_final).
Proof.
  split; [reflexivity|]. split; [exact demo_apply|].
  exact (apply_deterministic demo_image demo_object
           (mkConnectedComponent 10 77 [ComponentProperty_zero])
           demo_result demo_final eq_refl demo_apply).
Defined.

(** C3 (as the code has it): in a parent vector whose non-zero entries point
    to larger labels below [n], [disjointUnion a b] chases both arguments to
    their roots and, when the roots differ, redirects the smaller root to the
    larger one.  The vector keeps its shape, so every non-zero entry points
    to a larger label, [a] and [b] end in one class, and the root of a class
    is its largest label. *)
Theorem union_links_smaller_to_larger (n : Z) (parent : list Z) (a b : Z) :
  forest n parent → n <= Z.of_nat (length parent) →
  1 <= a < n → 1 <= b < n →
  ∃ ra rb parent',
    reaches parent a ra ∧ reaches parent b rb ∧
    disjointUnion a b parent = Ok parent' ∧
    parent' = (if decide (ra = rb) then parent
               else <[Z.to_nat (Z.min ra rb) := Z.max ra rb]> parent) ∧
    forest n parent' ∧ points_to_larger parent' ∧
    same_class parent' a b ∧
    (∀ c d r, reaches parent' c r → same_class parent' c d → d <= r).
Proof.
  intros Hf Hlen Ha Hb.
  destruct (disjointUnion_spec n parent a b Hf Hlen Ha Hb)
    as (ra & rb & Hra & Hrb & _ & _ & Hu).
  exists ra, rb. eexists. split; [done|]. split; [done|]. split; [exact Hu|].
  split; [done|].
  pose proof (disjointUnion_forest n parent _ a b Hf Hlen Ha Hb Hu) as Hf'.
  split; [done|]. split; [by eapply forest_points_to_larger|].
  split; [by apply (disjointUnion_joins n parent _ a b Hf Hlen Ha Hb Hu)|].
  intros c d r. by apply (forest_root_is_max n).
Qed.

Lemma union_links_smaller_to_larger_witness :
  forest 3 [0; 0; 0] ∧ 3 <= Z.of_nat (length [0; 0; 0]) ∧
  1 <= 1 < 3 ∧ 1 <= 2 < 3 ∧
  ∃ ra rb parent',
    reaches [0; 0; 0] 1 ra ∧ reaches [0; 0; 0] 2 rb ∧
    disjointUnion 1 2 [0; 0; 0] = Ok parent' ∧
    parent' = (if decide (ra = rb) then [0; 0; 0]
               else <[Z.to_nat (Z.min ra rb) := Z.max ra rb]> [0; 0; 0]) ∧
    forest 3 parent' ∧ points_to_larger parent' ∧
    same_class parent' 1 2 ∧
    (∀ c d r, reaches parent' c r → same_class parent' c d → d <= r).
Proof.
  assert (forest 3 [0; 0; 0]) as Hf by apply (forest_replicate 3 3).
  assert (3 <= Z.of_nat (length [0; 0; 0])) as Hl by (simpl; lia).
  assert (1 <= 1 < 3) as H1 by lia.
  assert (1 <= 2 < 3) as H2 by lia.
  split; [exact Hf|]. split; [exact Hl|]. split; [exact H1|]. split; [exact H2|].
  exact (union_links_smaller_to_larger 3 [0; 0; 0] 1 2 Hf Hl H1 H2).
Defined.

(** C3 as the specification states it fails: uniting the roots 1 and 2
    leaves the larger root 2 in place and makes the smaller root 1 point to
    it, so a non-zero entry points to a larger label. *)
Lemma union_direction_counterexample :
  ∃ parent',
    disjointUnion 1 2 [0; 0; 0] = Ok parent' ∧
    vec_at parent' 1 = Ok 2 ∧ vec_at parent' 2 = Ok 0 ∧
    ¬ points_to_smaller parent'.
Proof.
  exists [0; 2; 0]. split; [reflexivity|]. split; [reflexivity|].
  split; [reflexivity|].
  intros H. specialize (H 1 2 eq_refl ltac:(lia)). lia.
Qed.

(** When the guard of the first pass fires: on a well-formed 8-bit image,
    [apply] throws the label-capacity error exactly when at least one fresh
    provisional label is needed and the number needed reaches
    [maxComponent - 1], that is, when the counter [nextLabel], which starts
    at 1 and is incremented before it is tested, reaches [maxComponent]; the
    records are then untouched, and in every other case [apply] returns a
    label image. *)
Lemma capacity_failure_iff (image : Mat) (this : ConnectedComponent) :
  wf_mat image → mat_type image = CV_8UC1 →
  0 <= maxComponent this <= int_max →
  (capacity_failure image this ↔
   (1 ≤ fresh_labels image)%nat
   ∧ maxComponent this <= Z.of_nat (fresh_labels image) + 1)
  ∧ (¬ capacity_failure image this →
     ∃ result this', apply image this = (Ok result, this')).
Proof.
  intros [Hlen _] Hty Hmc.
  destruct (apply_cases image this Hlen Hty Hmc)
    as [(r & t & Hr & Hrun)|(t & Ht & _ & _ & Hp & Hf1 & Hf2)].
  - destruct Hrun as (data1 & linked & s1 & _ & _ & _ & H1 & _).
    pose proof (i_count _ _ _ _ _ _ _ _ H1) as Hc.
    pose proof (i_next _ _ _ _ _ _ _ _ H1) as [Hn1 Hn2].
    fold (fresh_labels image) in Hc.
    split; [split|].
    + intros (t' & Ht' & _). congruence.
    + lia.
    + intros _. by exists r, t.
  - assert (capacity_failure image this) as Hfail by by exists t.
    split; [split; [done|by intros _]|]. by intros H.
Qed.

Lemma capacity_failure_iff_witness :
  wf_mat two_blobs_image ∧ mat_type two_blobs_image = CV_8UC1 ∧
  0 <= maxComponent (ConnectedComponent_new 1) <= int_max ∧
  fresh_labels two_blobs_image = 2%nat ∧
  (capacity_failure two_blobs_image (ConnectedComponent_new 1) ↔
   (1 ≤ fresh_labels two_blobs_image)%nat
   ∧ maxComponent (ConnectedComponent_new 1)
     <= Z.of_nat (fresh_labels two_blobs_image) + 1)
  ∧ (¬ capacity_failure two_blobs_image (ConnectedComponent_new 1) →
     ∃ result this',
       apply two_blobs_image (ConnectedComponent_new 1) = (Ok result, this')).
Proof.
  assert (wf_mat two_blobs_image) as Hwf.
  { split; [reflexivity|]. intros _. unfold two_blobs_image. cbn [mat_data].
    repeat (constructor; [lia|]). constructor. }
  assert (0 <= maxComponent (ConnectedComponent_new 1) <= int_max) as Hmc.
  { unfold int_max. cbn. lia. }
  split; [exact Hwf|]. split; [reflexivity|]. split; [exact Hmc|].
  split; [reflexivity|].
  exact (capacity_failure_iff two_blobs_image (ConnectedComponent_new 1)
           Hwf eq_refl Hmc).
Defined.

(** C4: the guard fires one label early.  An image of one foreground pixel
    needs one fresh label; with [maxComponent = 2] the count has not reached
    [maxComponent], and [apply] throws the capacity error all the same, the
    counter standing at 2 (the message reads "label count [2] exceeds
    maximum no of components [2]").  With [maxComponent = 3] the same image
    is labelled.  The case the claim singles out, two labels needed with
    [maxComponent = 1], fails as the claim says. *)
Theorem capacity_guard_fires_early :
  fresh_labels single_pixel_image = 1%nat ∧
  Z.of_nat (fresh_labels single_pixel_image)
  < maxComponent (ConnectedComponent_new 2) ∧
  apply single_pixel_image (ConnectedComponent_new 2)
  = (Throw LabelCapacityExceeded, mkConnectedComponent 2 2 []) ∧
  (∃ result this',
     apply single_pixel_image (ConnectedComponent_new 3) = (Ok result, this')
     ∧ mat_data result = [1] ∧ length (properties this') = 1%nat) ∧
  fresh_labels two_blobs_image = 2%nat ∧
  apply two_blobs_image (ConnectedComponent_new 1)
  = (Throw LabelCapacityExceeded, mkConnectedComponent 1 2 []).
Proof.
  split; [reflexivity|]. split; [reflexivity|]. split; [reflexivity|].
  split; [|split; reflexivity].
  eexists _, _. split; [vm_compute; reflexivity|]. split; reflexivity.
Qed.

Lemma demo_prefix :
  pass1_prefix (mat_cols demo_image) 2 1 (mat_data demo_image)
    (replicate (Z.to_nat (maxComponent demo_object)) 0)
    (with_nextLabel demo_object 1)
  = (Ok (demo_mid_data, replicate 10 0), demo_mid_object).
Proof. vm_compute. reflexivity. Qed.

(** C9: in every state of the first pass, and after it, and after any
    further unions of assigned labels, following the parent pointers from an
    assigned label ends at a root: the chase returns it for the fuel the
    model uses and for any larger fuel.  Hence no chase of [disjointUnion]
    or [disjointFind] made by [apply] diverges. *)
Theorem parent_chains_terminate (image : Mat) (this : ConnectedComponent)
    (y x : nat) (data linked : list Z) (s : ConnectedComponent)
    (ops : list (Z * Z)) :
  wf_mat image → in_int (maxComponent this) →
  ((y < mat_rows image)%nat ∧ (x ≤ mat_cols image)%nat)
  ∨ (y = mat_rows image ∧ x = O) →
  pass1_prefix (mat_cols image) y x (mat_data image)
    (replicate (Z.to_nat (maxComponent this)) 0) (with_nextLabel this 1)
  = (Ok (data, linked), s) →
  Forall (λ ab, 1 <= ab.1 < nextLabel s ∧ 1 <= ab.2 < nextLabel s) ops →
  (∃ linked',
     union_seq ops linked = Ok linked' ∧
     ∀ a, 1 <= a < nextLabel s →
          ∃ r, reaches linked' a r ∧ a <= r < nextLabel s ∧
               ∀ fuel, (chase_fuel linked' ≤ fuel)%nat → chase fuel linked' a = Ok r)
  ∧ (∀ e t, apply image this = (Throw e, t) → e ≠ Diverges).
Proof.
  intros Hwf Hint Hyx Hrun Hops. split.
  2:{ intros e t Happ. by destruct (apply_safe image this e t Hwf Hint Happ)
        as [->|[->| ->]]. }
  destruct Hwf as [Hlen _]. destruct Hint as [_ Hmc].
  pose proof (pass1_prefix_wp image (maxComponent this) (properties this) y x
                (with_nextLabel this 1) Hlen Hmc Hyx eq_refl eq_refl eq_refl) as Hwp.
  apply (wp_ok _ _ _ _ _ _ Hwp) in Hrun. cbn [fst snd] in Hrun.
  pose proof (i_forest _ _ _ _ _ _ _ _ Hrun) as Hf.
  pose proof (i_llen _ _ _ _ _ _ _ _ Hrun) as Hl.
  pose proof (i_next _ _ _ _ _ _ _ _ Hrun) as [Hn1 Hn2].
  destruct (decide (nextLabel s = 1)) as [Hone|Hmore].
  - (* no label has been assigned yet *)
    assert (ops = []) as ->.
    { destruct ops as [|ab ops]; [done|].
      apply Forall_cons_1 in Hops as [[? _] _]. lia. }
    exists linked. split; [done|]. intros a Ha. lia.
  - assert (nextLabel s <= Z.of_nat (length linked)) as Hlen' by (rewrite Hl; lia).
    destruct (union_seq_spec (nextLabel s) ops linked Hf Hlen' Hops)
      as (linked' & Hseq & Hf' & Hl').
    exists linked'. split; [done|]. intros a Ha.
    apply chase_enough_fuel; [done|lia|lia].
Qed.

Lemma parent_chains_terminate_witness :
  wf_mat demo_image ∧ in_int (maxComponent demo_object) ∧
  (((2 < mat_rows demo_image)%nat ∧ (1 ≤ mat_cols demo_image)%nat)
   ∨ (2%nat = mat_rows demo_image ∧ 1%nat = O)) ∧
  pass1_prefix (mat_cols demo_image) 2 1 (mat_data demo_image)
    (replicate (Z.to_nat (maxComponent demo_object)) 0)
    (with_nextLabel demo_object 1)
  = (Ok (demo_mid_data, replicate 10 0), demo_mid_object) ∧
  Forall (λ ab, 1 <= ab.1 < nextLabel demo_mid_object
                ∧ 1 <= ab.2 < nextLabel demo_mid_object) [(1, 2); (2, 3)] ∧
  (∃ linked',
     union_seq [(1, 2); (2, 3)] (replicate 10 0) = Ok linked' ∧
     ∀ a, 1 <= a < nextLabel demo_mid_object →
          ∃ r, reaches linked' a r ∧ a <= r < nextLabel demo_mid_object ∧
               ∀ fuel, (chase_fuel linked' ≤ fuel)%nat → chase fuel linked' a = Ok r)
  ∧ (∀ e t, apply demo_image demo_object = (Throw e, t) → e ≠ Diverges).
Proof.
  assert (((2 < mat_rows demo_image)%nat ∧ (1 ≤ mat_cols demo_image)%nat)
          ∨ (2%nat = mat_rows demo_image ∧ 1%nat = O)) as Hyx.
  { left. cbn. lia. }
  assert (Forall (λ ab, 1 <= ab.1 < nextLabel demo_mid_object
                        ∧ 1 <= ab.2 < nextLabel demo_mid_object)
                 [(1, 2); (2, 3)]) as Hops.
  { repeat constructor; cbn; lia. }
  split; [exact demo_wf|]. split; [exact demo_int|]. split; [exact Hyx|].
  split; [exact demo_prefix|]. split; [exact Hops|].
  exact (parent_chains_terminate demo_image demo_object 2 1 demo_mid_data
           (replicate 10 0) demo_mid_object [(1, 2); (2, 3)]
           demo_wf demo_int Hyx demo_prefix Hops).
Defined.

(** C7: when the first pass reaches a foreground pixel that has a visited
    foreground neighbour (up, up-left, up-right or left, inside the image),
    [getNeighbors] returns the labels of those neighbours without
    repetition, the pixel takes the smallest of them, and that label is then
    united, by [disjointUnion], with every neighbour label in turn. *)
Theorem min_neighbor_label_assigned (image : Mat) (this : ConnectedComponent)
    (y x : nat) (data linked : list Z) (s : ConnectedComponent) :
  wf_mat image → in_int (maxComponent this) →
  (y < mat_rows image)%nat → (x < mat_cols image)%nat →
  pass1_prefix (mat_cols image) y x (mat_data image)
    (replicate (Z.to_nat (maxComponent this)) 0) (with_nextLabel this 1)
  = (Ok (data, linked), s) →
  foreground image (y, x) →
  (∃ q, q ∈ visited_neighbors (mat_cols image) (y, x) ∧ foreground image q) →
  ∃ neighbors m linked',
    getNeighbors data (row_ptr (mat_cols image) y) (prev_ptr_at (mat_cols image) y)
                 x y (mat_cols image) = Ok neighbors ∧
    NoDup neighbors ∧
    (∀ l, l ∈ neighbors ↔
          l ≠ 0 ∧ ∃ q, q ∈ visited_neighbors (mat_cols image) (y, x)
                       ∧ data !! idx (mat_cols image) q = Some l) ∧
    m ∈ neighbors ∧ (∀ l, l ∈ neighbors → m <= l) ∧
    union_all m neighbors linked = Ok linked' ∧
    pass1_pixel (mat_cols image) (row_ptr (mat_cols image) y)
                (prev_ptr_at (mat_cols image) y) y x (data, linked) s
    = (Ok (<[idx (mat_cols image) (y, x) := m]> data, linked'), s) ∧
    (∀ l, l ∈ neighbors → same_class linked' m l).
Proof.
  intros [Hlen _] [_ Hmc] Hy Hx Hrun Hfg (q & Hq & Hfq).
  pose proof (pass1_prefix_wp image (maxComponent this) (properties this) y x
                (with_nextLabel this 1) Hlen Hmc ltac:(left; lia)
                eq_refl eq_refl eq_refl) as Hwp.
  apply (wp_ok _ _ _ _ _ _ Hwp) in Hrun. cbn [fst snd] in Hrun.
  destruct (getNeighbors_spec data (mat_rows image) (mat_cols image) y x)
    as (ns & Hns & Hmem & _ & Hnd);
    [by rewrite (i_len _ _ _ _ _ _ _ _ Hrun)|done|done|].
  destruct (neighbors_labelled image _ _ Hlen y x data linked s Hy Hx Hrun ns Hns)
    as [Hsome Hall].
  pose proof (labelled_range image _ _ Hlen y x data linked s Hrun) as Hrange.
  (* the pixel still holds its input value *)
  destruct Hfg as [Hin (v & Hv & Hv0)].
  assert (data !! idx (mat_cols image) (y, x) = Some v) as Hdv.
  { rewrite (i_rest _ _ _ _ _ _ _ _ Hrun); [done|done|apply before_irrefl]. }
  (* the foreground neighbour contributes a label *)
  destruct (visited_before image y x Hy Hx q Hq) as (Hqin & Hqb & _).
  destruct (labelled_of_fg image _ _ Hlen y x data linked s Hrun q Hfq Hqb)
    as [lq Hlq].
  assert (ns ≠ []) as Hne.
  { intros ->. eapply elem_of_nil, (Hall q lq); done. }
  destruct (min_element_spec ns Hne) as (m & Hm & Hmin & Hle).
  assert (∀ w, w ∈ ns → 1 <= w < nextLabel s) as Hin'.
  { intros w (q' & _ & Hq')%Hsome. by apply (Hrange q' w). }
  pose proof (Hin' m Hmin) as Hmr.
  pose proof (i_next _ _ _ _ _ _ _ _ Hrun) as [_ Hn2].
  destruct (union_all_spec (nextLabel s) m ns linked)
    as (linked' & Hu & _ & _ & _ & Hjoin & _);
    [by apply (i_forest _ _ _ _ _ _ _ _ Hrun)
    |rewrite (i_llen _ _ _ _ _ _ _ _ Hrun); lia|done|done|].
  exists ns, m, linked'. split; [done|]. split; [done|]. split; [done|].
  split; [done|]. split; [done|]. split; [done|]. split; [|done].
  rewrite (pass1_pixel_join _ _ _ _ _ _ v ns m) by done. by rewrite Hu.
Qed.

Lemma min_neighbor_label_assigned_witness :
  wf_mat demo_image ∧ in_int (maxComponent demo_object) ∧
  (2 < mat_rows demo_image)%nat ∧ (1 < mat_cols demo_image)%nat ∧
  pass1_prefix (mat_cols demo_image) 2 1 (mat_data demo_image)
    (replicate (Z.to_nat (maxComponent demo_object)) 0)
    (with_nextLabel demo_object 1)
  = (Ok (demo_mid_data, replicate 10 0), demo_mid_object) ∧
  foreground demo_image (2, 1)%nat ∧
  (∃ q, q ∈ visited_neighbors (mat_cols demo_image) (2, 1)%nat
        ∧ foreground demo_image q) ∧
  ∃ neighbors m linked',
    getNeighbors demo_mid_data (row_ptr (mat_cols demo_image) 2)
                 (prev_ptr_at (mat_cols demo_image) 2) 1 2 (mat_cols demo_image)
    = Ok neighbors ∧
    NoDup neighbors ∧
    (∀ l, l ∈ neighbors ↔
          l ≠ 0 ∧ ∃ q, q ∈ visited_neighbors (mat_cols demo_image) (2, 1)%nat
                       ∧ demo_mid_data !! idx (mat_cols demo_image) q = Some l) ∧
    m ∈ neighbors ∧ (∀ l, l ∈ neighbors → m <= l) ∧
    union_all m neighbors (replicate 10 0) = Ok linked' ∧
    pass1_pixel (mat_cols demo_image) (row_ptr (mat_cols demo_image) 2)
                (prev_ptr_at (mat_cols demo_image) 2) 2 1
                (demo_mid_data, replicate 10 0) demo_mid_object
    = (Ok (<[idx (mat_cols demo_image) (2, 1)%nat := m]> demo_mid_data, linked'),
       demo_mid_object) ∧
    (∀ l, l ∈ neighbors → same_class linked' m l).
Proof.
  assert (2 < mat_rows demo_image)%nat as Hy by (cbn; lia).
  assert (1 < mat_cols demo_image)%nat as Hx by (cbn; lia).
  assert (foreground demo_image (2, 1)%nat) as Hfg.
  { split; [by split|]. by exists 255. }
  assert (∃ q, q ∈ visited_neighbors (mat_cols demo_image) (2, 1)%nat
               ∧ foreground demo_image q) as Hnb.
  { exists (2, 0)%nat. split.
    - apply visited_neighbors_cases. right. split; [lia|done].
    - split; [split; cbn; lia|]. by exists 255. }
  split; [exact demo_wf|]. split; [exact demo_int|]. split; [exact Hy|].
  split; [exact Hx|]. split; [exact demo_prefix|]. split; [exact Hfg|].
  split; [exact Hnb|].
  exact (min_neighbor_label_assigned demo_image demo_object 2 1 demo_mid_data
           (replicate 10 0) demo_mid_object demo_wf demo_int Hy Hx demo_prefix
           Hfg Hnb).
Defined.

Example demo_pixel_step :
  pass1_pixel 5 (row_ptr 5 2) (prev_ptr_at 5 2) 2 1
              (demo_mid_data, replicate 10 0) demo_mid_object
  = (Ok (<[11%nat := 1]> demo_mid_data, [0; 2; 0; 0; 0; 0; 0; 0; 0; 0]),
     demo_mid_object).
Proof. vm_compute. reflexivity. Qed.

Lemma eqb_zero (x : F64.t) :
  F64.eqb x (F64.of_Z 0) = true → ∃ b, x = S754_zero b.
Proof.
  destruct x as [b|b| |b m e]; intros H.
  - by exists b.
  - destruct b; discriminate H.
  - discriminate H.
  - destruct b; discriminate H.
Qed.

(** Whatever the signs of the zeros, second-order normalized central moments
    that are all zero give a first eigenvalue equal to zero, a quotient 0/0
    and hence a NaN eccentricity. *)
Lemma zero_spread_quotient_nan (moment : Moments) :
  F64.eqb (nu20 moment) (F64.of_Z 0) = true →
  F64.eqb (nu11 moment) (F64.of_Z 0) = true →
  F64.eqb (nu02 moment) (F64.of_Z 0) = true →
  F64.eqb (eig_val_1 moment) (F64.of_Z 0) = true ∧
  F64.div (eig_val_2 moment) (eig_val_1 moment) = S754_nan ∧
  calculateBlobEccentricity moment = S754_nan.
Proof.
  unfold calculateBlobEccentricity, eig_val_1, eig_val_2.
  destruct moment as [? ? ? ? ? ? ? ? ? n20 n11 n02]. cbn [nu20 nu11 nu02].
  intros [b20 ->]%eqb_zero [b11 ->]%eqb_zero [b02 ->]%eqb_zero.
  destruct b20, b11, b02; vm_compute; auto.
Qed.

(** C10: a single-pixel blob is a valid input whose second-order normalized
    central moments are all zero; for it the first eigenvalue is zero, the
    quotient of the eigenvalues is 0/0, and no fallback replaces the NaN that
    ends up in the stored record. *)
Theorem eccentricity_division_unguarded :
  ∃ result this' moment,
    wf_mat single_pixel_image ∧
    apply single_pixel_image demo_object = (Ok result, this') ∧
    properties this' = [property_of result 1] ∧
    area (property_of result 1) = 1 ∧
    moment = cv_moments (mat_eq_scalar result 1) ∧
    nu20 moment = S754_zero false ∧ nu11 moment = S754_zero false ∧
    nu02 moment = S754_zero false ∧
    F64.eqb (eig_val_1 moment) (F64.of_Z 0) = true ∧
    F64.div (eig_val_2 moment) (eig_val_1 moment) = S754_nan ∧
    calculateBlobEccentricity moment = S754_nan ∧
    eccentricity <$> properties this' = [S754_nan].
Proof.
  exists (mkMat CV_32SC1 1 1 [1]).
  exists (mkConnectedComponent 10 2 [property_of (mkMat CV_32SC1 1 1 [1]) 1]).
  exists (cv_moments (mat_eq_scalar (mkMat CV_32SC1 1 1 [1]) 1)).
  split.
  { split; [reflexivity|]. intros _. repeat constructor; cbn; lia. }
  split; [vm_compute; reflexivity|].
  repeat split; vm_compute; reflexivity.
Qed.

(** * Further properties

    Properties of the helper functions and of [apply] that the code shows
    beyond the ones above. *)

(** X1: whatever the buffer and the pointers, a list that [getNeighbors]
    returns is strictly increasing, holds at most four labels and no zero;
    hence [min_element] finds its minimum at index 0, so that
    [neighbors[min_index]] is the first entry and is the least. *)
Theorem getNeighbors_sorted_distinct (data : list Z) (curr_ptr : nat)
    (prev_ptr : option nat) (x y cols : nat) (neighbors : list Z) :
  getNeighbors data curr_ptr prev_ptr x y cols = Ok neighbors →
  StronglySorted Z.lt neighbors ∧ (length neighbors ≤ 4)%nat ∧
  Forall (λ v, v ≠ 0) neighbors ∧
  min_element neighbors = O ∧
  (∀ m, vec_at neighbors (Z.of_nat (min_element neighbors)) = Ok m →
        neighbors !! O = Some m ∧ ∀ v, v ∈ neighbors → m <= v).
Proof.
  intros Hget.
  assert (∃ raw, (length raw ≤ 4)%nat ∧ Forall (λ v, v ≠ 0) raw ∧
                 neighbors = match raw with
                             | [] => []
                             | _ => unique_copy (std_sort raw)
                             end) as (raw & Hlen & Hnz & ->).
  { unfold getNeighbors in Hget. cbv zeta in Hget.
    unfold mbind, outcome_bind, obind in Hget.
    destruct prev_ptr as [pp|].
    - destruct (push_guarded true data pp x []) as [r1|] eqn:H1; [|done].
      destruct (push_guarded _ data pp (x - 1) r1) as [r2|] eqn:H2; [|done].
      destruct (push_guarded _ data pp (x + 1) r2) as [r3|] eqn:H3; [|done].
      destruct (push_guarded _ data curr_ptr (x - 1) r3) as [r4|] eqn:H4; [|done].
      apply push_guarded_grows in H1 as [L1 N1], H2 as [L2 N2],
        H3 as [L3 N3], H4 as [L4 N4].
      injection Hget as <-. exists r4. simpl in L1.
      split; [lia|]. split; [|done]. apply N4, N3, N2, N1. constructor.
    - destruct (push_guarded _ data curr_ptr (x - 1) []) as [r4|] eqn:H4; [|done].
      apply push_guarded_grows in H4 as [L4 N4].
      injection Hget as <-. exists r4. simpl in L4.
      split; [lia|]. split; [|done]. apply N4. constructor. }
  assert (StronglySorted Z.lt
            match raw with [] => [] | _ => unique_copy (std_sort raw) end) as Hs.
  { destruct raw; [constructor|].
    apply sorted_NoDup_strict.
    - apply unique_copy_sorted, std_sort_sorted.
    - apply unique_copy_NoDup, std_sort_sorted. }
  split; [done|]. split; [|split; [|split]].
  - destruct raw as [|w raw]; [simpl; lia|].
    etrans; [apply unique_copy_length|]. by rewrite std_sort_length.
  - destruct raw as [|w raw]; [constructor|].
    apply Forall_forall. intros v Hv.
    rewrite elem_of_unique_copy, elem_of_std_sort in Hv.
    rewrite Forall_forall in Hnz. by apply Hnz.
  - by apply min_element_sorted.
  - intros m. rewrite (min_element_sorted _ Hs). intros [_ Hm]%vec_at_Ok.
    simpl in Hm. split; [done|]. intros v Hv.
    destruct Hs as [|a l _ Ha]; [done|]. injection Hm as ->.
    apply elem_of_cons in Hv as [->|Hv]; [done|].
    rewrite Forall_forall in Ha. specialize (Ha v Hv). lia.
Qed.

Lemma getNeighbors_sorted_distinct_witness :
  getNeighbors demo_mid_data (row_ptr 5 2) (prev_ptr_at 5 2) 1 2 5 = Ok [1; 2] ∧
  StronglySorted Z.lt [1; 2] ∧ (length [1; 2] ≤ 4)%nat ∧
  Forall (λ v, v ≠ 0) [1; 2] ∧
  min_element [1; 2] = O ∧
  (∀ m, vec_at [1; 2] (Z.of_nat (min_element [1; 2])) = Ok m →
        [1; 2] !! O = Some m ∧ ∀ v, v ∈ [1; 2] → m <= v).
Proof.
  assert (getNeighbors demo_mid_data (row_ptr 5 2) (prev_ptr_at 5 2) 1 2 5
          = Ok [1; 2]) as H by reflexivity.
  split; [exact H|].
  exact (getNeighbors_sorted_distinct _ _ _ _ _ _ _ H).
Defined.

(** X2: for a buffer of [rows * cols] elements and a pixel inside the image,
    [getNeighbors] reads inside the buffer only and returns exactly the
    non-zero values found at the up, up-left, up-right and left neighbours
    that lie inside the image, all of which come before the pixel in raster
    order; at the first pixel of the image the list is empty. *)
Theorem getNeighbors_in_bounds (data : list Z) (rows cols y x : nat) :
  length data = (rows * cols)%nat → (y < rows)%nat → (x < cols)%nat →
  ∃ neighbors,
    getNeighbors data (row_ptr cols y) (prev_ptr_at cols y) x y cols = Ok neighbors ∧
    (∀ v, v ∈ neighbors ↔
          v ≠ 0 ∧ ∃ q, q ∈ visited_neighbors cols (y, x) ∧ in_image rows cols q
                       ∧ before q y x ∧ data !! idx cols q = Some v) ∧
    (y = O → x = O → neighbors = []).
Proof.
  intros Hlen Hy Hx.
  destruct (getNeighbors_spec data rows cols y x Hlen Hy Hx)
    as (ns & Hns & Hmem & _ & _).
  exists ns. split; [done|]. split.
  - intros v. rewrite Hmem. split.
    + intros (Hv & q & Hq & Hd). split; [done|]. exists q. split; [done|].
      pose proof (visited_neighbors_in_image rows cols (y, x) q
                    ltac:(by split) Hq) as Hin.
      split; [done|]. split; [|done].
      apply elem_of_visited_neighbors in Hq as (_ & _ & Hlt); [|done].
      apply idx_before in Hlt; [done|done|apply Hin].
    + intros (Hv & q & Hq & _ & _ & Hd). split; [done|]. by exists q.
  - intros -> ->. destruct ns as [|v ns]; [done|].
    destruct (proj1 (Hmem v)) as (_ & q & Hq & _); [by left|].
    by apply elem_of_nil in Hq.
Qed.

Lemma getNeighbors_in_bounds_witness :
  length demo_mid_data = (4 * 5)%nat ∧ (2 < 4)%nat ∧ (1 < 5)%nat ∧
  ∃ neighbors,
    getNeighbors demo_mid_data (row_ptr 5 2) (prev_ptr_at 5 2) 1 2 5 = Ok neighbors ∧
    (∀ v, v ∈ neighbors ↔
          v ≠ 0 ∧ ∃ q, q ∈ visited_neighbors 5 (2%nat, 1%nat) ∧ in_image 4 5 q
                       ∧ before q 2 1 ∧ demo_mid_data !! idx 5 q = Some v) ∧
    (2%nat = O → 1%nat = O → neighbors = []).
Proof.
  assert (length demo_mid_data = (4 * 5)%nat) as Hlen by reflexivity.
  assert (2 < 4)%nat as Hy by lia.
  assert (1 < 5)%nat as Hx by lia.
  split; [exact Hlen|]. split; [exact Hy|]. split; [exact Hx|].
  exact (getNeighbors_in_bounds demo_mid_data 4 5 2 1 Hlen Hy Hx).
Defined.

(** X3: in a parent vector of the shape the first pass maintains,
    [disjointUnion] is symmetric in its two labels: [disjointUnion a b] and
    [disjointUnion b a] leave the same vector. *)
Theorem disjointUnion_comm (n : Z) (parent : list Z) (a b : Z) :
  forest n parent → n <= Z.of_nat (length parent) →
  1 <= a < n → 1 <= b < n →
  disjointUnion a b parent = disjointUnion b a parent.
Proof.
  intros Hf Hlen Ha Hb.
  destruct (disjointUnion_spec n parent a b Hf Hlen Ha Hb)
    as (ra & rb & Hra & Hrb & _ & _ & ->).
  destruct (disjointUnion_spec n parent b a Hf Hlen Hb Ha)
    as (rb' & ra' & Hrb' & Hra' & _ & _ & ->).
  rewrite (reaches_fun _ _ _ _ Hra' Hra), (reaches_fun _ _ _ _ Hrb' Hrb).
  rewrite (Z.min_comm rb ra), (Z.max_comm rb ra).
  destruct (decide (ra = rb)), (decide (rb = ra)); congruence.
Qed.

Lemma disjointUnion_comm_witness :
  forest 3 [0; 0; 0] ∧ 3 <= Z.of_nat (length [0; 0; 0]) ∧
  1 <= 1 < 3 ∧ 1 <= 2 < 3 ∧
  disjointUnion 1 2 [0; 0; 0] = disjointUnion 2 1 [0; 0; 0].
Proof.
  assert (3 <= Z.of_nat (length [0; 0; 0])) as Hl by (simpl; lia).
  assert (1 <= 1 < 3) as H1 by lia.
  assert (1 <= 2 < 3) as H2 by lia.
  split; [exact forest_zeros|]. split; [exact Hl|]. split; [exact H1|].
  split; [exact H2|].
  exact (disjointUnion_comm 3 [0; 0; 0] 1 2 forest_zeros Hl H1 H2).
Defined.

(** X4: a union is idempotent: once [disjointUnion a b] has run, running it
    again, in either order of the labels, changes nothing; and uniting a
    label with itself never changes the vector. *)
Theorem disjointUnion_idempotent (n : Z) (parent parent' : list Z) (a b : Z) :
  forest n parent → n <= Z.of_nat (length parent) →
  1 <= a < n → 1 <= b < n →
  disjointUnion a b parent = Ok parent' →
  disjointUnion a b parent' = Ok parent' ∧
  disjointUnion b a parent' = Ok parent' ∧
  disjointUnion a a parent = Ok parent.
Proof.
  intros Hf Hlen Ha Hb Hu.
  pose proof (disjointUnion_forest n parent parent' a b Hf Hlen Ha Hb Hu) as Hf'.
  pose proof (disjointUnion_length n parent parent' a b Hf Hlen Ha Hb Hu) as Hl'.
  pose proof (disjointUnion_joins n parent parent' a b Hf Hlen Ha Hb Hu)
    as (r & Har & Hbr).
  assert (n <= Z.of_nat (length parent')) as Hlen' by lia.
  assert (disjointUnion a b parent' = Ok parent') as Hab.
  { destruct (disjointUnion_spec n parent' a b Hf' Hlen' Ha Hb)
      as (ra & rb & Hra & Hrb & _ & _ & ->).
    rewrite (reaches_fun _ _ _ _ Hra Har), (reaches_fun _ _ _ _ Hrb Hbr).
    by destruct (decide (r = r)). }
  split; [done|]. split.
  { destruct (disjointUnion_spec n parent' b a Hf' Hlen' Hb Ha)
      as (rb & ra & Hrb & Hra & _ & _ & ->).
    rewrite (reaches_fun _ _ _ _ Hra Har), (reaches_fun _ _ _ _ Hrb Hbr).
    by destruct (decide (r = r)). }
  destruct (disjointUnion_spec n parent a a Hf Hlen Ha Ha)
    as (ra & ra' & Hra & Hra' & _ & _ & ->).
  rewrite (reaches_fun _ _ _ _ Hra' Hra). by destruct (decide (ra = ra)).
Qed.

Lemma disjointUnion_idempotent_witness :
  forest 3 [0; 0; 0] ∧ 3 <= Z.of_nat (length [0; 0; 0]) ∧
  1 <= 1 < 3 ∧ 1 <= 2 < 3 ∧
  disjointUnion 1 2 [0; 0; 0] = Ok linked_pair ∧
  disjointUnion 1 2 linked_pair = Ok linked_pair ∧
  disjointUnion 2 1 linked_pair = Ok linked_pair ∧
  disjointUnion 1 1 [0; 0; 0] = Ok [0; 0; 0].
Proof.
  assert (3 <= Z.of_nat (length [0; 0; 0])) as Hl by (simpl; lia).
  assert (1 <= 1 < 3) as H1 by lia.
  assert (1 <= 2 < 3) as H2 by lia.
  assert (disjointUnion 1 2 [0; 0; 0] = Ok linked_pair) as Hu by reflexivity.
  split; [exact forest_zeros|]. split; [exact Hl|]. split; [exact H1|].
  split; [exact H2|]. split; [exact Hu|].
  exact (disjointUnion_idempotent 3 [0; 0; 0] linked_pair 1 2
           forest_zeros Hl H1 H2 Hu).
Defined.

(** X5: [disjointUnion a b] merges the class of [a] with the class of [b]
    and does nothing else: two labels share a root afterwards exactly when
    they shared one before or one was in the class of [a] and the other in
    the class of [b]. *)
Theorem disjointUnion_merges_two_classes (n : Z) (parent parent' : list Z)
    (a b : Z) :
  forest n parent → n <= Z.of_nat (length parent) →
  1 <= a < n → 1 <= b < n →
  disjointUnion a b parent = Ok parent' →
  ∀ c d, same_class parent' c d ↔
         same_class parent c d
         ∨ (same_class parent c a ∧ same_class parent d b)
         ∨ (same_class parent c b ∧ same_class parent d a).
Proof.
  intros Hf Hlen Ha Hb Hu c d.
  pose proof (disjointUnion_keeps n parent parent' a b Hf Hlen Ha Hb Hu) as Hkeep.
  pose proof (disjointUnion_joins n parent parent' a b Hf Hlen Ha Hb Hu) as Hjoin.
  split; [by apply (disjointUnion_only n parent parent' a b)|].
  intros [H|[[Hc Hd]|[Hc Hd]]].
  - by apply Hkeep.
  - eapply same_class_trans; [apply Hkeep, Hc|].
    eapply same_class_trans; [exact Hjoin|]. apply same_class_sym, Hkeep, Hd.
  - eapply same_class_trans; [apply Hkeep, Hc|].
    eapply same_class_trans; [apply same_class_sym, Hjoin|].
    apply same_class_sym, Hkeep, Hd.
Qed.

Lemma disjointUnion_merges_two_classes_witness :
  forest 3 [0; 0; 0] ∧ 3 <= Z.of_nat (length [0; 0; 0]) ∧
  1 <= 1 < 3 ∧ 1 <= 2 < 3 ∧
  disjointUnion 1 2 [0; 0; 0] = Ok linked_pair ∧
  ∀ c d, same_class linked_pair c d ↔
         same_class [0; 0; 0] c d
         ∨ (same_class [0; 0; 0] c 1 ∧ same_class [0; 0; 0] d 2)
         ∨ (same_class [0; 0; 0] c 2 ∧ same_class [0; 0; 0] d 1).
Proof.
  assert (3 <= Z.of_nat (length [0; 0; 0])) as Hl by (simpl; lia).
  assert (1 <= 1 < 3) as H1 by lia.
  assert (1 <= 2 < 3) as H2 by lia.
  assert (disjointUnion 1 2 [0; 0; 0] = Ok linked_pair) as Hu by reflexivity.
  split; [exact forest_zeros|]. split; [exact Hl|]. split; [exact H1|].
  split; [exact H2|]. split; [exact Hu|].
  exact (disjointUnion_merges_two_classes 3 [0; 0; 0] linked_pair 1 2
           forest_zeros Hl H1 H2 Hu).
Defined.

(** X6: [disjointFind] is repeatable: when the counter [nextLabel] is not
    zero, the compact label it returns for a label is not zero, and asking
    again, for the same label or for any label of the same class, returns
    the same compact label and changes neither the label table nor the
    counter. *)
Theorem disjointFind_repeatable (n : Z) (parent labels labels' : list Z)
    (a b f : Z) (s s' : ConnectedComponent) :
  forest n parent → n <= Z.of_nat (length parent) →
  1 <= a < n → 1 <= b < n → same_class parent a b →
  nextLabel s ≠ 0 →
  disjointFind a parent labels s = (Ok (f, labels'), s') →
  f ≠ 0 ∧ disjointFind b parent labels' s' = (Ok (f, labels'), s').
Proof.
  intros Hf Hlen Ha Hb (r & Har & Hbr) Hn Hfind.
  pose proof (disjointFind_chase n parent a r Hf Hlen Ha Har) as Hca.
  pose proof (disjointFind_chase n parent b r Hf Hlen Hb Hbr) as Hcb.
  assert (vec_at labels' r = Ok f ∧ f ≠ 0) as [Hat Hf0].
  { unfold disjointFind in Hfind.
    rewrite bind_eq, lift_eq, Hca, bind_eq, lift_eq in Hfind.
    destruct (vec_at labels r) as [l|] eqn:Hl; [|done].
    destruct (Z.eqb_spec l 0) as [->|Hl0].
    - rewrite bind_eq, bind_eq in Hfind. unfold get_nextLabel in Hfind.
      rewrite bind_eq in Hfind. unfold set_nextLabel in Hfind.
      rewrite lift_eq in Hfind.
      destruct (vec_set labels r (nextLabel s)) as [ls|] eqn:Hset; [|done].
      rewrite bind_eq, lift_eq in Hfind.
      apply vec_set_Ok in Hset as [[Hr0 Hrl] ->].
      rewrite vec_at_insert in Hfind by done.
      destruct (decide (r = r)); [|done].
      rewrite ret_eq in Hfind. injection Hfind as <- <- <-.
      split; [|done]. rewrite vec_at_insert by done. by destruct (decide (r = r)).
    - rewrite bind_eq, ret_eq, bind_eq, lift_eq, Hl, ret_eq in Hfind.
      by injection Hfind as <- <- <-. }
  split; [done|]. unfold disjointFind.
  rewrite bind_eq, lift_eq, Hcb, bind_eq, lift_eq, Hat.
  destruct (Z.eqb_spec f 0); [done|].
  by rewrite bind_eq, ret_eq, bind_eq, lift_eq, Hat, ret_eq.
Qed.

Lemma disjointFind_repeatable_witness :
  forest 3 linked_pair ∧ 3 <= Z.of_nat (length linked_pair) ∧
  1 <= 1 < 3 ∧ 1 <= 2 < 3 ∧ same_class linked_pair 1 2 ∧
  nextLabel (mkConnectedComponent 10 1 []) ≠ 0 ∧
  disjointFind 1 linked_pair [0; 0; 0] (mkConnectedComponent 10 1 [])
  = (Ok (1, [0; 0; 1]), mkConnectedComponent 10 2 []) ∧
  1 ≠ 0 ∧
  disjointFind 2 linked_pair [0; 0; 1] (mkConnectedComponent 10 2 [])
  = (Ok (1, [0; 0; 1]), mkConnectedComponent 10 2 []).
Proof.
  assert (3 <= Z.of_nat (length linked_pair)) as Hl by (simpl; lia).
  assert (1 <= 1 < 3) as H1 by lia.
  assert (1 <= 2 < 3) as H2 by lia.
  assert (nextLabel (mkConnectedComponent 10 1 []) ≠ 0) as Hn by (simpl; lia).
  assert (disjointFind 1 linked_pair [0; 0; 0] (mkConnectedComponent 10 1 [])
          = (Ok (1, [0; 0; 1]), mkConnectedComponent 10 2 [])) as Hfind
    by reflexivity.
  split; [exact forest_linked_pair|]. split; [exact Hl|]. split; [exact H1|].
  split; [exact H2|]. split; [exact same_class_linked_pair|].
  split; [exact Hn|]. split; [exact Hfind|].
  exact (disjointFind_repeatable 3 linked_pair [0; 0; 0] [0; 0; 1] 1 2 1
           (mkConnectedComponent 10 1 []) (mkConnectedComponent 10 2 [])
           forest_linked_pair Hl H1 H2 same_class_linked_pair Hn Hfind).
Defined.

(** X7: on a well-formed image [apply] fails in three ways only, the
    failed assertion on the type, the failed allocation for a negative
    [maxComponent] and the label-capacity error: it never indexes outside a
    buffer.  A failed call leaves [maxComponent] and the records as they
    were, so that [getComponentsCount] and [getComponentsProperties] still
    answer for the previous image. *)
Theorem apply_failure_modes (image : Mat) (this : ConnectedComponent)
    (e : error) (t : ConnectedComponent) :
  wf_mat image → in_int (maxComponent this) →
  apply image this = (Throw e, t) →
  (e = PreconditionViolation ∨ e = LengthError ∨ e = LabelCapacityExceeded) ∧
  e ≠ OutOfBounds ∧
  maxComponent t = maxComponent this ∧ properties t = properties this ∧
  getComponentsCount t = (Ok (Z.of_nat (length (properties this))), t) ∧
  getComponentsProperties t = (Ok (properties this), t).
Proof.
  intros Hwf Hint Happ.
  pose proof (apply_safe image this e t Hwf Hint Happ) as He.
  split; [done|]. split; [by destruct He as [->|[->| ->]]|].
  assert (maxComponent t = maxComponent this ∧ properties t = properties this)
    as [Hmc Hps].
  { destruct (decide (mat_type image = CV_8UC1)) as [Hty|Hty].
    - rewrite apply_stages in Happ by done.
      destruct (maxComponent this <? 0); [by injection Happ as _ <-|].
      pose proof (pass1_keeps (mat_rows image) (mat_cols image) (mat_data image)
                    (replicate (Z.to_nat (maxComponent this)) 0)
                    (with_nextLabel this 1)) as K1.
      pose proof (indep_keeps_props _ (with_nextLabel this 1)
                    (pass1_indep (mat_rows image) (mat_cols image) (mat_data image)
                       (replicate (Z.to_nat (maxComponent this)) 0))) as P1.
      destruct (pass1 _ _ _ _ _) as [[st1|e1] s1]; cbn [fst snd] in *.
      2:{ by injection Happ as _ <-. }
      cbn [maxComponent properties with_nextLabel] in K1, P1.
      destruct (maxComponent s1 <? 0); [by injection Happ as _ <-|].
      pose proof (pass2_keeps (mat_rows image) (mat_cols image) st1.2 st1.1
                    (replicate (Z.to_nat (maxComponent s1)) 0)
                    (with_nextLabel s1 1)) as K2.
      pose proof (indep_keeps_props _ (with_nextLabel s1 1)
                    (pass2_indep (mat_rows image) (mat_cols image) st1.2 st1.1
                       (replicate (Z.to_nat (maxComponent s1)) 0))) as P2.
      destruct (pass2 _ _ _ _ _ _) as [[st2|e2] s2]; cbn [fst snd] in *; [done|].
      injection Happ as _ <-.
      cbn [maxComponent properties with_nextLabel] in *. split; congruence.
    - unfold apply in Happ. destruct (decide (mat_type image = CV_8UC1)); [done|].
      by injection Happ as _ <-. }
  split; [done|]. split; [done|].
  unfold getComponentsCount, getComponentsProperties.
  rewrite bind_eq. unfold get_properties. rewrite ret_eq, Hps. done.
Qed.

Lemma apply_failure_modes_witness :
  wf_mat single_pixel_image ∧ in_int (maxComponent (ConnectedComponent_new 2)) ∧
  apply single_pixel_image (ConnectedComponent_new 2)
  = (Throw LabelCapacityExceeded, mkConnectedComponent 2 2 []) ∧
  (LabelCapacityExceeded = PreconditionViolation
   ∨ LabelCapacityExceeded = LengthError
   ∨ LabelCapacityExceeded = LabelCapacityExceeded) ∧
  LabelCapacityExceeded ≠ OutOfBounds ∧
  maxComponent (mkConnectedComponent 2 2 [])
  = maxComponent (ConnectedComponent_new 2) ∧
  properties (mkConnectedComponent 2 2 [])
  = properties (ConnectedComponent_new 2) ∧
  getComponentsCount (mkConnectedComponent 2 2 [])
  = (Ok (Z.of_nat (length (properties (ConnectedComponent_new 2)))),
     mkConnectedComponent 2 2 []) ∧
  getComponentsProperties (mkConnectedComponent 2 2 [])
  = (Ok (properties (ConnectedComponent_new 2)), mkConnectedComponent 2 2 []).
Proof.
  assert (in_int (maxComponent (ConnectedComponent_new 2))) as Hint.
  { unfold in_int, int_min, int_max. cbn. lia. }
  assert (apply single_pixel_image (ConnectedComponent_new 2)
          = (Throw LabelCapacityExceeded, mkConnectedComponent 2 2 [])) as Happ
    by reflexivity.
  split; [exact single_pixel_wf|]. split; [exact Hint|]. split; [exact Happ|].
  exact (apply_failure_modes single_pixel_image (ConnectedComponent_new 2)
           LabelCapacityExceeded (mkConnectedComponent 2 2 [])
           single_pixel_wf Hint Happ).
Defined.

(** X8: on an image that has pixels, the label image [apply] returns has the
    rows and columns of the input and a full buffer whose values lie between
    0 and the number of records; the object keeps its [maxComponent] and its
    counter is left at the number of records plus one. *)
Theorem apply_output_shape (image : Mat) (this : ConnectedComponent)
    (result : Mat) (this' : ConnectedComponent) :
  wf_mat image → (0 < mat_rows image)%nat → (0 < mat_cols image)%nat →
  in_int (maxComponent this) →
  apply image this = (Ok result, this') →
  mat_rows result = mat_rows image ∧ mat_cols result = mat_cols image ∧
  length (mat_data result) = (mat_rows image * mat_cols image)%nat ∧
  Forall (λ v, 0 <= v <= Z.of_nat (length (properties this'))) (mat_data result) ∧
  maxComponent this' = maxComponent this ∧
  nextLabel this' = Z.of_nat (length (properties this')) + 1.
Proof.
  intros Hwf _ _ [_ Hmc] Happ.
  destruct (apply_ok_run image this result this' Hwf Hmc Happ)
    as (data1 & linked & s1 & labels_set & temp & s2 & H1 & H2 & Hres & ->).
  destruct Hwf as [Hlen _].
  pose proof (j_next _ _ _ _ _ _ _ _ _ _ _ H2) as Hn.
  pose proof (final_labels_length image _ _ _ _ _ _ _ _ _ Hlen H1 H2) as Hfl.
  pose proof (final_length image _ _ _ _ _ _ _ _ _ Hlen H1 H2) as Hdl.
  cbn [properties nextLabel maxComponent with_properties].
  rewrite length_fmap, Hfl. rewrite Hres. cbn [mat_type mat_rows mat_cols mat_data].
  split; [done|]. split; [done|]. split; [done|].
  split; [|split].
  - apply Forall_forall. intros v (i & Hi)%list_elem_of_lookup.
    destruct (idx_surj (mat_rows image) (mat_cols image) i) as (p & Hp & <-).
    { rewrite <-Hdl. by eapply lookup_lt_Some. }
    destruct (decide (v = 0)) as [->|Hv]; [lia|].
    assert (1 <= v < nextLabel s2); [|lia].
    apply (labels_dense image _ _ _ _ _ _ _ _ _ Hlen H1 H2). by exists p.
  - by rewrite (j_mc _ _ _ _ _ _ _ _ _ _ _ H2).
  - lia.
Qed.

Lemma apply_output_shape_witness :
  wf_mat demo_image ∧ (0 < mat_rows demo_image)%nat ∧ (0 < mat_cols demo_image)%nat ∧
  in_int (maxComponent demo_object) ∧
  apply demo_image demo_object = (Ok demo_result, demo_final) ∧
  mat_rows demo_result = mat_rows demo_image ∧
  mat_cols demo_result = mat_cols demo_image ∧
  length (mat_data demo_result) = (mat_rows demo_image * mat_cols demo_image)%nat ∧
  Forall (λ v, 0 <= v <= Z.of_nat (length (properties demo_final)))
         (mat_data demo_result) ∧
  maxComponent demo_final = maxComponent demo_object ∧
  nextLabel demo_final = Z.of_nat (length (properties demo_final)) + 1.
Proof.
  assert (0 < mat_rows demo_image)%nat as Hr by (cbn; lia).
  assert (0 < mat_cols demo_image)%nat as Hc by (cbn; lia).
  split; [exact demo_wf|]. split; [exact Hr|]. split; [exact Hc|].
  split; [exact demo_int|]. split; [exact demo_apply|].
  exact (apply_output_shape demo_image demo_object demo_result demo_final
           demo_wf Hr Hc demo_int demo_apply).
Defined.

(** X9: on an image without foreground [apply] succeeds for every
    [maxComponent] from 0 on: the buffer of the label image holds the same
    zeros as the input (none when the image is empty), no record is stored
    and the counter is left at 1. *)
Theorem apply_background_only (image : Mat) (this : ConnectedComponent) :
  length (mat_data image) = (mat_rows image * mat_cols image)%nat →
  mat_type image = CV_8UC1 →
  Forall (λ v, v = 0) (mat_data image) →
  0 <= maxComponent this <= int_max →
  ∃ result,
    apply image this
    = (Ok result, mkConnectedComponent (maxComponent this) 1 []) ∧
    mat_data result = mat_data image ∧
    getComponentsCount (mkConnectedComponent (maxComponent this) 1 [])
    = (Ok 0, mkConnectedComponent (maxComponent this) 1 []).
Proof.
  intros Hlen Hty Hz Hmc.
  assert (∀ i v, mat_data image !! i = Some v → v = 0) as Hzero.
  { intros i v Hv. rewrite Forall_forall in Hz.
    by eapply Hz, list_elem_of_lookup_2. }
  assert (∀ p, ¬ foreground image p) as Hnofg.
  { intros p (_ & v & Hv & Hv0). by apply Hv0, (Hzero _ _ Hv). }
  destruct (apply_cases image this Hlen Hty Hmc)
    as [(r & t & Hr & Hrun)|(t & _ & _ & _ & _ & Hfresh & _)].
  - destruct Hrun as (data1 & linked & s1 & labels_set & temp & s2 & H1 & H2 & Hres & ->).
    pose proof (j_next _ _ _ _ _ _ _ _ _ _ _ H2) as Hn.
    assert (nextLabel s2 = 1) as Hone.
    { destruct (decide (nextLabel s2 = 1)) as [|Hne]; [done|].
      destruct (proj2 (labels_dense image _ _ _ _ _ _ _ _ _ Hlen H1 H2 1))
        as (p & Hp & Hd & _); [lia|].
      destruct (Hnofg p).
      by eapply (nonzero_fg image _ _ _ _ _ _ _ _ _ Hlen H1 H2 p 1). }
    assert (mat_data r = mat_data image) as Hdata.
    { apply list_eq_same_length with (mat_rows image * mat_cols image)%nat;
        [done|by eapply final_length|].
      intros i a b Hi Ha Hb.
      destruct (idx_surj (mat_rows image) (mat_cols image) i Hi) as (p & Hp & <-).
      pose proof (Hzero _ _ Hb) as ->.
      rewrite (bg_stays image _ _ _ _ _ _ _ _ _ H1 H2 p Hp Hb) in Ha. congruence. }
    pose proof (final_labels_length image _ _ _ _ _ _ _ _ _ Hlen H1 H2) as Hfl.
    rewrite Hone in Hfl. destruct (final_labels temp); [|done].
    exists r. split; [|done]. rewrite Hr. unfold with_properties.
    cbn [fmap list_fmap].
    by rewrite (j_mc _ _ _ _ _ _ _ _ _ _ _ H2), Hone.
  - exfalso.
    assert (∀ p, needs_fresh image p = false) as Hnf.
    { intros p. unfold needs_fresh, is_fg.
      destruct (mat_at image p) as [v|] eqn:Hv; [|done].
      by rewrite (Hzero _ _ Hv). }
    assert (fresh_labels image = O); [|lia].
    unfold fresh_labels, fresh_before, fresh_in_row.
    assert (∀ y x, sum_upto (λ x', if needs_fresh image (y, x') then 1%nat else O) x
                   = O) as Hrow.
    { intros y x. apply sum_upto_zero. intros j. by rewrite Hnf. }
    rewrite Hrow, Nat.add_0_r. apply sum_upto_zero. intros y. apply Hrow.
Qed.

Lemma apply_background_only_witness :
  length (mat_data blank_image) = (mat_rows blank_image * mat_cols blank_image)%nat ∧
  mat_type blank_image = CV_8UC1 ∧
  Forall (λ v, v = 0) (mat_data blank_image) ∧
  0 <= maxComponent (ConnectedComponent_new 0) <= int_max ∧
  ∃ result,
    apply blank_image (ConnectedComponent_new 0)
    = (Ok result,
       mkConnectedComponent (maxComponent (ConnectedComponent_new 0)) 1 []) ∧
    mat_data result = mat_data blank_image ∧
    getComponentsCount
      (mkConnectedComponent (maxComponent (ConnectedComponent_new 0)) 1 [])
    = (Ok 0, mkConnectedComponent (maxComponent (ConnectedComponent_new 0)) 1 []).
Proof.
  assert (length (mat_data blank_image)
          = (mat_rows blank_image * mat_cols blank_image)%nat) as Hlen
    by reflexivity.
  assert (mat_type blank_image = CV_8UC1) as Hty by reflexivity.
  assert (Forall (λ v, v = 0) (mat_data blank_image)) as Hz
    by (repeat constructor).
  assert (0 <= maxComponent (ConnectedComponent_new 0) <= int_max) as Hmc.
  { unfold int_max. cbn. lia. }
  split; [exact Hlen|]. split; [exact Hty|]. split; [exact Hz|].
  split; [exact Hmc|].
  exact (apply_background_only blank_image (ConnectedComponent_new 0)
           Hlen Hty Hz Hmc).
Defined.

(** X10: after a successful [apply] the records come in label order:
    record [i] (from 0) has [labelID] [i + 1], its [area] is the number of
    pixels of the label image that carry this label, and it is at least 1.
    [getComponentsCount] is the number of these records. *)
Theorem records_in_label_order (image : Mat) (this : ConnectedComponent)
    (result : Mat) (this' : ConnectedComponent) :
  wf_mat image → in_int (maxComponent this) →
  apply image this = (Ok result, this') →
  ∃ ps, getComponentsProperties this' = (Ok ps, this') ∧
        getComponentsCount this' = (Ok (Z.of_nat (length ps)), this') ∧
        labelID <$> ps = seqZ 1 (Z.of_nat (length ps)) ∧
        ∀ i p, ps !! i = Some p →
               labelID p = Z.of_nat i + 1 ∧
               area p = Z.of_nat (occurrences (Z.of_nat i + 1) (mat_data result)) ∧
               1 <= area p.
Proof.
  intros Hwf [_ Hmc] Happ.
  destruct (apply_ok_run image this result this' Hwf Hmc Happ)
    as (data1 & linked & s1 & labels_set & temp & s2 & H1 & H2 & Hres & ->).
  destruct Hwf as [Hlen _].
  pose proof (j_next _ _ _ _ _ _ _ _ _ _ _ H2) as Hn.
  pose proof (elem_of_final_labels image _ _ _ _ _ _ _ _ _ Hlen H1 H2) as Hmem.
  pose proof (final_labels_NoDup temp) as Hnd.
  pose proof (sorted_range_seqZ _ _ (final_labels_sorted temp) Hnd Hmem
                ltac:(lia)) as Hseq.
  exists (property_of result <$> final_labels temp).
  split; [done|]. split; [done|].
  rewrite length_fmap. rewrite Hseq at 2. rewrite length_seqZ, Z2Nat.id by lia.
  split.
  { rewrite <-list_fmap_compose, <-Hseq at 1. clear.
    induction (final_labels temp) as [|v l IH]; [done|]. simpl. by f_equal. }
  intros i p Hp. rewrite list_lookup_fmap, Hseq in Hp.
  destruct (seqZ 1 (nextLabel s2 - 1) !! i) as [v|] eqn:Hv; [|done].
  injection Hp as <-. apply lookup_seqZ in Hv as [-> Hi].
  unfold property_of. cbn [labelID area]. rewrite countNonZero_mask.
  replace (1 + Z.of_nat i) with (Z.of_nat i + 1) by lia.
  split; [done|]. split; [done|].
  destruct (proj2 (labels_dense image _ _ _ _ _ _ _ _ _ Hlen H1 H2 (Z.of_nat i + 1)))
    as (q & Hq & Hd & _); [lia|].
  pose proof (occurrences_pos (Z.of_nat i + 1) (mat_data result)
                ltac:(by eapply list_elem_of_lookup_2)). lia.
Qed.

Lemma records_in_label_order_witness :
  wf_mat demo_image ∧ in_int (maxComponent demo_object) ∧
  apply demo_image demo_object = (Ok demo_result, demo_final) ∧
  ∃ ps, getComponentsProperties demo_final = (Ok ps, demo_final) ∧
        getComponentsCount demo_final = (Ok (Z.of_nat (length ps)), demo_final) ∧
        labelID <$> ps = seqZ 1 (Z.of_nat (length ps)) ∧
        ∀ i p, ps !! i = Some p →
               labelID p = Z.of_nat i + 1 ∧
               area p = Z.of_nat (occurrences (Z.of_nat i + 1) (mat_data demo_result)) ∧
               1 <= area p.
Proof.
  split; [exact demo_wf|]. split; [exact demo_int|]. split; [exact demo_apply|].
  exact (records_in_label_order demo_image demo_object demo_result demo_final
           demo_wf demo_int demo_apply).
Defined.

(** X11: the number of components [apply] returns is at most the number of
    fresh provisional labels of the first pass, and, unless it is zero, at
    most [maxComponent - 2]. *)
Theorem component_count_bounded (image : Mat) (this : ConnectedComponent)
    (result : Mat) (this' : ConnectedComponent) :
  wf_mat image → in_int (maxComponent this) →
  apply image this = (Ok result, this') →
  (length (properties this') ≤ fresh_labels image)%nat ∧
  (length (properties this') = O
   ∨ Z.of_nat (length (properties this')) + 2 <= maxComponent this).
Proof.
  intros Hwf [_ Hmc] Happ.
  destruct (apply_ok_run image this result this' Hwf Hmc Happ)
    as (data1 & linked & s1 & labels_set & temp & s2 & H1 & H2 & Hres & ->).
  destruct Hwf as [Hlen _].
  pose proof (j_next _ _ _ _ _ _ _ _ _ _ _ H2) as Hn.
  pose proof (j_count _ _ _ _ _ _ _ _ _ _ _ H2) as Hcount.
  pose proof (i_count _ _ _ _ _ _ _ _ H1) as Hfresh.
  pose proof (i_next _ _ _ _ _ _ _ _ H1) as [Hn1 Hn1'].
  fold (fresh_labels image) in Hfresh.
  cbn [properties with_properties]. rewrite length_fmap.
  rewrite (final_labels_length image _ _ _ _ _ _ _ _ _ Hlen H1 H2).
  assert (count_nz labels_set ≤ Z.to_nat (nextLabel s1) - 1)%nat as Hle.
  { apply count_nz_between. intros r f Hr Hf.
    destruct (j_range _ _ _ _ _ _ _ _ _ _ _ H2 r f Hr) as [?|Hfr]; [done|].
    destruct (j_surj _ _ _ _ _ _ _ _ _ _ _ H2 f Hfr) as (p & Hp & Hb & Hd).
    destruct (lookup_lt_is_Some_2 data1 (idx (mat_cols image) p)) as [l Hl].
    { rewrite (i_len _ _ _ _ _ _ _ _ H1), Hlen. by apply idx_lt. }
    destruct (j_done _ _ _ _ _ _ _ _ _ _ _ H2 p l Hp Hb Hl) as (f' & Hf' & Hz & Hnz).
    rewrite Hd in Hf'. injection Hf' as <-.
    destruct (decide (l = 0)) as [Hl0|Hl0]; [by destruct (Hf (Hz Hl0))|].
    destruct (Hnz Hl0) as (_ & r' & Hr' & Hlr').
    pose proof (j_inj _ _ _ _ _ _ _ _ _ _ _ H2 _ _ _ Hr Hlr' Hf) as ->.
    destruct (inv1_labels image _ _ _ _ _ Hlen H1 p l Hp Hl) as [?|Hlr]; [done|].
    pose proof (reaches_bound _ _ _ _ (i_forest _ _ _ _ _ _ _ _ H1) Hr'). lia. }
  split; [lia|]. lia.
Qed.

Lemma component_count_bounded_witness :
  wf_mat demo_image ∧ in_int (maxComponent demo_object) ∧
  apply demo_image demo_object = (Ok demo_result, demo_final) ∧
  (length (properties demo_final) ≤ fresh_labels demo_image)%nat ∧
  (length (properties demo_final) = O
   ∨ Z.of_nat (length (properties demo_final)) + 2 <= maxComponent demo_object).
Proof.
  split; [exact demo_wf|]. split; [exact demo_int|]. split; [exact demo_apply|].
  exact (component_count_bounded demo_image demo_object demo_result demo_final
           demo_wf demo_int demo_apply).
Defined.

(** X12: the final labels are numbered in raster order of first
    appearance: a pixel labelled [v > 1] is preceded, in raster order, by a
    pixel labelled [v - 1]; in particular the first foreground pixel of the
    image is labelled 1. *)
Theorem labels_follow_raster_order (image : Mat) (this : ConnectedComponent)
    (result : Mat) (this' : ConnectedComponent) :
  wf_mat image → in_int (maxComponent this) →
  apply image this = (Ok result, this') →
  (∀ p v, in_image (mat_rows image) (mat_cols image) p →
          mat_at result p = Some v → 1 < v →
          ∃ q, in_image (mat_rows image) (mat_cols image) q ∧
               before q p.1 p.2 ∧ mat_at result q = Some (v - 1)) ∧
  (∀ p, foreground image p →
        (∀ q, before q p.1 p.2 → ¬ foreground image q) →
        mat_at result p = Some 1).
Proof.
  intros Hwf [_ Hmc] Happ.
  pose proof (apply_label_order image this result this' Hwf Hmc Happ) as Hord.
  destruct (apply_ok_run image this result this' Hwf Hmc Happ)
    as (data1 & linked & s1 & labels_set & temp & s2 & H1 & H2 & Hres & ->).
  destruct Hwf as [Hlen _].
  assert (mat_cols result = mat_cols image) as Hcols by by rewrite Hres.
  unfold mat_at. rewrite Hcols.
  assert (∀ p v, in_image (mat_rows image) (mat_cols image) p →
          mat_data result !! idx (mat_cols image) p = Some v → 1 < v →
          ∃ q, in_image (mat_rows image) (mat_cols image) q ∧
               before q p.1 p.2 ∧
               mat_data result !! idx (mat_cols image) q = Some (v - 1)) as Hstep.
  { intros p v Hp Hv H1v. apply Hord; [done|left; apply Hp|done|done]. }
  split; [exact Hstep|].
  intros p Hp Hfirst.
  destruct (fg_resolved image _ _ _ _ _ _ _ _ _ Hlen H1 H2 p Hp)
    as (_ & _ & f & _ & _ & _ & _ & Hf & Hd).
  destruct (decide (f = 1)) as [->|Hne]; [done|].
  destruct (Hstep p f (proj1 Hp) Hd ltac:(lia)) as (q & Hq & Hb & Hdq).
  destruct (Hfirst q Hb).
  eapply (nonzero_fg image _ _ _ _ _ _ _ _ _ Hlen H1 H2 q (f - 1)); [done|done|lia].
Qed.

Lemma labels_follow_raster_order_witness :
  wf_mat demo_image ∧ in_int (maxComponent demo_object) ∧
  apply demo_image demo_object = (Ok demo_result, demo_final) ∧
  (∀ p v, in_image (mat_rows demo_image) (mat_cols demo_image) p →
          mat_at demo_result p = Some v → 1 < v →
          ∃ q, in_image (mat_rows demo_image) (mat_cols demo_image) q ∧
               before q p.1 p.2 ∧ mat_at demo_result q = Some (v - 1)) ∧
  (∀ p, foreground demo_image p →
        (∀ q, before q p.1 p.2 → ¬ foreground demo_image q) →
        mat_at demo_result p = Some 1).
Proof.
  split; [exact demo_wf|]. split; [exact demo_int|]. split; [exact demo_apply|].
  exact (labels_follow_raster_order demo_image demo_object demo_result demo_final
           demo_wf demo_int demo_apply).
Defined.

(** X13: [apply] looks at the input only through its zero pattern: two
    images of the same type and dimensions whose buffers have their zeros at
    the same positions give the same outcome, label image, records and
    errors alike. *)
Theorem apply_depends_on_support (image image' : Mat) (this : ConnectedComponent) :
  mat_type image' = mat_type image →
  mat_rows image' = mat_rows image → mat_cols image' = mat_cols image →
  length (mat_data image) = (mat_rows image * mat_cols image)%nat →
  length (mat_data image') = (mat_rows image * mat_cols image)%nat →
  (∀ i a b, mat_data image !! i = Some a → mat_data image' !! i = Some b →
            (a = 0 ↔ b = 0)) →
  apply image' this = apply image this.
Proof.
  intros Hty Hrows Hcols Hlen Hlen' Hz.
  destruct (decide (mat_type image = CV_8UC1)) as [H8|H8].
  - rewrite !apply_stages by congruence. rewrite Hrows, Hcols.
    assert (same_support (mat_rows image * mat_cols image) 0
              (mat_data image') (mat_data image)) as Hsup.
    { split; [done|]. split; [done|]. split; [intros i Hi; lia|].
      intros i a b Ha Hb. symmetry. by eapply Hz. }
    by rewrite (pass1_sim (mat_rows image * mat_cols image) _ _
                  (mat_data image') (mat_data image) _ _ eq_refl Hsup).
  - unfold apply. rewrite Hty. by destruct (decide (mat_type image = CV_8UC1)).
Qed.

Lemma apply_depends_on_support_witness :
  mat_type demo_image_dim = mat_type demo_image ∧
  mat_rows demo_image_dim = mat_rows demo_image ∧
  mat_cols demo_image_dim = mat_cols demo_image ∧
  length (mat_data demo_image) = (mat_rows demo_image * mat_cols demo_image)%nat ∧
  length (mat_data demo_image_dim) = (mat_rows demo_image * mat_cols demo_image)%nat ∧
  (∀ i a b, mat_data demo_image !! i = Some a →
            mat_data demo_image_dim !! i = Some b → (a = 0 ↔ b = 0)) ∧
  apply demo_image_dim demo_object = apply demo_image demo_object.
Proof.
  assert (length (mat_data demo_image)
          = (mat_rows demo_image * mat_cols demo_image)%nat) as Hlen by reflexivity.
  assert (length (mat_data demo_image_dim)
          = (mat_rows demo_image * mat_cols demo_image)%nat) as Hlen' by reflexivity.
  split; [reflexivity|]. split; [reflexivity|]. split; [reflexivity|].
  split; [exact Hlen|]. split; [exact Hlen'|]. split; [exact demo_same_zeros|].
  exact (apply_depends_on_support demo_image demo_image_dim demo_object
           eq_refl eq_refl eq_refl Hlen Hlen' demo_same_zeros).
Defined.

(** X14: [maxComponent] bounds the labelling and does not shape it: if
    [apply] succeeds on an object, it succeeds on every object with an equal
    or larger [maxComponent], with the same label image, the same records
    and the same counter; and any two successful runs on one image agree on
    the label image and on the records. *)
Theorem capacity_does_not_change_labels (image : Mat)
    (this other : ConnectedComponent) (result : Mat) (this' : ConnectedComponent) :
  apply image this = (Ok result, this') →
  (maxComponent this <= maxComponent other →
   apply image other
   = (Ok result, mkConnectedComponent (maxComponent other) (nextLabel this')
                   (properties this'))) ∧
  (∀ result2 other', apply image other = (Ok result2, other') →
                     result2 = result ∧ properties other' = properties this').
Proof.
  intros Happ.
  assert (∀ s t r s', maxComponent s <= maxComponent t →
            apply image s = (Ok r, s') →
            apply image t
            = (Ok r, mkConnectedComponent (maxComponent t) (nextLabel s')
                       (properties s'))) as Hup.
  { intros s t r s' Hle Hs.
    pose proof (apply_larger image s (maxComponent t) r s' Hle Hs) as Hl.
    by apply (apply_indep image (with_maxComponent s (maxComponent t)) t). }
  split; [intros Hle; by apply (Hup this other)|].
  intros result2 other' Hother.
  destruct (Z.le_gt_cases (maxComponent this) (maxComponent other)) as [Hle|Hgt].
  - rewrite (Hup this other result this' Hle Happ) in Hother.
    by injection Hother as <- <-.
  - rewrite (Hup other this result2 other' ltac:(lia) Hother) in Happ.
    by injection Happ as <- <-.
Qed.

Lemma capacity_does_not_change_labels_witness :
  apply demo_image demo_object = (Ok demo_result, demo_final) ∧
  (maxComponent demo_object <= maxComponent (ConnectedComponent_new 50) →
   apply demo_image (ConnectedComponent_new 50)
   = (Ok demo_result,
      mkConnectedComponent (maxComponent (ConnectedComponent_new 50))
        (nextLabel demo_final) (properties demo_final))) ∧
  (∀ result2 other',
     apply demo_image (ConnectedComponent_new 50) = (Ok result2, other') →
     result2 = demo_result ∧ properties other' = properties demo_final).
Proof.
  split; [exact demo_apply|].
  exact (capacity_does_not_change_labels demo_image demo_object
           (ConnectedComponent_new 50) demo_result demo_final demo_apply).
Defined.

(** X15: [apply] keeps the zero pattern of the input: a pixel of the label
    image is zero exactly when the input pixel is, and every foreground
    pixel carries a label between 1 and the number of records.  Labelling
    any 8-bit mask of the label image, that is, any image with the same
    zeros, returns the label image and the records again. *)
Theorem zero_pattern_preserved (image : Mat) (this : ConnectedComponent)
    (result : Mat) (this' : ConnectedComponent) :
  wf_mat image → in_int (maxComponent this) →
  apply image this = (Ok result, this') →
  (∀ i a b, mat_data image !! i = Some a → mat_data result !! i = Some b →
            (a = 0 ↔ b = 0)) ∧
  (∀ p, foreground image p →
        ∃ v, mat_at result p = Some v
             ∧ 1 <= v <= Z.of_nat (length (properties this'))) ∧
  (∀ mask, mat_type mask = CV_8UC1 →
           mat_rows mask = mat_rows image → mat_cols mask = mat_cols image →
           length (mat_data mask) = (mat_rows image * mat_cols image)%nat →
           (∀ i a b, mat_data mask !! i = Some a → mat_data result !! i = Some b →
                     (a = 0 ↔ b = 0)) →
           apply mask this = (Ok result, this')).
Proof.
  intros Hwf [_ Hmc] Happ.
  destruct (apply_ok_run image this result this' Hwf Hmc Happ)
    as (data1 & linked & s1 & labels_set & temp & s2 & H1 & H2 & Hres & Hs').
  destruct Hwf as [Hlen _].
  pose proof (apply_type _ _ _ _ Happ) as Hty.
  pose proof (final_length image _ _ _ _ _ _ _ _ _ Hlen H1 H2) as Hdl.
  assert (∀ i a b, mat_data image !! i = Some a → mat_data result !! i = Some b →
                   (a = 0 ↔ b = 0)) as Hzero.
  { intros i a b Ha Hb.
    by eapply (final_zero_iff image _ _ _ _ _ _ _ _ _ Hlen H1 H2). }
  split; [exact Hzero|]. split.
  - intros p Hp.
    destruct (fg_resolved image _ _ _ _ _ _ _ _ _ Hlen H1 H2 p Hp)
      as (_ & _ & f & _ & _ & _ & _ & Hf & Hd).
    exists f. unfold mat_at. rewrite Hres at 1. cbn [mat_cols].
    split; [done|]. rewrite Hs'. cbn [properties with_properties].
    rewrite length_fmap.
    rewrite (final_labels_length image _ _ _ _ _ _ _ _ _ Hlen H1 H2). lia.
  - intros mask Hmty Hrows Hcols Hmlen Hmz. rewrite <-Happ.
    rewrite !apply_stages by done. rewrite Hrows, Hcols.
    assert (same_support (mat_rows image * mat_cols image) 0
              (mat_data mask) (mat_data image)) as Hsup.
    { split; [done|]. split; [done|]. split; [intros i Hi; lia|].
      intros i a b Ha Hb.
      destruct (lookup_lt_is_Some_2 (mat_data result) i) as [c Hc].
      { rewrite Hdl, <-Hlen. by eapply lookup_lt_Some. }
      rewrite (Hmz i a c Ha Hc). symmetry. by apply (Hzero i b c). }
    by rewrite (pass1_sim (mat_rows image * mat_cols image) _ _
                  (mat_data mask) (mat_data image) _ _ eq_refl Hsup).
Qed.

Lemma zero_pattern_preserved_witness :
  wf_mat demo_image ∧ in_int (maxComponent demo_object) ∧
  apply demo_image demo_object = (Ok demo_result, demo_final) ∧
  (∀ i a b, mat_data demo_image !! i = Some a → mat_data demo_result !! i = Some b →
            (a = 0 ↔ b = 0)) ∧
  (∀ p, foreground demo_image p →
        ∃ v, mat_at demo_result p = Some v
             ∧ 1 <= v <= Z.of_nat (length (properties demo_final))) ∧
  (∀ mask, mat_type mask = CV_8UC1 →
           mat_rows mask = mat_rows demo_image → mat_cols mask = mat_cols demo_image →
           length (mat_data mask) = (mat_rows demo_image * mat_cols demo_image)%nat →
           (∀ i a b, mat_data mask !! i = Some a → mat_data demo_result !! i = Some b →
                     (a = 0 ↔ b = 0)) →
           apply mask demo_object = (Ok demo_result, demo_final)).
Proof.
  split; [exact demo_wf|]. split; [exact demo_int|]. split; [exact demo_apply|].
  exact (zero_pattern_preserved demo_image demo_object demo_result demo_final
           demo_wf demo_int demo_apply).
Defined.

(** X16: the eccentricity [calculateBlobEccentricity] returns is the result
    of [sqrtf], hence never below zero: whatever the moments, it is NaN or
    it does not compare less than 0. *)
Theorem eccentricity_never_negative (moment : Moments) :
  SFltb (calculateBlobEccentricity moment) (S754_zero false) = false.
Proof.
  unfold calculateBlobEccentricity, F32.sqrt.
  generalize (F32.of_double
                (F64.sub (F64.of_Z 1)
                   (F64.div (eig_val_2 moment) (eig_val_1 moment)))).
  intros x. destruct x as [s|[]| |[] m e]; try done.
  unfold SFsqrt. destruct (SFsqrt_core_binary _ _ _ _) as [[mz ez] lz].
  unfold binary_round_aux.
  destruct (shr_fexp _ _ mz ez lz) as [mrs1 e1].
  destruct (shr_fexp _ _ _ e1 loc_Exact) as [mrs2 e2].
  destruct (shr_m mrs2); [done| |done]. by destruct (_ <=? _).
Qed.
